(** * uxsdcxx: the XSD to C++ generator, embedded and verified

    A shallow embedding of [uxsdcxx.py].  The Python object graph built by
    the [xmlschema] library is a heap of type objects and element objects
    addressed by identity; the attributes the script attaches to those
    objects ([cpp_type], [many], [child_elements], ...) are optional record
    fields, [None] standing for "attribute not set".  The module-level
    registries ([arena_types], [anonymous_complex_types], ...) and the
    standard error stream are the remaining components of the state.
    Python exceptions are an explicit outcome; unbounded recursion is
    cut by fuel and shows up as the outcome [OutOfFuel]. *)

From Stdlib Require Import Ascii String.
From stdpp Require Import base option list strings gmap sets fin_maps pretty sorting.

Set Warnings "-clear-no-such-hyp".

Local Open Scope string_scope.
Local Open Scope list_scope.

(** ** Strings and formatting *)

Module Fmt.

Definition nl : string := String "010"%char EmptyString.
Definition tab : string := String "009"%char EmptyString.
Definition dq : string := String "034"%char EmptyString.
Definition bs : string := String "092"%char EmptyString.

(** [sep.join(l)] *)
Definition join (sep : string) (l : list string) : string := String.concat sep l.

(** ["%d" % n] for a natural number *)
Definition str_of_nat (n : nat) : string := pretty n.

(** [s * n] *)
Fixpoint repeat_str (s : string) (n : nat) : string :=
  match n with
  | O => ""
  | S k => s +:+ repeat_str s k
  end.

(** [x.split("\n")]: the pieces between newlines; never empty. *)
Fixpoint split_lines_aux (cur : string) (x : string) : list string :=
  match x with
  | EmptyString => [String.rev cur]
  | String c rest =>
      if Ascii.eqb c "010"%char
      then String.rev cur :: split_lines_aux "" rest
      else split_lines_aux (String c cur) rest
  end.

Definition split_lines (x : string) : list string := split_lines_aux "" x.

(** [indent(x, n)] *)
Definition indent (x : string) (n : nat) : string :=
  join nl (map (fun line =>
                  if String.eqb line "" then "" else repeat_str tab n +:+ line)
               (split_lines x)).

Definition is_lower (c : ascii) : bool :=
  let n := nat_of_ascii c in (97 <=? n)%nat && (n <=? 122)%nat.
Definition is_upper (c : ascii) : bool :=
  let n := nat_of_ascii c in (65 <=? n)%nat && (n <=? 90)%nat.
Definition is_digit (c : ascii) : bool :=
  let n := nat_of_ascii c in (48 <=? n)%nat && (n <=? 57)%nat.

(** one character of [re.sub(r"[^a-zA-Z0-9_]", "_", x)] *)
Definition sub_nonword (c : ascii) : ascii :=
  if is_lower c || is_upper c || is_digit c || Ascii.eqb c "_"%char
  then c else "_"%char.

Definition upper_char (c : ascii) : ascii :=
  if is_lower c then ascii_of_nat (nat_of_ascii c - 32) else c.

Fixpoint map_string (f : ascii -> ascii) (s : string) : string :=
  match s with
  | EmptyString => EmptyString
  | String c r => String (f c) (map_string f r)
  end.

End Fmt.
Import Fmt.

(** ** Module-level constants of the script *)

Definition xs : string := "{http://www.w3.org/2001/XMLSchema}".

Definition atomic_builtins : list (string * string) :=
  [ (xs +:+ "string", "const char *");
    (xs +:+ "boolean", "bool");
    (xs +:+ "float", "float");
    (xs +:+ "decimal", "int");
    (xs +:+ "integer", "int");
    (xs +:+ "nonPositiveInteger", "int");
    (xs +:+ "negativeInteger", "int");
    (xs +:+ "long", "long");
    (xs +:+ "int", "int");
    (xs +:+ "short", "short");
    (xs +:+ "byte", "char");
    (xs +:+ "nonNegativeInteger", "unsigned int");
    (xs +:+ "unsignedLong", "unsigned long");
    (xs +:+ "unsignedInt", "unsigned int");
    (xs +:+ "unsignedShort", "unsigned short");
    (xs +:+ "unsignedByte", "unsigned byte");
    (xs +:+ "positiveInteger", "unsigned int");
    (xs +:+ "double", "double") ].

(** the load templates, each split at its single [%s] *)
Definition atomic_builtin_load_formats : list (string * (string * string)) :=
  [ (xs +:+ "string", ("strdup(", ")"));
    (xs +:+ "boolean", ("std::strtol(", ", NULL, 10)"));
    (xs +:+ "float", ("std::strtof(", ", NULL)"));
    (xs +:+ "decimal", ("std::strtol(", ", NULL, 10)"));
    (xs +:+ "integer", ("std::strtol(", ", NULL, 10)"));
    (xs +:+ "nonPositiveInteger", ("std::strtol(", ", NULL, 10)"));
    (xs +:+ "negativeInteger", ("std::strtol(", ", NULL, 10)"));
    (xs +:+ "long", ("std::strtoll(", ", NULL, 10)"));
    (xs +:+ "int", ("std::strtol(", ", NULL, 10)"));
    (xs +:+ "short", ("std::strtol(", ", NULL, 10)"));
    (xs +:+ "byte", ("std::strtol(", ", NULL, 10)"));
    (xs +:+ "nonNegativeInteger", ("std::strtoul(", ", NULL, 10)"));
    (xs +:+ "unsignedLong", ("std::strtoull(", ", NULL, 10)"));
    (xs +:+ "unsignedInt", ("std::strtoul(", ", NULL, 10)"));
    (xs +:+ "unsignedShort", ("std::strtoul(", ", NULL, 10)"));
    (xs +:+ "unsignedByte", ("std::strtoul(", ", NULL, 10)"));
    (xs +:+ "positiveInteger", ("std::strtoul(", ", NULL, 10)"));
    (xs +:+ "double", ("std::strtod(", ", NULL)")) ].

Definition cpp_keywords : list string :=
  [ "alignas"; "alignof"; "and"; "and_eq"; "asm"; "atomic_cancel"; "atomic_commit"; "atomic_noexcept";
    "auto"; "bitand"; "bitor"; "bool"; "break"; "case"; "catch"; "char"; "char8_t"; "char16_t"; "char32_t"; "class";
    "compl"; "concept"; "const"; "consteval"; "constexpr"; "const_cast"; "continue"; "co_await"; "co_return";
    "co_yield"; "decltype"; "default"; "delete"; "do"; "double"; "dynamic_cast"; "else"; "enum"; "explicit";
    "export"; "extern"; "false"; "float"; "for"; "friend"; "goto"; "if"; "inline"; "int"; "long"; "mutable";
    "namespace"; "new"; "noexcept"; "not"; "not_eq"; "nullptr"; "operator"; "or"; "or_eq"; "private";
    "protected"; "public"; "reflexpr"; "register"; "reinterpret_cast"; "requires"; "return"; "short"; "signed";
    "sizeof"; "static"; "static_assert"; "static_cast"; "struct"; "switch"; "synchronized"; "template"; "this";
    "thread_local"; "throw"; "true"; "try"; "typedef"; "typeid"; "typename"; "union"; "unsigned"; "using";
    "virtual"; "void"; "volatile"; "wchar_t"; "while"; "xor"; "xor_eq" ].

Definition builtin_fn_declarations : string :=
  nl +:+
  "void dfa_error(const char *wrong, int *states, const char **lookup, int len);" +:+ nl +:+
  "template<std::size_t N>" +:+ nl +:+
  "void all_error(std::bitset<N> gstate, const char **lookup);" +:+ nl +:+
  "template<std::size_t N>" +:+ nl +:+
  "void attr_error(std::bitset<N> astate, const char **lookup);" +:+ nl +:+
  "void alloc_arenas(void);" +:+ nl +:+
  "void get_root_elements(const char *filename);" +:+ nl.

(** dictionary lookup [d[k]] / [k in d] on the constant tables *)
Fixpoint assoc {A} (k : string) (d : list (string * A)) : option A :=
  match d with
  | [] => None
  | (k', v) :: r => if String.eqb k k' then Some v else assoc k r
  end.

(** [x in l] for a list of strings *)
Definition str_in (x : string) (l : list string) : bool :=
  existsb (String.eqb x) l.

(** ** The schema object graph *)

Definition tid := nat.  (* identity of a type object *)
Definition eid := nat.  (* identity of an element object *)

(** the output of [dfa_from_group], which lives in the [dfa] module *)
Record DFA := {
  dfa_states : list nat;
  dfa_alphabet : list string;
  dfa_start : nat;
  dfa_accepts : list nat;
  dfa_transitions : list (list (string * nat))
}.

Record XsdAttribute := {
  a_name : string;
  a_use : string;
  a_default : option string;
  a_type : tid
}.

(** occurs = (min, max), [None] for an unbounded max *)
Definition occurs_t : Type := nat * option nat.

Inductive XsdGroup : Type :=
| Group (g_occurs : occurs_t) (g_model : string) (_group : list XsdParticle)
with XsdParticle : Type :=
| PElement (e : eid)
| PGroup (g : XsdGroup)
| PWildcard.

Definition g_occurs (g : XsdGroup) := let 'Group o _ _ := g in o.
Definition g_model (g : XsdGroup) := let 'Group _ m _ := g in m.
Definition g_members (g : XsdGroup) := let 'Group _ _ l := g in l.

(** [t.content_type]: a model group or a simple type *)
Inductive XsdContent :=
| ContentGroup (g : XsdGroup)
| ContentSimple (t : tid).

(** a facet of a restriction; only [enumeration] is understood *)
Inductive XsdFacet :=
| Enumeration (values : list string)
| OtherFacet.

(** the class of a type object, with the fields the script reads *)
Inductive XsdKind :=
| XsdComplexType (attributes : list XsdAttribute) (content_type : XsdContent)
| XsdAtomicBuiltin
| XsdAtomicRestriction (validators : list XsdFacet) (parent_name : string)
| XsdList
| XsdUnion (member_types : list tid)
| XsdOtherSimple.

Inductive model_t := ModelAll | ModelDfa.

(** a type object; the fields after [ty_kind] are attached by annotation *)
Record XsdType := {
  ty_name : string;
  ty_kind : XsdKind;
  ty_cpp_type : option string;
  ty_attribute_list : option (list XsdAttribute);
  ty_model : option (option model_t);
  ty_dfa : option DFA;
  ty_child_elements : option (list eid)
}.

(** an element object; the fields after [el_type] are attached by annotation *)
Record XsdElement := {
  el_name : string;
  el_occurs : occurs_t;
  el_type : tid;
  el_cpp_type : option string;
  el_many : option bool;
  el_optional : option bool
}.

Definition is_complex (k : XsdKind) : bool :=
  match k with XsdComplexType _ _ => true | _ => false end.

(** ** Program state and outcomes *)

Record State := {
  type_objs : gmap tid XsdType;
  elem_objs : gmap eid XsdElement;
  types : list tid;
  elements : list eid;
  anonymous_complex_types : list tid;
  enums : list tid;
  unions : list tid;
  simple_types : gset tid;
  arena_types : gset tid;
  stderr : list string
}.

Inductive exn :=
| NotImplementedError (msg : string)
| AssertionError
| AttributeError (attr : string)
| KeyError (key : string)
| IndexError
| DanglingReference.

Inductive outcome (A : Type) :=
| Ret (a : A)
| Raise (e : exn)
| OutOfFuel.
Arguments Ret {A} a.
Arguments Raise {A} e.
Arguments OutOfFuel {A}.

Definition M (A : Type) : Type := State -> outcome (A * State).

Definition raise {A} (e : exn) : M A := fun _ => Raise e.
Definition out_of_fuel {A} : M A := fun _ => OutOfFuel.
Definition get : M State := fun s => Ret (s, s).
Definition modify (f : State -> State) : M unit := fun s => Ret (tt, f s).

#[global] Instance M_ret : MRet M := fun A a s => Ret (a, s).
#[global] Instance M_bind : MBind M := fun A B k m s =>
  match m s with
  | Ret (a, s') => k a s'
  | Raise e => Raise e
  | OutOfFuel => OutOfFuel
  end.

Definition ret {A} (a : A) : M A := mret a.

(** read an attribute that may be unset *)
Definition attr_of {A} (name : string) (o : option A) : M A :=
  match o with Some a => ret a | None => raise (AttributeError name) end.

Definition type_obj (t : tid) : M XsdType :=
  s ← get;
  match type_objs s !! t with
  | Some o => ret o
  | None => raise DanglingReference
  end.

Definition elem_obj (e : eid) : M XsdElement :=
  s ← get;
  match elem_objs s !! e with
  | Some o => ret o
  | None => raise DanglingReference
  end.

Definition set_type_objs (f : gmap tid XsdType -> gmap tid XsdType) (s : State) : State :=
  {| type_objs := f (type_objs s); elem_objs := elem_objs s;
     types := types s; elements := elements s;
     anonymous_complex_types := anonymous_complex_types s;
     enums := enums s; unions := unions s; simple_types := simple_types s;
     arena_types := arena_types s; stderr := stderr s |}.

Definition set_elem_objs (f : gmap eid XsdElement -> gmap eid XsdElement) (s : State) : State :=
  {| type_objs := type_objs s; elem_objs := f (elem_objs s);
     types := types s; elements := elements s;
     anonymous_complex_types := anonymous_complex_types s;
     enums := enums s; unions := unions s; simple_types := simple_types s;
     arena_types := arena_types s; stderr := stderr s |}.

Definition set_types (f : list tid -> list tid) (s : State) : State :=
  {| type_objs := type_objs s; elem_objs := elem_objs s;
     types := f (types s); elements := elements s;
     anonymous_complex_types := anonymous_complex_types s;
     enums := enums s; unions := unions s; simple_types := simple_types s;
     arena_types := arena_types s; stderr := stderr s |}.

Definition set_anonymous (f : list tid -> list tid) (s : State) : State :=
  {| type_objs := type_objs s; elem_objs := elem_objs s;
     types := types s; elements := elements s;
     anonymous_complex_types := f (anonymous_complex_types s);
     enums := enums s; unions := unions s; simple_types := simple_types s;
     arena_types := arena_types s; stderr := stderr s |}.

Definition set_enums (f : list tid -> list tid) (s : State) : State :=
  {| type_objs := type_objs s; elem_objs := elem_objs s;
     types := types s; elements := elements s;
     anonymous_complex_types := anonymous_complex_types s;
     enums := f (enums s); unions := unions s; simple_types := simple_types s;
     arena_types := arena_types s; stderr := stderr s |}.

Definition set_unions (f : list tid -> list tid) (s : State) : State :=
  {| type_objs := type_objs s; elem_objs := elem_objs s;
     types := types s; elements := elements s;
     anonymous_complex_types := anonymous_complex_types s;
     enums := enums s; unions := f (unions s); simple_types := simple_types s;
     arena_types := arena_types s; stderr := stderr s |}.

Definition set_simple_types (f : gset tid -> gset tid) (s : State) : State :=
  {| type_objs := type_objs s; elem_objs := elem_objs s;
     types := types s; elements := elements s;
     anonymous_complex_types := anonymous_complex_types s;
     enums := enums s; unions := unions s; simple_types := f (simple_types s);
     arena_types := arena_types s; stderr := stderr s |}.

Definition set_arena_types (f : gset tid -> gset tid) (s : State) : State :=
  {| type_objs := type_objs s; elem_objs := elem_objs s;
     types := types s; elements := elements s;
     anonymous_complex_types := anonymous_complex_types s;
     enums := enums s; unions := unions s; simple_types := simple_types s;
     arena_types := f (arena_types s); stderr := stderr s |}.

Definition set_stderr (f : list string -> list string) (s : State) : State :=
  {| type_objs := type_objs s; elem_objs := elem_objs s;
     types := types s; elements := elements s;
     anonymous_complex_types := anonymous_complex_types s;
     enums := enums s; unions := unions s; simple_types := simple_types s;
     arena_types := arena_types s; stderr := f (stderr s) |}.

(** update one object in place *)
Definition update_type (t : tid) (f : XsdType -> XsdType) : M unit :=
  modify (set_type_objs (fun h => match h !! t with
                                   | Some o => <[t := f o]> h
                                   | None => h
                                   end)).

Definition update_elem (e : eid) (f : XsdElement -> XsdElement) : M unit :=
  modify (set_elem_objs (fun h => match h !! e with
                                   | Some o => <[e := f o]> h
                                   | None => h
                                   end)).

(** [print(line, file=sys.stderr)] *)
Definition eprint (line : string) : M unit :=
  modify (set_stderr (fun l => l ++ [line])).

(** monadic loops *)
Fixpoint for_each {A} (l : list A) (body : A -> M unit) : M unit :=
  match l with
  | [] => ret tt
  | x :: r => body x ;; for_each r body
  end.

Fixpoint map_m {A B} (f : A -> M B) (l : list A) : M (list B) :=
  match l with
  | [] => ret []
  | x :: r => y ← f x; ys ← map_m f r; ret (y :: ys)
  end.

(** [out = ""; for x in l: out += f(x)] *)
Fixpoint concat_m {A} (f : A -> M string) (l : list A) : M string :=
  match l with
  | [] => ret ""
  | x :: r => y ← f x; ys ← concat_m f r; ret (y +:+ ys)
  end.

(** ** Name mangling and the keyword guard *)

Definition checked (x : string) : M string :=
  if str_in x cpp_keywords then
    eprint (x +:+ " is a C++ keyword. Changing it to " +:+ x +:+ "_.") ;;
    ret (x +:+ "_")
  else ret x.

Definition to_cpp_type (x : string) : string :=
  match assoc x atomic_builtins with
  | Some c => c
  | None => "t_" +:+ x
  end.

Definition to_token (x : string) : string :=
  map_string upper_char (map_string sub_nonword x).

Definition to_union_member_type (x : string) : string :=
  "as_" +:+ map_string sub_nonword x.

(** ** Attribute assignment on objects *)

Definition ty_set_name (n : string) (t : XsdType) : XsdType :=
  {| ty_name := n; ty_kind := ty_kind t; ty_cpp_type := ty_cpp_type t;
     ty_attribute_list := ty_attribute_list t; ty_model := ty_model t;
     ty_dfa := ty_dfa t; ty_child_elements := ty_child_elements t |}.

Definition ty_set_cpp_type (c : string) (t : XsdType) : XsdType :=
  {| ty_name := ty_name t; ty_kind := ty_kind t; ty_cpp_type := Some c;
     ty_attribute_list := ty_attribute_list t; ty_model := ty_model t;
     ty_dfa := ty_dfa t; ty_child_elements := ty_child_elements t |}.

Definition ty_set_attribute_list (l : list XsdAttribute) (t : XsdType) : XsdType :=
  {| ty_name := ty_name t; ty_kind := ty_kind t; ty_cpp_type := ty_cpp_type t;
     ty_attribute_list := Some l; ty_model := ty_model t;
     ty_dfa := ty_dfa t; ty_child_elements := ty_child_elements t |}.

Definition ty_set_model (m : option model_t) (t : XsdType) : XsdType :=
  {| ty_name := ty_name t; ty_kind := ty_kind t; ty_cpp_type := ty_cpp_type t;
     ty_attribute_list := ty_attribute_list t; ty_model := Some m;
     ty_dfa := ty_dfa t; ty_child_elements := ty_child_elements t |}.

Definition ty_set_dfa (d : DFA) (t : XsdType) : XsdType :=
  {| ty_name := ty_name t; ty_kind := ty_kind t; ty_cpp_type := ty_cpp_type t;
     ty_attribute_list := ty_attribute_list t; ty_model := ty_model t;
     ty_dfa := Some d; ty_child_elements := ty_child_elements t |}.

Definition ty_set_child_elements (l : list eid) (t : XsdType) : XsdType :=
  {| ty_name := ty_name t; ty_kind := ty_kind t; ty_cpp_type := ty_cpp_type t;
     ty_attribute_list := ty_attribute_list t; ty_model := ty_model t;
     ty_dfa := ty_dfa t; ty_child_elements := Some l |}.

Definition el_set_many_optional (m o : bool) (e : XsdElement) : XsdElement :=
  {| el_name := el_name e; el_occurs := el_occurs e; el_type := el_type e;
     el_cpp_type := el_cpp_type e; el_many := Some m; el_optional := Some o |}.

Definition el_set_cpp_type (c : string) (e : XsdElement) : XsdElement :=
  {| el_name := el_name e; el_occurs := el_occurs e; el_type := el_type e;
     el_cpp_type := Some c; el_many := el_many e; el_optional := el_optional e |}.

(** Python truthiness of a string-valued attribute read with
    [getattr(x, attr, None)] *)
Definition truthy (o : option string) : bool :=
  match o with
  | Some s => negb (String.eqb s "")
  | None => false
  end.

(** [occurs[1] is None or occurs[1] > 1] *)
Definition occurs_many (o : occurs_t) : bool :=
  match snd o with
  | None => true
  | Some mx => (1 <? mx)%nat
  end.

(** [occurs[0] is 0] *)
Definition occurs_optional (o : occurs_t) : bool := (fst o =? 0)%nat.

(** ** The schema annotator *)

Section Annotator.

(** [dfa_from_group] is imported from the [dfa] module: it reads the
    group and the graph and returns the automaton. *)
Variable dfa_from_group : State -> XsdGroup -> outcome DFA.

Definition call_dfa_from_group (g : XsdGroup) : M DFA :=
  fun s => match dfa_from_group s g with
           | Ret d => Ret (d, s)
           | Raise e => Raise e
           | OutOfFuel => OutOfFuel
           end.

Definition anno_type_restriction (t : tid) : M unit :=
  o ← type_obj t;
  match ty_kind o with
  | XsdAtomicRestriction validators parent_name =>
      if negb (length validators =? 1)%nat then raise AssertionError
      else
        (if String.eqb (ty_name o) "" then update_type t (ty_set_name parent_name)
         else ret tt);;
        o' ← type_obj t;
        update_type t (ty_set_cpp_type ("enum_" +:+ ty_name o'));;
        modify (set_enums (fun l => l ++ [t]))
  | _ => raise (AttributeError "validators")
  end.

(** [anno_type_union], with the simple-type annotator it calls on the
    members left open *)
Definition anno_type_union_with (anno_st : tid -> M unit) (t : tid) : M unit :=
  o ← type_obj t;
  update_type t (ty_set_cpp_type ("union_" +:+ ty_name o));;
  match ty_kind o with
  | XsdUnion member_types =>
      for_each member_types (fun m =>
        anno_st m;;
        modify (set_simple_types (fun s => {[m]} ∪ s)));;
      modify (set_unions (fun l => l ++ [t]))
  | _ => raise (AttributeError "member_types")
  end.

Fixpoint anno_type_simple_type (fuel : nat) (t : tid) : M unit :=
  match fuel with
  | O => out_of_fuel
  | S fuel' =>
      o ← type_obj t;
      match ty_kind o with
      | XsdAtomicBuiltin =>
          match assoc (ty_name o) atomic_builtins with
          | Some c => update_type t (ty_set_cpp_type c)
          | None => raise (KeyError (ty_name o))
          end
      | XsdAtomicRestriction _ _ => anno_type_restriction t
      | XsdList => update_type t (ty_set_cpp_type "const char *")
      | XsdUnion _ => anno_type_union_with (anno_type_simple_type fuel') t
      | _ => raise (NotImplementedError "I don't know what to do with type.")
      end
  end.

Definition anno_type_union (fuel : nat) (t : tid) : M unit :=
  anno_type_union_with (anno_type_simple_type fuel) t.

(** [anno_type_element], with the complex-type annotator it calls left
    open; the recursion is closed below. *)
Definition anno_type_element_with (anno_ct : tid -> M unit) (fuel : nat)
    (t : eid) (many optional : bool) : M unit :=
  el ← elem_obj t;
  match el_cpp_type el with
  | Some _ => ret tt
  | None =>
      let many := many || occurs_many (el_occurs el) in
      let optional := optional || occurs_optional (el_occurs el) in
      ty ← type_obj (el_type el);
      (if String.eqb (ty_name ty) "" then
         update_type (el_type el) (ty_set_name (el_name el));;
         modify (set_anonymous (fun l => l ++ [el_type el]))
       else ret tt);;
      go_on ← (if is_complex (ty_kind ty) then
                 anno_ct (el_type el);;
                 ty' ← type_obj (el_type el);
                 ret (truthy (ty_cpp_type ty'))
               else
                 anno_type_simple_type fuel (el_type el);;
                 ret true);
      if go_on : bool then
        update_elem t (el_set_many_optional many optional);;
        (if many then modify (set_arena_types (fun a => {[el_type el]} ∪ a))
         else ret tt);;
        ty'' ← type_obj (el_type el);
        c ← attr_of "cpp_type" (ty_cpp_type ty'');
        update_elem t (el_set_cpp_type c)
      else ret tt
  end.

(** the loop [for e in t._group] of [anno_type_group]: nested groups
    go to [on_group], elements are annotated and listed *)
Fixpoint group_loop (on_group : XsdGroup -> M (list eid)) (on_element : eid -> M unit)
    (l : list XsdParticle) : M (list eid) :=
  match l with
  | [] => ret []
  | e :: rest =>
      out1 ← match e with
             | PGroup g => on_group g
             | PElement x => on_element x;; ret [x]
             | PWildcard =>
                 raise (NotImplementedError "I don't know what to do with group member.")
             end;
      out2 ← group_loop on_group on_element rest;
      ret (out1 ++ out2)
  end.

Fixpoint anno_type_group_with (anno_el : eid -> bool -> bool -> M unit)
    (t : XsdGroup) (many optional : bool) : M (list eid) :=
  match t with
  | Group occ _ members =>
      let many := many || occurs_many occ in
      let optional := optional || occurs_optional occ in
      group_loop (fun g => anno_type_group_with anno_el g many optional)
                 (fun x => anno_el x many optional) members
  end.

(** [list(dict.fromkeys(l))]: first occurrences, in order *)
Fixpoint dedup_stable {A} `{EqDecision A} (l : list A) (seen : list A) : list A :=
  match l with
  | [] => []
  | x :: r => if decide (x ∈ seen) then dedup_stable r seen
              else x :: dedup_stable r (x :: seen)
  end.

#[global] Instance XsdAttribute_eq_dec : EqDecision XsdAttribute.
Proof. solve_decision. Defined.

Fixpoint anno_type_complex_type (fuel : nat) (t : tid) : M unit :=
  match fuel with
  | O => out_of_fuel
  | S fuel' =>
      o ← type_obj t;
      match ty_cpp_type o with
      | Some _ => ret tt
      | None =>
          update_type t (ty_set_cpp_type (to_cpp_type (ty_name o)));;
          match ty_kind o with
          | XsdComplexType attributes content_type =>
              let attribute_list := dedup_stable attributes [] in
              update_type t (ty_set_attribute_list attribute_list);;
              for_each attribute_list (fun attr =>
                if String.eqb (a_use attr) "prohibited" then raise AssertionError
                else anno_type_simple_type fuel' (a_type attr));;
              update_type t (ty_set_model None);;
              update_type t (ty_set_child_elements []);;
              match content_type with
              | ContentGroup g =>
                  if (0 <? length (g_members g))%nat then
                    (if String.eqb (g_model g) "all" then
                       update_type t (ty_set_model (Some ModelAll))
                     else if str_in (g_model g) ["choice"; "sequence"] then
                       update_type t (ty_set_model (Some ModelDfa));;
                       d ← call_dfa_from_group g;
                       update_type t (ty_set_dfa d)
                     else raise (NotImplementedError "Model group is not supported."));;
                    ces ← anno_type_group_with
                            (anno_type_element_with (anno_type_complex_type fuel') fuel')
                            g false false;
                    update_type t (ty_set_child_elements ces)
                  else ret tt
              | ContentSimple c => anno_type_simple_type fuel' c
              end
          | _ => raise (AttributeError "attributes")
          end
      end
  end.

Definition anno_type_element (fuel : nat) (t : eid) (many optional : bool) : M unit :=
  anno_type_element_with (anno_type_complex_type fuel) fuel t many optional.

Definition anno_type_group (fuel : nat) (t : XsdGroup) (many optional : bool)
  : M (list eid) :=
  anno_type_group_with (anno_type_element fuel) t many optional.

(** the two module-level annotation loops *)
Definition annotate (fuel : nat) : M unit :=
  s ← get;
  for_each (types s) (anno_type_complex_type fuel);;
  for_each (elements s) (fun e => anno_type_element fuel e false false).

End Annotator.

(** ** Sorting the types by tree height *)

(** lift a pure outcome into the monad *)
Definition lift_outcome {A} (o : outcome A) : M A :=
  fun s => match o with
           | Ret a => Ret (a, s)
           | Raise e => Raise e
           | OutOfFuel => OutOfFuel
           end.

(** [[y.type for y in x.child_elements]] *)
Definition child_types (s : State) (x : tid) : outcome (list tid) :=
  match type_objs s !! x with
  | None => Raise DanglingReference
  | Some o =>
      match ty_child_elements o with
      | None => Raise (AttributeError "child_elements")
      | Some ces =>
          match mapM (fun e => el_type <$> (elem_objs s !! e)) ces with
          | Some l => Ret l
          | None => Raise DanglingReference
          end
      end
  end.

(** [max(l)] of a list that starts with 0 *)
Definition max_list0 (l : list nat) : nat := foldr Nat.max 0 l.

(** the list comprehension [[key_ctype(y.type, visited) for y in ...]]:
    the calls run left to right on the one [visited] set *)
Fixpoint key_ctype_children (call : tid -> gset tid -> outcome (nat * gset tid))
    (l : list tid) (visited : gset tid) : outcome (list nat * gset tid) :=
  match l with
  | [] => Ret ([], visited)
  | y :: rest =>
      match call y visited with
      | Ret (k, visited') =>
          match key_ctype_children call rest visited' with
          | Ret (ks, visited'') => Ret (k :: ks, visited'')
          | Raise e => Raise e
          | OutOfFuel => OutOfFuel
          end
      | Raise e => Raise e
      | OutOfFuel => OutOfFuel
      end
  end.

(** [key_ctype(x, visited)]: the value returned and the [visited] set
    afterwards; the set is one shared mutable object in the script.
    In a recursive call the set is never empty, so [if not visited]
    only fires for the call made by [sort], modelled by passing ∅. *)
Fixpoint key_ctype (fuel : nat) (s : State) (x : tid) (visited : gset tid)
  : outcome (nat * gset tid) :=
  match fuel with
  | O => OutOfFuel
  | S fuel' =>
      if decide (x ∈ visited) then Ret (0, visited)
      else
        let visited := {[x]} ∪ visited in
        match child_types s x with
        | Ret ys =>
            match key_ctype_children (key_ctype fuel' s) ys visited with
            | Ret (ks, visited') => Ret (max_list0 (0 :: ks) + 1, visited')
            | Raise e => Raise e
            | OutOfFuel => OutOfFuel
            end
        | Raise e => Raise e
        | OutOfFuel => OutOfFuel
        end
  end.

(** the sort key of one list item: a call with [visited=None] *)
Definition sort_key (fuel : nat) (s : State) (x : tid) : outcome nat :=
  match key_ctype fuel s x ∅ with
  | Ret (k, _) => Ret k
  | Raise e => Raise e
  | OutOfFuel => OutOfFuel
  end.

(** [list.sort(key=...)] and [sorted(..., key=...)] are stable: among
    equal keys the earlier item stays first. *)
Fixpoint insert_by_key {K A} (leb : K -> K -> bool) (kx : K * A) (l : list (K * A))
  : list (K * A) :=
  match l with
  | [] => [kx]
  | ky :: r => if leb (fst kx) (fst ky) then kx :: ky :: r
               else ky :: insert_by_key leb kx r
  end.

Definition stable_sort {K A} (leb : K -> K -> bool) (l : list (K * A)) : list (K * A) :=
  foldr (insert_by_key leb) [] l.

(** [types += anonymous_complex_types; types.sort(key=key_ctype)] *)
Definition sort_types (fuel : nat) : M unit :=
  s ← get;
  let ts := types s ++ anonymous_complex_types s in
  keys ← map_m (fun t => lift_outcome (sort_key fuel s t)) ts;
  modify (set_types (fun _ => snd <$> stable_sort Nat.leb (zip keys ts))).

(** ** Emitters *)

(** attribute reads on objects *)
Definition cpp_type_of (t : tid) : M string :=
  o ← type_obj t; attr_of "cpp_type" (ty_cpp_type o).

Definition name_of (t : tid) : M string :=
  o ← type_obj t; ret (ty_name o).

Definition el_many_of (el : XsdElement) : M bool := attr_of "many" (el_many el).
Definition el_optional_of (el : XsdElement) : M bool := attr_of "optional" (el_optional el).
Definition el_cpp_type_of (el : XsdElement) : M string := attr_of "cpp_type" (el_cpp_type el).

(** [t.has_simple_content()] *)
Definition has_simple_content (o : XsdType) : option tid :=
  match ty_kind o with
  | XsdComplexType _ (ContentSimple c) => Some c
  | _ => None
  end.

(** [t.attributes], the dictionary the schema library fills *)
Definition ty_attributes (o : XsdType) : M (list XsdAttribute) :=
  match ty_kind o with
  | XsdComplexType attributes _ => ret attributes
  | _ => raise (AttributeError "attributes")
  end.

(** [fmt % x] for a load template *)
Definition load_format (name input : string) : M string :=
  match assoc name atomic_builtin_load_formats with
  | Some (pre, post) => ret (pre +:+ input +:+ post)
  | None => raise (KeyError name)
  end.

Definition typedefn_from_complex_type (t : tid) : M string :=
  o ← type_obj t;
  attribute_list ← attr_of "attribute_list" (ty_attribute_list o);
  out1 ← concat_m (fun attr =>
            c ← cpp_type_of (a_type attr);
            n ← checked (a_name attr);
            ret (c +:+ " " +:+ n +:+ ";" +:+ nl)) attribute_list;
  child_elements ← attr_of "child_elements" (ty_child_elements o);
  out2 ← concat_m (fun child =>
            el ← elem_obj child;
            many ← el_many_of el;
            if many : bool then
              c ← el_cpp_type_of el;
              ret ("int num_" +:+ el_name el +:+ ";" +:+ nl +:+
                   c +:+ " * " +:+ el_name el +:+ "_list;" +:+ nl)
            else
              optional ← el_optional_of el;
              c ← el_cpp_type_of el;
              n ← checked (el_name el);
              ret ((if optional : bool
                    then "bool has_" +:+ el_name el +:+ ";" +:+ nl else "") +:+
                   c +:+ " " +:+ n +:+ ";" +:+ nl)) child_elements;
  out3 ← match has_simple_content o with
         | Some c => ct ← cpp_type_of c; ret (ct +:+ " value;" +:+ nl)
         | None => ret ""
         end;
  cpp ← attr_of "cpp_type" (ty_cpp_type o);
  ret ("struct " +:+ cpp +:+ " {" +:+ nl +:+
       indent (out1 +:+ out2 +:+ out3) 1 +:+ "};" +:+ nl).

(** [struct_definitions], the loop over [types] *)
Definition struct_definitions : M string :=
  s ← get; concat_m typedefn_from_complex_type (types s).

Section TypeTag.

(** Iterating a Python [set] of strings visits them in the order of the
    hash table, which follows the string hashes of the running
    interpreter; [set_iter] is that order for one run. *)
Variable set_iter : list string -> list string.

(** [sorted(simple_types, key=lambda x: x.name)], then the tag enum *)
Definition type_tag_definition : M string :=
  s ← get;
  named ← map_m (fun t => n ← name_of t; ret (n, t)) (base.elements (simple_types s));
  let sorted := snd <$> stable_sort String.leb named in
  toks ← map_m (fun t => c ← cpp_type_of t; ret (to_token c)) sorted;
  ret ("enum class type_tag {" +:+ join ", " (set_iter toks) +:+ "};" +:+ nl).

End TypeTag.

(** *** Validate/count pass *)





(** *** Load pass *)

(** the body of the loop over [t.member_types] in [_gen_load_union] *)
Definition _gen_load_union_member (container input : string) (m : tid) : M string :=
  mo ← type_obj m;
  mcpp ← attr_of "cpp_type" (ty_cpp_type mo);
  let new_container := container +:+ "." +:+ to_union_member_type mcpp in
  let tag := container +:+ ".tag = type_tag::" +:+ to_token mcpp +:+ ";" +:+ nl in
  match ty_kind mo with
  | XsdAtomicBuiltin =>
      f ← load_format (ty_name mo) input;
      ret (tag +:+
           new_container +:+ " = " +:+ f +:+ ";" +:+ nl +:+
           "if(errno == 0)" +:+ nl +:+
           tab +:+ "break;" +:+ nl)
  | XsdAtomicRestriction _ _ =>
      ret (tag +:+
           new_container +:+ " = lex_" +:+ ty_name mo +:+ "(" +:+ input +:+ ", false);" +:+ nl +:+
           "if(" +:+ new_container +:+ " != " +:+ mcpp +:+ "::UXSD_INVALID)" +:+ nl +:+
           "break;" +:+ nl)
  | _ => raise (NotImplementedError "I don't know how to load this into a union.")
  end.

Definition _gen_load_union (t : tid) (container input : string) : M string :=
  o ← type_obj t;
  member_types ← match ty_kind o with
                 | XsdUnion ms => ret ms
                 | _ => raise (AttributeError "member_types")
                 end;
  body ← concat_m (_gen_load_union_member container input) member_types;
  ret (body +:+
       "throw std::runtime_error(" +:+ dq +:+ "Couldn't load a suitable value into union " +:+
         ty_name o +:+ "." +:+ dq +:+ ");" +:+ nl).

Definition _gen_load_simple (t : tid) (container input : string) : M string :=
  o ← type_obj t;
  match ty_kind o with
  | XsdAtomicBuiltin =>
      f ← load_format (ty_name o) input;
      cpp ← attr_of "cpp_type" (ty_cpp_type o);
      ret (container +:+ " = " +:+ f +:+ ";" +:+ nl +:+
           "if(errno != 0)" +:+ nl +:+
           tab +:+ "throw std::runtime_error(" +:+ dq +:+ "Invalid value `" +:+ dq +:+
             " + std::string(" +:+ input +:+ ") + " +:+ dq +:+ "` to load a " +:+ cpp +:+
             " into " +:+ container +:+ "." +:+ dq +:+ ");")
  | XsdAtomicRestriction _ _ =>
      ret (container +:+ " = lex_" +:+ ty_name o +:+ "(" +:+ input +:+ ", true);" +:+ nl)
  | XsdList =>
      ret (container +:+ " = strdup(" +:+ input +:+ ");" +:+ nl)
  | XsdUnion _ => _gen_load_union t container input
  | _ => raise (NotImplementedError "I don't know how to load this.")
  end.

(** ["%s%s" % ("%s->" % parent if parent else "", t.name)] *)
Definition container_of (parent name : string) : string :=
  (if String.eqb parent "" then "" else parent +:+ "->") +:+ name.

Definition _gen_load_element_complex (t : eid) (parent : string) : M string :=
  el ← elem_obj t;
  let container := container_of parent (el_name el) in
  many ← el_many_of el;
  tn ← name_of (el_type el);
  if many : bool then
    ret ("load_" +:+ tn +:+ "(node, &" +:+ tn +:+ "_arena[g_num_" +:+ tn +:+ "]);" +:+ nl +:+
         "g_num_" +:+ tn +:+ "++;" +:+ nl +:+
         parent +:+ "->num_" +:+ el_name el +:+ "++;" +:+ nl)
  else
    optional ← el_optional_of el;
    ret ("load_" +:+ tn +:+ "(node, &" +:+ container +:+ ");" +:+ nl +:+
         (if optional : bool
          then parent +:+ "->has_" +:+ el_name el +:+ " = 1;" +:+ nl else "")).

Definition _gen_load_element (t : eid) (parent : string) : M string :=
  el ← elem_obj t;
  ety ← type_obj (el_type el);
  match ty_kind ety with
  | XsdComplexType _ _ => _gen_load_element_complex t parent
  | XsdAtomicBuiltin =>
      let container := container_of parent (el_name el) in
      f ← load_format (ty_name ety) "node.child_value()";
      ret (container +:+ " = " +:+ f +:+ ";" +:+ nl)
  | _ => raise (NotImplementedError "I don't know how to load this.")
  end.

Definition _gen_load_group (t : tid) : M string :=
  o ← type_obj t;
  child_elements ← attr_of "child_elements" (ty_child_elements o);
  lists ← concat_m (fun e =>
             el ← elem_obj e;
             many ← el_many_of el;
             if many : bool then
               tn ← name_of (el_type el);
               ret ("out->" +:+ el_name el +:+ "_list = &" +:+ tn +:+ "_arena[g_num_" +:+ tn +:+ "];" +:+ nl)
             else ret "") child_elements;
  cpp ← attr_of "cpp_type" (ty_cpp_type o);
  cases ← concat_m (fun e =>
             el ← elem_obj e;
             body ← _gen_load_element e "out";
             ret (tab +:+ "case gtok_" +:+ cpp +:+ "::" +:+ to_token (el_name el) +:+ ":" +:+ nl +:+
                  indent body 2 +:+
                  tab +:+ tab +:+ "break;" +:+ nl)) child_elements;
  ret (lists +:+
       "for(pugi::xml_node node = root.first_child(); node; node = node.next_sibling()){" +:+ nl +:+
       tab +:+ "gtok_" +:+ cpp +:+ " in = glex_" +:+ cpp +:+ "(node.name());" +:+ nl +:+
       tab +:+ "switch(in){" +:+ nl +:+
       cases +:+
       tab +:+ "default: break; /* Not possible. */" +:+ nl +:+
       tab +:+ "}" +:+ nl +:+
       "}" +:+ nl).

(** the mask of the attribute check *)
Definition attr_mask (attrs : list XsdAttribute) : string :=
  join "" (rev (map (fun x => if String.eqb (a_use x) "optional" then "1" else "0") attrs)).

Definition _gen_load_attrs (t : tid) : M string :=
  o ← type_obj t;
  attribute_list ← attr_of "attribute_list" (ty_attribute_list o);
  let N := str_of_nat (length attribute_list) in
  cpp ← attr_of "cpp_type" (ty_cpp_type o);
  cases ← concat_m (fun attr =>
             n ← checked (a_name attr);
             body ← _gen_load_simple (a_type attr) ("out->" +:+ n) "attr.value()";
             ret (tab +:+ "case atok_" +:+ cpp +:+ "::" +:+ to_token (a_name attr) +:+ ":" +:+ nl +:+
                  indent body 2 +:+
                  tab +:+ tab +:+ "break;" +:+ nl)) attribute_list;
  ret ("std::bitset<" +:+ N +:+ "> astate = 0;" +:+ nl +:+
       "for(pugi::xml_attribute attr = root.first_attribute(); attr; attr = attr.next_attribute()){" +:+ nl +:+
       tab +:+ "atok_" +:+ cpp +:+ " in = alex_" +:+ cpp +:+ "(attr.name());" +:+ nl +:+
       tab +:+ "if(astate[(int)in] == 0) astate[(int)in] = 1;" +:+ nl +:+
       tab +:+ "else throw std::runtime_error(" +:+ dq +:+ "Duplicate attribute " +:+ dq +:+
         " + std::string(attr.name()) + " +:+ dq +:+ " in <" +:+ ty_name o +:+ ">." +:+ dq +:+ ");" +:+ nl +:+
       tab +:+ "switch(in){" +:+ nl +:+
       cases +:+
       tab +:+ "default: break; /* Not possible. */" +:+ nl +:+
       tab +:+ "}" +:+ nl +:+
       "}" +:+ nl +:+
       "std::bitset<" +:+ N +:+ "> test_state = astate | std::bitset<" +:+ N +:+ ">(0b" +:+
         attr_mask attribute_list +:+ ");" +:+ nl +:+
       "if(!test_state.all()) attr_error(test_state, atok_lookup_" +:+ cpp +:+ ");" +:+ nl).

Definition load_fn_from_complex_type (t : tid) : M string :=
  o ← type_obj t;
  cpp ← attr_of "cpp_type" (ty_cpp_type o);
  model ← attr_of "model" (ty_model o);
  content ← match model with
            | Some _ => g ← _gen_load_group t; ret (indent g 1)
            | None =>
                match has_simple_content o with
                | Some c => b ← _gen_load_simple c "out->value" "root.child_value()";
                            ret (indent b 1)
                | None => ret ""
                end
            end;
  attributes ← ty_attributes o;
  attrs ← match attributes with
          | _ :: _ => a ← _gen_load_attrs t; ret (indent a 1)
          | [] => ret (tab +:+ "if(root.first_attribute()) throw std::runtime_error(" +:+ dq +:+
                       "Unexpected attribute in <" +:+ ty_name o +:+ ">." +:+ dq +:+ ");" +:+ nl)
          end;
  ret ("void load_" +:+ ty_name o +:+ "(const pugi::xml_node &root, " +:+ cpp +:+ " *out){" +:+ nl +:+
       content +:+ attrs +:+ "}" +:+ nl).

(** [load_fn_definitions], the loop over [types] *)
Definition load_fn_definitions : M string :=
  s ← get; concat_m (fun t => d ← load_fn_from_complex_type t; ret (d +:+ nl)) (types s).

(** [enumerate(l)] *)
Definition enumerate {A} (l : list A) : list (nat * A) := zip (seq 0 (length l)) l.

Definition gen_init_fn : M string :=
  s ← get;
  branches ← concat_m (fun '(i, e) =>
                el ← elem_obj e;
                body ← _gen_load_element e "";
                ret (tab +:+ tab +:+ (if (i =? 0)%nat then "if" else "else if") +:+
                       "(std::strcmp(node.name(), " +:+ dq +:+ el_name el +:+ dq +:+ ") == 0){" +:+ nl +:+
                     tab +:+ tab +:+ tab +:+ "count_" +:+ el_name el +:+ "(node);" +:+ nl +:+
                     tab +:+ tab +:+ tab +:+ "alloc_arenas();" +:+ nl +:+
                     indent body 3 +:+
                     tab +:+ tab +:+ "}" +:+ nl)) (enumerate (elements s));
  ret ("void get_root_element(const char *filename){" +:+ nl +:+
       tab +:+ "pugi::xml_document doc;" +:+ nl +:+
       tab +:+ "pugi::xml_parse_result result = doc.load_file(filename);" +:+ nl +:+
       tab +:+ "if(!result)" +:+ nl +:+
       tab +:+ tab +:+ "throw std::runtime_error(" +:+ dq +:+ "Could not load XML file " +:+ dq +:+
         " + std::string(filename) + " +:+ dq +:+ "." +:+ dq +:+ ");" +:+ nl +:+
       tab +:+ "for(pugi::xml_node node= doc.first_child(); node; node = node.next_sibling()){" +:+ nl +:+
       branches +:+
       tab +:+ tab +:+ "else throw std::runtime_error(" +:+ dq +:+ "Invalid root-level element " +:+ dq +:+
         " + std::string(node.name()));" +:+ nl +:+
       tab +:+ "}" +:+ nl +:+
       "}" +:+ nl).

(** *** Write pass *)

(** the squashed attribute write: the attribute name, an equals sign
    and the value between escaped quotes, all in one [os <<] statement *)
Definition write_attr_stmt (attr_name value : string) : string :=
  "os << " +:+ dq +:+ " " +:+ attr_name +:+ "=" +:+ bs +:+ dq +:+ dq +:+
  " << " +:+ value +:+ " << " +:+ dq +:+ bs +:+ dq +:+ dq +:+ ";" +:+ nl.

Fixpoint _gen_write_simple (fuel : nat) (t : tid) (container attr_name : string)
  : M string :=
  match fuel with
  | O => out_of_fuel
  | S fuel' =>
      o ← type_obj t;
      match ty_kind o with
      | XsdAtomicBuiltin | XsdList =>
          if negb (String.eqb attr_name "")
          then ret (write_attr_stmt attr_name container)
          else ret ("os << " +:+ container +:+ ";" +:+ nl)
      | XsdAtomicRestriction _ _ =>
          let v := "lookup_" +:+ ty_name o +:+ "[(int)" +:+ container +:+ "]" in
          if negb (String.eqb attr_name "")
          then ret (write_attr_stmt attr_name v)
          else ret ("os << " +:+ v +:+ ";" +:+ nl)
      | XsdUnion member_types =>
          concat_m (fun m =>
            mcpp ← cpp_type_of m;
            inner ← _gen_write_simple fuel' t
                      (container +:+ "." +:+ to_union_member_type mcpp) attr_name;
            ret ("if(" +:+ container +:+ ".tag == type_tag::" +:+ to_token mcpp +:+ ")" +:+
                 indent inner 1)) member_types
      | _ => raise (NotImplementedError "I don't know how to write out this.")
      end
  end.

Definition _gen_write_attr (fuel : nat) (a : XsdAttribute) (container : string) : M string :=
  let new_container := container +:+ "." +:+ a_name a in
  if String.eqb (a_use a) "required" || truthy (a_default a) then
    _gen_write_simple fuel (a_type a) new_container (a_name a)
  else
    w ← _gen_write_simple fuel (a_type a) new_container (a_name a);
    ret ("if((bool)" +:+ new_container +:+ ")" +:+ nl +:+ indent w 1).

(** [chr(ord('i')+level)] *)
Definition loop_var (level : nat) : string :=
  String (ascii_of_nat (105 + level)) EmptyString.

Fixpoint _gen_write_element (fuel : nat) (e : eid) (container : string) (level : nat)
  : M string :=
  match fuel with
  | O => out_of_fuel
  | S fuel' =>
      el ← elem_obj e;
      let i := loop_var level in
      ety ← type_obj (el_type el);
      attribute_list ← attr_of "attribute_list" (ty_attribute_list ety);
      open ← match attribute_list with
             | _ :: _ =>
                 attrs ← concat_m (fun a => _gen_write_attr fuel' a container) attribute_list;
                 ret ("os << " +:+ dq +:+ "<" +:+ el_name el +:+ dq +:+ ";" +:+ nl +:+
                      attrs +:+
                      "os << " +:+ dq +:+ ">" +:+ dq +:+ ";" +:+ nl)
             | [] => ret ("os << " +:+ dq +:+ "<" +:+ el_name el +:+ ">" +:+ dq +:+ ";" +:+ nl)
             end;
      child_elements ← attr_of "child_elements" (ty_child_elements ety);
      children ← concat_m (fun c =>
                    ce ← elem_obj c;
                    many ← el_many_of ce;
                    if many : bool then
                      n1 ← checked (el_name ce);
                      n2 ← checked (el_name ce);
                      inner ← _gen_write_element fuel' c n2 (level + 1);
                      ret ("for(int " +:+ i +:+ "=0; " +:+ i +:+ "<" +:+ container +:+ ".num_" +:+
                             el_name ce +:+ "; " +:+ i +:+ "++){" +:+ nl +:+
                           tab +:+ "auto &" +:+ n1 +:+ " = " +:+ container +:+ "." +:+
                             el_name ce +:+ "_list[" +:+ i +:+ "];" +:+ nl +:+
                           indent inner 1 +:+
                           "}" +:+ nl)
                    else
                      let new_container := container +:+ "." +:+ el_name ce in
                      optional ← el_optional_of ce;
                      if optional : bool then
                        inner ← _gen_write_element fuel' c new_container (level + 1);
                        ret ("if(" +:+ container +:+ ".has_" +:+ el_name ce +:+ "){" +:+ nl +:+
                             indent inner 1 +:+
                             "}" +:+ nl)
                      else _gen_write_element fuel' c new_container (level + 1)) child_elements;
      value ← match has_simple_content ety with
              | Some c => _gen_write_simple fuel' c (el_name el +:+ ".value") ""
              | None => ret ""
              end;
      ret (open +:+ children +:+ value +:+
           "os << " +:+ dq +:+ "</" +:+ el_name el +:+ ">" +:+ dq +:+ ";" +:+ nl)
  end.

Definition gen_write_fn (fuel : nat) (t : eid) : M string :=
  el ← elem_obj t;
  body ← _gen_write_element fuel t (el_name el) 0;
  ret ("void write_root_element(std::ostream &os){" +:+ nl +:+
       tab +:+ "/* Print floating points with max double precision. */" +:+ nl +:+
       tab +:+ "os.precision(std::numeric_limits<double>::max_digits10);" +:+ nl +:+
       indent body 1 +:+
       "}" +:+ nl).

(** the last statement of the script that emits code:
    [print(gen_write_fn(elements[0]))] *)
Definition write_section (fuel : nat) : M string :=
  s ← get;
  match elements s with
  | [] => raise IndexError
  | e :: _ => gen_write_fn fuel e
  end.

(** *** Declarations, unions, tokens and arenas *)

Definition typedefn_from_union (t : tid) : M string :=
  o ← type_obj t;
  cpp ← attr_of "cpp_type" (ty_cpp_type o);
  member_types ← match ty_kind o with
                 | XsdUnion ms => ret ms
                 | _ => raise (AttributeError "member_types")
                 end;
  members ← concat_m (fun e =>
               c ← cpp_type_of e;
               ret (tab +:+ tab +:+ c +:+ " " +:+ to_union_member_type c +:+ ";" +:+ nl))
             member_types;
  ret ("struct " +:+ cpp +:+ " {" +:+ nl +:+
       tab +:+ "type_tag tag;" +:+ nl +:+
       tab +:+ "union {" +:+ nl +:+
       members +:+
       tab +:+ "};" +:+ nl +:+
       "};" +:+ nl).

(** [unions = list(dict.fromkeys(unions))] and
    [enums = list(dict.fromkeys(enums))]: the registry is rebound to
    the list of its first occurrences.  Each text that the script
    completes after a rebinding is modelled with the rebinding in
    front of its loop; doing it twice is doing it once. *)
Definition dedup_unions : M unit := modify (set_unions (fun l => dedup_stable l [])).
Definition dedup_enums : M unit := modify (set_enums (fun l => dedup_stable l [])).


(** [union_definitions]: the rebinding of [unions], then the loop over
    it *)
Definition union_definitions : M string :=
  dedup_unions;;
  s ← get;
  concat_m (fun u => d ← typedefn_from_union u; ret (d +:+ nl)) (unions s).

(** [element_definitions], the loop over [elements] *)
Definition element_definitions : M string :=
  s ← get;
  concat_m (fun e =>
    el ← elem_obj e;
    c ← el_cpp_type_of el;
    ret (c +:+ " " +:+ el_name el +:+ " = {};" +:+ nl)) (elements s).

Definition count_fn_declarations : M string :=
  s ← get;
  concat_m (fun t =>
    n ← name_of t;
    ret ("void count_" +:+ n +:+ "(const pugi::xml_node &root);" +:+ nl)) (types s).

Definition load_fn_declarations : M string :=
  s ← get;
  concat_m (fun t =>
    o ← type_obj t;
    c ← attr_of "cpp_type" (ty_cpp_type o);
    ret ("void load_" +:+ ty_name o +:+ "(const pugi::xml_node &root, " +:+ c +:+
         " *out);" +:+ nl)) (types s).

(** [sorted(arena_types, key=lambda x: x.name)] *)
Definition sorted_arena_types : M (list tid) :=
  s ← get;
  named ← map_m (fun t => n ← name_of t; ret (n, t)) (base.elements (arena_types s));
  ret (snd <$> stable_sort String.leb named).

Definition arena_declarations : M string :=
  sorted ← sorted_arena_types;
  concat_m (fun t =>
    o ← type_obj t;
    c ← attr_of "cpp_type" (ty_cpp_type o);
    ret ("int g_num_" +:+ ty_name o +:+ " = 0;" +:+ nl +:+
         c +:+ " *" +:+ ty_name o +:+ "_arena;" +:+ nl)) sorted.

(** [t.validators[0].enumeration] *)
Definition enumeration_of (o : XsdType) : M (list string) :=
  match ty_kind o with
  | XsdAtomicRestriction validators _ =>
      match validators with
      | [] => raise IndexError
      | Enumeration values :: _ => ret values
      | OtherFacet :: _ => raise (AttributeError "enumeration")
      end
  | _ => raise (AttributeError "validators")
  end.

Definition tokens_from_enum (t : tid) : M string :=
  o ← type_obj t;
  enumeration ← enumeration_of o;
  let enum_tokens := "UXSD_INVALID = 0" :: map to_token enumeration in
  let lookup_tokens :=
    (dq +:+ "UXSD_INVALID" +:+ dq) :: map (fun x => dq +:+ x +:+ dq) enumeration in
  cpp ← attr_of "cpp_type" (ty_cpp_type o);
  ret ("enum class " +:+ cpp +:+ " {" +:+ join ", " enum_tokens +:+ "};" +:+ nl +:+
       "const char *lookup_" +:+ ty_name o +:+ "[] = {" +:+ join ", " lookup_tokens +:+
         "};" +:+ nl).

(** [enum_tokens]: the rebinding of [enums], then the loop over it *)
Definition enum_tokens : M string :=
  dedup_enums;;
  s ← get;
  concat_m tokens_from_enum (enums s).

Definition tokens_from_complex_type (t : tid) : M string :=
  o ← type_obj t;
  child_elements ← attr_of "child_elements" (ty_child_elements o);
  out1 ← match child_elements with
          | _ :: _ =>
              names ← map_m (fun e => el ← elem_obj e; ret (el_name el)) child_elements;
              cpp ← attr_of "cpp_type" (ty_cpp_type o);
              ret ("enum class gtok_" +:+ cpp +:+ " {" +:+
                     join ", " (map to_token names) +:+ "};" +:+ nl +:+
                   "const char *gtok_lookup_" +:+ cpp +:+ "[] = {" +:+
                     join ", " (map (fun n => dq +:+ n +:+ dq) names) +:+ "};" +:+ nl)
          | [] => ret ""
          end;
  attributes ← ty_attributes o;
  out2 ← match attributes with
          | _ :: _ =>
              attribute_list ← attr_of "attribute_list" (ty_attribute_list o);
              cpp ← attr_of "cpp_type" (ty_cpp_type o);
              ret ("enum class atok_" +:+ cpp +:+ " {" +:+
                     join ", " (map (fun x => to_token (a_name x)) attribute_list) +:+
                     "};" +:+ nl +:+
                   "const char *atok_lookup_" +:+ cpp +:+ "[] = {" +:+
                     join ", " (map (fun x => dq +:+ a_name x +:+ dq) attribute_list) +:+
                     "};" +:+ nl)
          | [] => ret ""
          end;
  ret (out1 +:+ out2).

(** [complex_type_tokens], the loop over [types] *)
Definition complex_type_tokens : M string :=
  s ← get; concat_m tokens_from_complex_type (types s).

Definition gen_alloc_arenas : M string :=
  sorted ← sorted_arena_types;
  allocs ← concat_m (fun t =>
              o ← type_obj t;
              c ← attr_of "cpp_type" (ty_cpp_type o);
              ret (tab +:+ "if(!(" +:+ ty_name o +:+ "_arena = (" +:+ c +:+
                     " *)std::calloc(g_num_" +:+ ty_name o +:+ ", sizeof(" +:+ c +:+ "))))" +:+ nl +:+
                   tab +:+ tab +:+ "throw std::runtime_error(" +:+ dq +:+
                     "Couldn't get memory for <" +:+ ty_name o +:+ "> arena." +:+ dq +:+ ");" +:+ nl))
            sorted;
  sorted' ← sorted_arena_types;
  resets ← concat_m (fun t =>
              n ← name_of t;
              ret (tab +:+ "g_num_" +:+ n +:+ " = 0;" +:+ nl)) sorted';
  ret ("void alloc_arenas(void){" +:+ nl +:+ allocs +:+ resets +:+ "}" +:+ nl).

(** ** The script as a whole *)

Section Driver.

Variable dfa_from_group : State -> XsdGroup -> outcome DFA.
Variable set_iter : list string -> list string.

(** The module-level statements in the order the script runs them,
    for the sections embedded above; the value is the list of printed
    blocks in print order.  The sections left out (forward
    declarations, enum and complex-type lexers built by [triehash],
    count functions with their tables, arenas) call neither [checked]
    nor the writers. *)
Definition generator (fuel : nat) : M (list string) :=
  annotate dfa_from_group fuel;;
  sort_types fuel;;
  structs ← struct_definitions;
  tags ← type_tag_definition set_iter;
  loads ← load_fn_definitions;
  s ← get;
  init ← gen_init_fn;
  writer ← write_section fuel;
  ret ((if decide (simple_types s = ∅) then [] else [tags]) ++
       [structs; builtin_fn_declarations; loads; init; writer]).

End Driver.

(** ** Schemas used as concrete inputs *)

Module Fixtures.

(** an object as [xmlschema] hands it over, before annotation *)
Definition mk_type (n : string) (k : XsdKind) : XsdType :=
  {| ty_name := n; ty_kind := k; ty_cpp_type := None; ty_attribute_list := None;
     ty_model := None; ty_dfa := None; ty_child_elements := None |}.

Definition mk_elem (n : string) (o : occurs_t) (t : tid) : XsdElement :=
  {| el_name := n; el_occurs := o; el_type := t;
     el_cpp_type := None; el_many := None; el_optional := None |}.

Definition mk_attr (n use : string) (t : tid) : XsdAttribute :=
  {| a_name := n; a_use := use; a_default := None; a_type := t |}.

Definition init_state (th : list (tid * XsdType)) (eh : list (eid * XsdElement))
    (ts : list tid) (es : list eid) : State :=
  {| type_objs := list_to_map th; elem_objs := list_to_map eh;
     types := ts; elements := es;
     anonymous_complex_types := []; enums := []; unions := [];
     simple_types := ∅; arena_types := ∅; stderr := [] |}.

(** a stand-in for the [dfa] module: one state, accepting *)
Definition unit_dfa : State -> XsdGroup -> outcome DFA := fun _ _ =>
  Ret {| dfa_states := [0]; dfa_alphabet := []; dfa_start := 0;
         dfa_accepts := [0]; dfa_transitions := [[]] |}.

(** the state after the annotation loops *)
Definition annotated_unsorted (s : State) : State :=
  match annotate unit_dfa 10 s with
  | Ret (_, s') => s'
  | _ => s
  end.

(** the state the emitters start from: annotated, types sorted *)
Definition annotated (s : State) : State :=
  match (annotate unit_dfa 10;; sort_types 10) s with
  | Ret (_, s') => s'
  | _ => s
  end.

Definition once : occurs_t := (1, Some 1).
Definition seq_of (o : occurs_t) (l : list XsdParticle) : XsdGroup := Group o "sequence" l.
Definition empty_content : XsdContent := ContentGroup (Group once "sequence" []).

(** <complexType name="Foo"><attribute name="int" type="xs:int" use="required"/>
    </complexType>, root element foo : Foo *)
Definition keyword_attr_schema : State :=
  init_state
    [ (0, mk_type "Foo" (XsdComplexType [mk_attr "int" "required" 1] empty_content));
      (1, mk_type (xs +:+ "int") XsdAtomicBuiltin) ]
    [ (0, mk_elem "foo" once 0) ]
    [0] [0].

(** two root elements a : A and b : B, both empty complex types *)
Definition two_roots_schema : State :=
  init_state
    [ (0, mk_type "A" (XsdComplexType [] empty_content));
      (1, mk_type "B" (XsdComplexType [] empty_content)) ]
    [ (0, mk_elem "a" once 0); (1, mk_elem "b" once 1) ]
    [0; 1] [0; 1].

(** one root element a : A *)
Definition one_root_schema : State :=
  init_state
    [ (0, mk_type "A" (XsdComplexType [] empty_content)) ]
    [ (0, mk_elem "a" once 0) ]
    [0] [0].

(** complex type Foo with attribute u whose type is the union of
    xs:int and xs:float; root element foo : Foo *)
Definition union_attr_schema : State :=
  init_state
    [ (0, mk_type "Foo" (XsdComplexType [mk_attr "u" "required" 3] empty_content));
      (1, mk_type (xs +:+ "int") XsdAtomicBuiltin);
      (2, mk_type (xs +:+ "float") XsdAtomicBuiltin);
      (3, mk_type "u" (XsdUnion [1; 2])) ]
    [ (0, mk_elem "foo" once 0) ]
    [0] [0].





(** complex type Foo with attribute u whose type is the union of
    xs:int and the enumeration yn = {yes, no} *)
Definition union_enum_schema : State :=
  init_state
    [ (0, mk_type "Foo" (XsdComplexType [mk_attr "u" "required" 3] empty_content));
      (1, mk_type (xs +:+ "int") XsdAtomicBuiltin);
      (2, mk_type "yn" (XsdAtomicRestriction [Enumeration ["yes"; "no"]] "u"));
      (3, mk_type "u" (XsdUnion [1; 2])) ]
    [ (0, mk_elem "foo" once 0) ]
    [0] [0].

(** <complexType name="T"><sequence>
      <element name="x" type="T" minOccurs="0" maxOccurs="unbounded"/>
    </sequence></complexType> *)
Definition recursive_schema : State :=
  init_state
    [ (0, mk_type "T" (XsdComplexType [] (ContentGroup (seq_of once [PElement 0])))) ]
    [ (0, mk_elem "x" (0, None) 0) ]
    [0] [].

(** T has children x : X and u : U; U has child x2 : X; X has child y : Y *)
Definition shared_child_schema : State :=
  init_state
    [ (0, mk_type "T" (XsdComplexType [] (ContentGroup (seq_of once [PElement 0; PElement 1]))));
      (1, mk_type "U" (XsdComplexType [] (ContentGroup (seq_of once [PElement 2]))));
      (2, mk_type "X" (XsdComplexType [] (ContentGroup (seq_of once [PElement 3]))));
      (3, mk_type "Y" (XsdComplexType [] empty_content)) ]
    [ (0, mk_elem "x" once 2); (1, mk_elem "u" once 1);
      (2, mk_elem "x2" once 2); (3, mk_elem "y" once 3) ]
    [0; 1; 2; 3] [].

(** Foo has one child bar : Bar; a tree *)
Definition tree_schema : State :=
  init_state
    [ (0, mk_type "Foo" (XsdComplexType [] (ContentGroup (seq_of once [PElement 0]))));
      (1, mk_type "Bar" (XsdComplexType [] empty_content)) ]
    [ (0, mk_elem "bar" once 1) ]
    [0; 1] [].

(** <group name="g"><sequence><element name="x" type="T" minOccurs="0"/></sequence></group>
    <complexType name="T0"><group ref="g"/></complexType>
    <complexType name="T"><group ref="g" maxOccurs="unbounded"/></complexType>
    Both references hold the one group object g, hence the one element
    object x. *)
Definition group_g : XsdGroup := seq_of once [PElement 0].
Definition shared_group_schema : State :=
  init_state
    [ (0, mk_type "T0" (XsdComplexType [] (ContentGroup (seq_of once [PGroup group_g]))));
      (1, mk_type "T" (XsdComplexType [] (ContentGroup (seq_of (1, None) [PGroup group_g])))) ]
    [ (0, mk_elem "x" (0, Some 1) 1) ]
    [0; 1] [].

(** Foo has a required attribute a and an optional attribute b, both
    xs:int; root element foo : Foo *)
Definition two_attr_schema : State :=
  init_state
    [ (0, mk_type "Foo" (XsdComplexType [mk_attr "a" "required" 1; mk_attr "b" "optional" 1]
                           empty_content));
      (1, mk_type (xs +:+ "int") XsdAtomicBuiltin) ]
    [ (0, mk_elem "foo" once 0) ]
    [0] [0].

(** root element foo : Foo, and Foo has one child bar : Bar *)
Definition root_tree_schema : State :=
  init_state
    [ (0, mk_type "Foo" (XsdComplexType [] (ContentGroup (seq_of once [PElement 0]))));
      (1, mk_type "Bar" (XsdComplexType [] empty_content)) ]
    [ (0, mk_elem "bar" once 1); (1, mk_elem "foo" once 0) ]
    [0; 1] [1].

(** Foo has two attributes u and v of the one union type u = union of
    xs:int and xs:float *)
Definition shared_union_schema : State :=
  init_state
    [ (0, mk_type "Foo" (XsdComplexType [mk_attr "u" "required" 3; mk_attr "v" "required" 3]
                           empty_content));
      (1, mk_type (xs +:+ "int") XsdAtomicBuiltin);
      (2, mk_type (xs +:+ "float") XsdAtomicBuiltin);
      (3, mk_type "u" (XsdUnion [1; 2])) ]
    [ (0, mk_elem "foo" once 0) ]
    [0] [0].

End Fixtures.

(** ** Notions the properties are stated with *)

(** a computation that leaves the state as it found it *)
Definition read_only {A} (m : M A) : Prop :=
  ∀ s a s', m s = Ret (a, s') → s' = s.

(** the line [checked] prints for a reserved word *)
Definition keyword_warning (x : string) : string :=
  x +:+ " is a C++ keyword. Changing it to " +:+ x +:+ "_.".

(** how many warnings for [x] the diagnostic stream holds *)
Definition warnings_for (x : string) (s : State) : nat :=
  length (filter (fun l => l = keyword_warning x) (stderr s)).

(** [n] successive lookups of the same identifier *)
Fixpoint lookups (n : nat) (x : string) : M unit :=
  match n with
  | O => ret tt
  | S k => checked x;; lookups k x
  end.



(** an admissible iteration order of [set(l)]: the distinct members of
    [l], each once *)
Definition set_order_ok (f : list string -> list string) : Prop :=
  ∀ l, NoDup (f l) ∧ ∀ x, x ∈ f l ↔ x ∈ l.

(** [U] is the type of a child element of [T] *)
Definition child_type_of (s : State) (T U : tid) : Prop :=
  ∃ ys, child_types s T = Ret ys ∧ U ∈ ys.

(** in the emission order [types], every child type of an emitted type
    comes strictly before it *)
Definition children_first (s : State) : Prop :=
  ∀ T U j, types s !! j = Some T → child_type_of s T U →
    ∃ i, types s !! i = Some U ∧ (i < j)%nat.

(** sorted by key, ascending *)
Definition key_le {A} (a b : nat * A) : Prop := (fst a ≤ fst b)%nat.

(** The child-type graph below [x] is a tree: no type is reached twice.
    [tree s x h S] also gives its height [h] and its set of types [S]. *)
Inductive tree (s : State) : tid -> nat -> gset tid -> Prop :=
| tree_node x ys hs S :
    child_types s x = Ret ys →
    forest s ys hs S →
    x ∉ S →
    tree s x (max_list0 (0 :: hs) + 1) ({[x]} ∪ S)
with forest (s : State) : list tid -> list nat -> gset tid -> Prop :=
| forest_nil : forest s [] [] ∅
| forest_cons y h Sy ys hs S :
    tree s y h Sy →
    forest s ys hs S →
    Sy ## S →
    forest s (y :: ys) (h :: hs) (Sy ∪ S).

(** the element objects a model group holds, nested groups included *)
Definition particle_elements (on_group : XsdGroup -> list eid) (p : XsdParticle)
  : list eid :=
  match p with
  | PElement e => [e]
  | PGroup g => on_group g
  | PWildcard => []
  end.

Fixpoint group_elements (g : XsdGroup) : list eid :=
  match g with
  | Group _ _ members => flat_map (particle_elements group_elements) members
  end.

(** the element objects in the content model of a type object *)
Definition content_elements (o : XsdType) : list eid :=
  match ty_kind o with
  | XsdComplexType _ (ContentGroup g) => group_elements g
  | _ => []
  end.

(** the type object carries a [cpp_type] *)
Definition visited (s : State) (t : tid) : Prop :=
  ∃ o, type_objs s !! t = Some o ∧ is_Some (ty_cpp_type o).

(** the graph as the schema library hands it over: no object annotated,
    the arena set empty *)
Definition unannotated (s : State) : Prop :=
  (∀ t o, type_objs s !! t = Some o → ty_cpp_type o = None) ∧
  (∀ e el, elem_objs s !! e = Some el → el_cpp_type el = None ∧ el_many el = None) ∧
  arena_types s = ∅.

(** no element object is shared: it sits in the content model of at
    most one type, and a root element sits in none *)
Definition elements_owned (s : State) : Prop :=
  (∀ e T1 T2 o1 o2,
     type_objs s !! T1 = Some o1 → type_objs s !! T2 = Some o2 →
     e ∈ content_elements o1 → e ∈ content_elements o2 → T1 = T2) ∧
  (∀ e T o, e ∈ elements s → type_objs s !! T = Some o → e ∉ content_elements o).

(** the arena set is the set of types referred to by a [many] element *)
Definition arena_agrees (s : State) : Prop :=
  ∀ U, U ∈ arena_types s ↔
       ∃ e el, elem_objs s !! e = Some el ∧ el_type el = U ∧ el_many el = Some true.

(** annotation attaches attributes; classes and references stay *)
Definition same_graph (s0 s : State) : Prop :=
  (∀ t, ty_kind <$> (type_objs s !! t) = ty_kind <$> (type_objs s0 !! t)) ∧
  (∀ e, el_type <$> (elem_objs s !! e) = el_type <$> (elem_objs s0 !! e)).

Definition anno_inv (s : State) : Prop :=
  arena_agrees s ∧
  ∀ e el, elem_objs s !! e = Some el → el_cpp_type el = None → el_many el = None.

(** every type whose content model holds [e] is already visited *)
Definition protected (s0 s : State) (e : eid) : Prop :=
  ∀ T o, type_objs s0 !! T = Some o → e ∈ content_elements o → visited s T.

(** what a call of an annotator does to the state: the graph stays,
    visited types stay visited, the invariant holds afterwards, and the
    only element objects written are the [allowed] ones and ones that
    sit in a type not yet visited when the call started *)
Definition anno_step (s0 s s' : State) (allowed : eid -> Prop) : Prop :=
  same_graph s0 s' ∧
  (∀ t, visited s t → visited s' t) ∧
  anno_inv s' ∧
  (∀ e, elem_objs s' !! e = elem_objs s !! e ∨ allowed e ∨ ¬ protected s0 s e).

(** a step that writes to type objects and registries only *)
Definition types_only_step (s s' : State) : Prop :=
  elem_objs s' = elem_objs s ∧ arena_types s' = arena_types s ∧
  (∀ t, ty_kind <$> (type_objs s' !! t) = ty_kind <$> (type_objs s !! t)) ∧
  (∀ t, visited s t → visited s' t).

(** what the element annotator needs of the complex-type annotator *)
Definition complex_type_spec (s0 : State) (anno_ct : tid -> M unit) : Prop :=
  ∀ T s u s', same_graph s0 s → anno_inv s →
              anno_ct T s = Ret (u, s') → anno_step s0 s s' (fun _ => False).

(** what the group annotator needs of the element annotator *)
Definition element_spec (s0 : State) (anno_el : eid -> bool -> bool -> M unit) : Prop :=
  ∀ e many optional s u s',
    same_graph s0 s → anno_inv s → protected s0 s e →
    anno_el e many optional s = Ret (u, s') →
    anno_step s0 s s' (fun e' => e' = e).

(** The statements [_gen_load_union] emits, and how C++ runs them inside
    the [case] of the attribute switch. *)
Inductive union_stmt :=
| SetTag (container token : string)
| Parse (lhs rhs : string)
| BreakIfErrnoClear
| BreakIfValid (lhs enum_type : string)
| Throw (union_name : string).

Definition render_stmt (st : union_stmt) : string :=
  match st with
  | SetTag c tok => c +:+ ".tag = type_tag::" +:+ tok +:+ ";" +:+ nl
  | Parse lhs rhs => lhs +:+ " = " +:+ rhs +:+ ";" +:+ nl
  | BreakIfErrnoClear => "if(errno == 0)" +:+ nl +:+ tab +:+ "break;" +:+ nl
  | BreakIfValid lhs ty =>
      "if(" +:+ lhs +:+ " != " +:+ ty +:+ "::UXSD_INVALID)" +:+ nl +:+ "break;" +:+ nl
  | Throw n =>
      "throw std::runtime_error(" +:+ dq +:+ "Couldn't load a suitable value into union " +:+
      n +:+ "." +:+ dq +:+ ");" +:+ nl
  end.

Definition render_stmts (l : list union_stmt) : string :=
  foldr (fun st acc => render_stmt st +:+ acc) "" l.

(** a union member as the loader sees it: its tag token and whether it
    is a built-in (checked through errno) or an enumeration *)
Inductive member_kind := BuiltinMember | EnumMember.

Record member := {
  m_token : string;
  m_field : string;
  m_kind : member_kind;
  m_parse : string;
  m_cpp_type : string
}.

Definition member_stmts (container : string) (m : member) : list union_stmt :=
  [ SetTag container (m_token m);
    Parse (container +:+ "." +:+ m_field m) (m_parse m);
    match m_kind m with
    | BuiltinMember => BreakIfErrnoClear
    | EnumMember => BreakIfValid (container +:+ "." +:+ m_field m) (m_cpp_type m)
    end ].

Definition union_stmts (container union_name : string) (ms : list member)
  : list union_stmt :=
  concat (map (member_stmts container) ms) ++ [Throw union_name].

(** what running the statements ends in *)
Inductive load_result :=
| Accepted (tag : string)
| Thrown
| FellThrough.

(** [clean n] tells whether the error channel is clean when the [n]-th
    check of the sequence is reached: errno == 0 for a built-in member,
    a value other than UXSD_INVALID for an enumeration member. *)
Fixpoint exec_union (clean : nat -> bool) (n : nat) (tag : string)
    (l : list union_stmt) : load_result :=
  match l with
  | [] => FellThrough
  | SetTag _ tok :: r => exec_union clean n tok r
  | Parse _ _ :: r => exec_union clean n tag r
  | BreakIfErrnoClear :: r | BreakIfValid _ _ :: r =>
      if clean n then Accepted tag else exec_union clean (S n) tag r
  | Throw _ :: _ => Thrown
  end.

(** the first member whose check passes, counting from [n] *)
Fixpoint first_clean (clean : nat -> bool) (n : nat) (ms : list member) : option member :=
  match ms with
  | [] => None
  | m :: r => if clean n then Some m else first_clean clean (S n) r
  end.

(** the member record of a type object that can be loaded into a union *)
Definition member_of (input : string) (o : XsdType) : option member :=
  match ty_cpp_type o with
  | None => None
  | Some cpp =>
      match ty_kind o with
      | XsdAtomicBuiltin =>
          match assoc (ty_name o) atomic_builtin_load_formats with
          | Some (pre, post) =>
              Some {| m_token := to_token cpp; m_field := to_union_member_type cpp;
                      m_kind := BuiltinMember; m_parse := pre +:+ input +:+ post;
                      m_cpp_type := cpp |}
          | None => None
          end
      | XsdAtomicRestriction _ _ =>
          Some {| m_token := to_token cpp; m_field := to_union_member_type cpp;
                  m_kind := EnumMember;
                  m_parse := "lex_" +:+ ty_name o +:+ "(" +:+ input +:+ ", false)";
                  m_cpp_type := cpp |}
      | _ => None
      end
  end.









Section RunCount.

(** [table state tok] is [gstate_<type>[state][tok]], with [None] for
    -1; [lookup tok] is [gtok_lookup_<type>[tok]]; [tokens] are the
    tokens of the DOM children in document order.  The count functions
    of the children, called in the [switch], are taken to return. *)
Variable table : nat -> nat -> option nat.
Variable lookup : nat -> string.



End RunCount.

(** the function name of a line that starts a [void] function *)
Fixpoint take_until (c : ascii) (s : string) : string :=
  match s with
  | EmptyString => EmptyString
  | String d r => if Ascii.eqb d c then EmptyString else String d (take_until c r)
  end.

Definition declared_name (line : string) : option string :=
  if String.prefix "void " line
  then Some (take_until "("%char (String.substring 5 (String.length line - 5) line))
  else None.

(** the names declared in a block of text *)
Definition declared_names (text : string) : list string :=
  omap declared_name (split_lines text).

(** every character of a string passes a test *)
Fixpoint all_chars (p : ascii -> bool) (s : string) : bool :=
  match s with
  | EmptyString => true
  | String c r => p c && all_chars p r
  end.



(** the line is free of newlines *)
Definition no_newline (s : string) : bool :=
  all_chars (fun c => negb (Ascii.eqb c "010"%char)) s.

(** what [indent] does to one line *)
Definition indent_line (n : nat) (line : string) : string :=
  if String.eqb line "" then "" else repeat_str tab n +:+ line.

(** the sort key of [t] is [k] *)
Definition has_key (fuel : nat) (s : State) (k : nat) (t : tid) : bool :=
  match sort_key fuel s t with
  | Ret k' => (k' =? k)%nat
  | _ => false
  end.

(** the set [D] of types is closed under the child-type relation, and
    every member carries its child list *)
Definition closed_under_children (s : State) (D : gset tid) : Prop :=
  ∀ t, t ∈ D → ∃ ys, child_types s t = Ret ys ∧ ∀ y, y ∈ ys → y ∈ D.

(** what annotation leaves of an element object as the schema library
    made it *)
Definition el_decl (el : XsdElement) : string * occurs_t * tid :=
  (el_name el, el_occurs el, el_type el).

(** A step of the annotator only adds: every object keeps its class,
    an element its declaration; a [cpp_type] once attached stays; the
    registries grow at the end; [types], [elements] and the diagnostic
    stream are as before; an object that is not a complex type gets
    neither an [attribute_list] nor [child_elements]. *)
Definition grows (s s' : State) : Prop :=
  (∀ t, ty_kind <$> (type_objs s' !! t) = ty_kind <$> (type_objs s !! t)) ∧
  (∀ e, el_decl <$> (elem_objs s' !! e) = el_decl <$> (elem_objs s !! e)) ∧
  (∀ t, visited s t → visited s' t) ∧
  types s' = types s ∧ elements s' = elements s ∧ stderr s' = stderr s ∧
  anonymous_complex_types s `prefix_of` anonymous_complex_types s' ∧
  enums s `prefix_of` enums s' ∧
  unions s `prefix_of` unions s' ∧
  simple_types s ⊆ simple_types s' ∧
  arena_types s ⊆ arena_types s' ∧
  (∀ t o, type_objs s !! t = Some o → is_complex (ty_kind o) = false →
     ∃ o', type_objs s' !! t = Some o' ∧
           ty_attribute_list o' = ty_attribute_list o ∧
           ty_child_elements o' = ty_child_elements o).

(** the group holds an [xs:any] wildcard, nested groups included *)
Fixpoint has_wildcard (g : XsdGroup) : bool :=
  match g with
  | Group _ _ members =>
      existsb (fun p => match p with
                        | PWildcard => true
                        | PGroup g' => has_wildcard g'
                        | PElement _ => false
                        end) members
  end.

(** every run of [m] that returns takes the state along [R] *)
Definition steps (R : State -> State -> Prop) {A} (m : M A) : Prop :=
  ∀ s a s', m s = Ret (a, s') → R s s'.

(** a line [checked] prints *)
Definition is_keyword_warning (line : string) : Prop :=
  ∃ x, str_in x cpp_keywords = true ∧ line = keyword_warning x.

(** the step of a computation that prints keyword warnings and does
    nothing else *)
Definition warns (s s' : State) : Prop :=
  ∃ w, s' = set_stderr (fun l => l ++ w) s ∧ Forall is_keyword_warning w.

(** every element of [R] has, through its type, a child element that
    is in [R] again: from an element of [R] the element graph never
    runs out *)
Definition cyclic_elements (s : State) (R : eid -> Prop) : Prop :=
  ∀ e, R e →
    ∃ el ety ces c,
      elem_objs s !! e = Some el ∧ type_objs s !! el_type el = Some ety ∧
      ty_child_elements ety = Some ces ∧ c ∈ ces ∧ R c.

(** the schema library attaches neither [attribute_list] nor
    [child_elements]: on an object that is not a complex type they are
    absent when the script starts *)
Definition pristine_simple (s : State) : Prop :=
  ∀ t o, type_objs s !! t = Some o → is_complex (ty_kind o) = false →
    ty_attribute_list o = None ∧ ty_child_elements o = None.

(** [us] lists the members of the registry [reg], each once, in the
    order in which they were first registered: every initial stretch of
    [reg] has the members of an initial stretch of [us] *)
Definition first_registrations {A} (reg us : list A) : Prop :=
  NoDup us ∧ (∀ x, x ∈ us ↔ x ∈ reg) ∧
  ∀ k, ∃ n, ∀ x, x ∈ take n us ↔ x ∈ take k reg.



(** an element carries everything the annotator attaches, and its type
    has been visited *)
Definition element_done (s : State) (e : eid) : Prop :=
  ∃ el, elem_objs s !! e = Some el ∧ is_Some (el_cpp_type el) ∧
        is_Some (el_many el) ∧ is_Some (el_optional el) ∧ visited s (el_type el).

(** a complex type carries everything the annotator attaches: the
    types of its attributes and of its simple content have been
    visited, its child elements are done, and a [dfa] model has its
    automaton *)
Definition type_done (s : State) (t : tid) : Prop :=
  ∃ o attrs m ces,
    type_objs s !! t = Some o ∧ is_complex (ty_kind o) = true ∧
    is_Some (ty_cpp_type o) ∧
    ty_attribute_list o = Some attrs ∧ ty_model o = Some m ∧
    ty_child_elements o = Some ces ∧
    (∀ a, a ∈ attrs → visited s (a_type a)) ∧
    (∀ e, e ∈ ces → element_done s e) ∧
    (∀ c, has_simple_content o = Some c → visited s c) ∧
    (m = Some ModelDfa → is_Some (ty_dfa o)).

(** the state between calls of the annotators, [P] being the complex
    types whose annotation is under way: no [cpp_type] is empty, an
    element with a [cpp_type] is done, and so is a visited complex type
    outside [P]; only a visited type has [child_elements] *)
Definition anno_ok (P : gset tid) (s : State) : Prop :=
  (∀ t o c, type_objs s !! t = Some o → ty_cpp_type o = Some c → c ≠ "") ∧
  (∀ e el, elem_objs s !! e = Some el → is_Some (el_cpp_type el) → element_done s e) ∧
  (∀ t o, type_objs s !! t = Some o → is_complex (ty_kind o) = true →
          is_Some (ty_cpp_type o) → t ∉ P → type_done s t) ∧
  (∀ t o, type_objs s !! t = Some o → is_Some (ty_child_elements o) →
          is_Some (ty_cpp_type o)).

(** what is attached stays: objects keep their class and what they
    refer to, an attribute that is set stays set, and a visited type
    other than [x] keeps its lists, its model and its automaton *)
Definition kept (x : option tid) (s s' : State) : Prop :=
  (∀ t o, type_objs s !! t = Some o →
     ∃ o', type_objs s' !! t = Some o' ∧ ty_kind o' = ty_kind o ∧
           (is_Some (ty_cpp_type o) → is_Some (ty_cpp_type o')) ∧
           (x ≠ Some t → is_Some (ty_cpp_type o) →
              ty_attribute_list o' = ty_attribute_list o ∧ ty_model o' = ty_model o ∧
              ty_dfa o' = ty_dfa o ∧ ty_child_elements o' = ty_child_elements o)) ∧
  (∀ e el, elem_objs s !! e = Some el →
     ∃ el', elem_objs s' !! e = Some el' ∧ el_type el' = el_type el ∧
            (is_Some (el_cpp_type el) → is_Some (el_cpp_type el')) ∧
            (is_Some (el_many el) → is_Some (el_many el')) ∧
            (is_Some (el_optional el) → is_Some (el_optional el'))).

(** the graph as the schema library hands it over: the script has
    attached neither a [cpp_type] nor [child_elements] to any object *)
Definition untouched (s : State) : Prop :=
  (∀ t o, type_objs s !! t = Some o →
          ty_cpp_type o = None ∧ ty_child_elements o = None) ∧
  (∀ e el, elem_objs s !! e = Some el → el_cpp_type el = None).

(** [m] returns from [s], having printed keyword warnings at most *)
Definition returns {A} (m : M A) (s : State) : Prop :=
  ∃ a s', m s = Ret (a, s') ∧ warns s s'.

(** a built-in type that carries a [cpp_type] carries the one the
    table [atomic_builtins] gives for its name *)
Definition builtins_known (s : State) : Prop :=
  ∀ t o c, type_objs s !! t = Some o → ty_kind o = XsdAtomicBuiltin →
    ty_cpp_type o = Some c → assoc (ty_name o) atomic_builtins = Some c.

(** the member types [_gen_load_union] knows: built-ins and
    restrictions *)
Definition loadable_member (k : XsdKind) : bool :=
  match k with
  | XsdAtomicBuiltin | XsdAtomicRestriction _ _ => true
  | _ => false
  end.

(** * Properties *)

(** ** Reasoning about the monad *)

Lemma bind_Ret_inv {A B} (m : M A) (k : A -> M B) s b s' :
  (m ≫= k) s = Ret (b, s') →
  ∃ a s1, m s = Ret (a, s1) ∧ k a s1 = Ret (b, s').
Proof.
  unfold mbind, M_bind. destruct (m s) as [[a s1]| |]; try discriminate.
  intros H. exists a, s1. split; [reflexivity | exact H].
Qed.

Lemma bind_Ret {A B} (m : M A) (k : A -> M B) s a s1 :
  m s = Ret (a, s1) → (m ≫= k) s = k a s1.
Proof. intros H. unfold mbind, M_bind. rewrite H. reflexivity. Qed.

Lemma bind_OutOfFuel {A B} (m : M A) (k : A -> M B) s :
  m s = OutOfFuel → (m ≫= k) s = OutOfFuel.
Proof. intros H. unfold mbind, M_bind. rewrite H. reflexivity. Qed.

Lemma ret_Ret_inv {A} (a b : A) s s' : ret a s = Ret (b, s') → a = b ∧ s = s'.
Proof. unfold ret, mret, M_ret. intros H. inversion H. split; reflexivity. Qed.

Lemma mret_Ret_inv {A} (a b : A) s s' : mret (M := M) a s = Ret (b, s') → a = b ∧ s = s'.
Proof. unfold mret, M_ret. intros H. inversion H. split; reflexivity. Qed.

Lemma get_Ret_inv s a s' : get s = Ret (a, s') → a = s ∧ s' = s.
Proof. unfold get. intros H. inversion H. split; reflexivity. Qed.

Lemma attr_of_Ret_inv {A} n (o : option A) s a s' :
  attr_of n o s = Ret (a, s') → o = Some a ∧ s' = s.
Proof.
  destruct o as [x|]; simpl; [|discriminate].
  intros H. apply ret_Ret_inv in H as [-> ->]. split; reflexivity.
Qed.

Lemma type_obj_Ret_inv t s o s' :
  type_obj t s = Ret (o, s') → type_objs s !! t = Some o ∧ s' = s.
Proof.
  unfold type_obj. intros H. apply bind_Ret_inv in H as (a & s1 & Hg & H).
  apply get_Ret_inv in Hg as [-> ->].
  destruct (type_objs s !! t) as [x|]; [|discriminate].
  apply ret_Ret_inv in H as [-> ->]. split; reflexivity.
Qed.

Lemma elem_obj_Ret_inv e s o s' :
  elem_obj e s = Ret (o, s') → elem_objs s !! e = Some o ∧ s' = s.
Proof.
  unfold elem_obj. intros H. apply bind_Ret_inv in H as (a & s1 & Hg & H).
  apply get_Ret_inv in Hg as [-> ->].
  destruct (elem_objs s !! e) as [x|]; [|discriminate].
  apply ret_Ret_inv in H as [-> ->]. split; reflexivity.
Qed.

(** ** The keyword guard *)

Lemma checked_plain x s :
  str_in x cpp_keywords = false → checked x s = Ret (x, s).
Proof. intros H. unfold checked. rewrite H. reflexivity. Qed.

Lemma checked_keyword x s :
  str_in x cpp_keywords = true →
  checked x s = Ret (x +:+ "_", set_stderr (fun l => l ++ [keyword_warning x]) s).
Proof. intros H. unfold checked. rewrite H. reflexivity. Qed.

Lemma warnings_for_snoc x s :
  warnings_for x (set_stderr (fun l => l ++ [keyword_warning x]) s) = S (warnings_for x s).
Proof.
  unfold warnings_for, set_stderr; cbn [stderr].
  rewrite filter_app, length_app, filter_cons_True by reflexivity.
  rewrite filter_nil. simpl. lia.
Qed.

Lemma lookups_keyword n x s :
  str_in x cpp_keywords = true →
  ∃ s', lookups n x s = Ret (tt, s') ∧ warnings_for x s' = n + warnings_for x s.
Proof.
  intros Hk. revert s. induction n as [|n IH]; intros s.
  - exists s. split; reflexivity.
  - simpl. erewrite bind_Ret by (apply checked_keyword; exact Hk).
    destruct (IH (set_stderr (fun l => l ++ [keyword_warning x]) s)) as (s' & Hr & Hw).
    exists s'. split; [exact Hr|]. rewrite Hw, warnings_for_snoc. lia.
Qed.

Lemma lookups_plain n x s :
  str_in x cpp_keywords = false → lookups n x s = Ret (tt, s).
Proof.
  intros Hk. induction n as [|n IH]; [reflexivity|].
  simpl. erewrite bind_Ret by (apply checked_plain; exact Hk). exact IH.
Qed.

(** C7, as the script behaves: an identifier that is not a reserved
    word comes back unchanged and nothing is printed; a reserved word
    comes back with [_] appended and every single lookup prints one
    warning, so [n] lookups of it during a run leave [n] warnings on the
    diagnostic stream. *)
Theorem checked_warns_on_every_lookup (x : string) (s : State) (n : nat) :
  checked x s =
    (if str_in x cpp_keywords
     then Ret (x +:+ "_", set_stderr (fun l => l ++ [keyword_warning x]) s)
     else Ret (x, s)) ∧
  ∃ s', lookups n x s = Ret (tt, s') ∧
        warnings_for x s' = (if str_in x cpp_keywords then n else 0) + warnings_for x s.
Proof.
  destruct (str_in x cpp_keywords) eqn:Hk.
  - split; [apply checked_keyword; exact Hk | apply lookups_keyword; exact Hk].
  - split; [apply checked_plain; exact Hk|].
    exists s. split; [apply lookups_plain; exact Hk | reflexivity].
Qed.

(** C7 as stated fails: with one attribute named [int], the struct
    emitter and the load emitter each look the name up, and the run
    leaves two warnings for it, not one. *)
Lemma checked_single_warning_counterexample :
  ∃ out s',
    generator Fixtures.unit_dfa remove_dups 10 Fixtures.keyword_attr_schema = Ret (out, s') ∧
    warnings_for "int" s' = 2 ∧
    warnings_for "int" s' ≠ 1.
Proof.
  eexists _, _. split; [vm_compute; reflexivity|].
  split; [vm_compute; reflexivity | vm_compute; discriminate].
Qed.

(** ** The root loader and its declaration *)

Lemma gen_init_fn_header s out s' :
  gen_init_fn s = Ret (out, s') →
  ∃ rest, out = "void get_root_element(const char *filename){" +:+ nl +:+ rest.
Proof.
  unfold gen_init_fn. intros H.
  apply bind_Ret_inv in H as (s0 & s1 & Hg & H). apply get_Ret_inv in Hg as [-> ->].
  apply bind_Ret_inv in H as (branches & s2 & _ & H).
  apply ret_Ret_inv in H as [<- _]. eexists. reflexivity.
Qed.

(** C10: the helper declarations printed for every schema contain the
    line [void get_root_elements(const char *filename);], the root
    loader that is defined is called [get_root_element], and that name
    is not among the declared ones. *)
Theorem root_loader_declared_under_other_name (s : State) (out : string) (s' : State) :
  gen_init_fn s = Ret (out, s') →
  "void get_root_elements(const char *filename);" ∈ split_lines builtin_fn_declarations ∧
  declared_names builtin_fn_declarations =
    ["dfa_error"; "all_error"; "attr_error"; "alloc_arenas"; "get_root_elements"] ∧
  (∃ rest, out = "void get_root_element(const char *filename){" +:+ nl +:+ rest) ∧
  declared_name (hd "" (split_lines out)) = Some "get_root_element" ∧
  "get_root_element" ∉ declared_names builtin_fn_declarations.
Proof.
  intros H. destruct (gen_init_fn_header _ _ _ H) as [rest ->].
  split; [vm_compute; repeat constructor|].
  split; [vm_compute; reflexivity|].
  split; [eexists; reflexivity|].
  split; [vm_compute; reflexivity|].
  apply (proj1 (bool_decide_eq_false _)). vm_compute. reflexivity.
Qed.

Lemma root_loader_declared_under_other_name_witness :
  ∃ out s', gen_init_fn (Fixtures.annotated Fixtures.two_roots_schema) = Ret (out, s') ∧
    "get_root_element" ∉ declared_names builtin_fn_declarations.
Proof.
  eexists _, _. split; [vm_compute; reflexivity|].
  eapply (root_loader_declared_under_other_name
            (Fixtures.annotated Fixtures.two_roots_schema)).
  vm_compute. reflexivity.
Defined.

(** ** The write function *)





(** ** Writing a union value *)

Lemma type_obj_Ret t s o :
  type_objs s !! t = Some o → type_obj t s = Ret (o, s).
Proof. intros H. unfold type_obj, mbind, M_bind, get. rewrite H. reflexivity. Qed.

Lemma elem_obj_Ret e s o :
  elem_objs s !! e = Some o → elem_obj e s = Ret (o, s).
Proof. intros H. unfold elem_obj, mbind, M_bind, get. rewrite H. reflexivity. Qed.

Lemma cpp_type_of_Ret t s o c :
  type_objs s !! t = Some o → ty_cpp_type o = Some c → cpp_type_of t s = Ret (c, s).
Proof.
  intros H Hc. unfold cpp_type_of. erewrite bind_Ret by (apply type_obj_Ret; exact H).
  rewrite Hc. reflexivity.
Qed.

(** C5 at work in the script: the union branch of [_gen_write_simple]
    calls itself on the union it was given instead of on the member, so
    for a union with at least one (annotated) member no amount of fuel
    lets the call return: the Python call recurses until the
    interpreter gives up, and no writer code comes out. *)
Theorem gen_write_simple_union_diverges (s : State) (t m : tid) (ms : list tid)
    (o mo : XsdType) (c : string) :
  type_objs s !! t = Some o →
  ty_kind o = XsdUnion (m :: ms) →
  type_objs s !! m = Some mo →
  ty_cpp_type mo = Some c →
  ∀ fuel container attr_name,
    _gen_write_simple fuel t container attr_name s = OutOfFuel.
Proof.
  intros Ht Hk Hm Hc fuel. induction fuel as [|fuel IH]; intros container attr_name.
  - reflexivity.
  - simpl. erewrite bind_Ret by (apply type_obj_Ret; exact Ht).
    rewrite Hk. cbn [concat_m].
    apply bind_OutOfFuel.
    erewrite bind_Ret by (eapply cpp_type_of_Ret; eassumption).
    apply bind_OutOfFuel, IH.
Qed.

Lemma gen_write_simple_union_diverges_witness :
  _gen_write_simple 1000 3 "foo.u" "u"
    (Fixtures.annotated Fixtures.union_attr_schema) = OutOfFuel.
Proof.
  eapply (gen_write_simple_union_diverges
            (Fixtures.annotated Fixtures.union_attr_schema) 3 1 [2]).
  - vm_compute. reflexivity.
  - reflexivity.
  - vm_compute. reflexivity.
  - reflexivity.
Defined.

(** ** The type-tag enum *)

Lemma remove_dups_order_ok : set_order_ok remove_dups.
Proof.
  intros l. split; [apply NoDup_remove_dups | intros x; apply elem_of_remove_dups].
Qed.

Lemma reverse_remove_dups_order_ok : set_order_ok (fun l => reverse (remove_dups l)).
Proof.
  intros l. split.
  - rewrite reverse_Permutation. apply NoDup_remove_dups.
  - intros x. rewrite elem_of_reverse. apply elem_of_remove_dups.
Qed.

(** C2 does not hold of the script: the members of the type-tag enum
    are joined in the iteration order of a Python set of strings.  For
    the union of xs:int and xs:float, two admissible orders of that set
    give two different texts. *)
Theorem type_tag_order_varies :
  let s := Fixtures.annotated Fixtures.union_attr_schema in
  set_order_ok remove_dups ∧
  set_order_ok (fun l => reverse (remove_dups l)) ∧
  type_tag_definition remove_dups s =
    Ret ("enum class type_tag {FLOAT, INT};" +:+ nl, s) ∧
  type_tag_definition (fun l => reverse (remove_dups l)) s =
    Ret ("enum class type_tag {INT, FLOAT};" +:+ nl, s) ∧
  type_tag_definition remove_dups s ≠
    type_tag_definition (fun l => reverse (remove_dups l)) s.
Proof.
  intros s.
  split; [apply remove_dups_order_ok|].
  split; [apply reverse_remove_dups_order_ok|].
  assert (H1 : type_tag_definition remove_dups s =
               Ret ("enum class type_tag {FLOAT, INT};" +:+ nl, s))
    by (vm_compute; reflexivity).
  assert (H2 : type_tag_definition (fun l => reverse (remove_dups l)) s =
               Ret ("enum class type_tag {INT, FLOAT};" +:+ nl, s))
    by (vm_compute; reflexivity).
  split; [exact H1|]. split; [exact H2|].
  rewrite H1, H2. intros E. inversion E.
Qed.

(** ** The mask of the [all] check *)

Lemma str_app_cons (c : ascii) (x y : string) : String c x +:+ y = String c (x +:+ y).
Proof. reflexivity. Qed.

Lemma str_app_nil_r (x : string) : x +:+ "" = x.
Proof.
  induction x as [|c x IH]; [reflexivity|]. rewrite str_app_cons, IH. reflexivity.
Qed.

Lemma str_app_assoc (x y z : string) : (x +:+ y) +:+ z = x +:+ y +:+ z.
Proof.
  induction x as [|c x IH]; [reflexivity|]. rewrite !str_app_cons, IH. reflexivity.
Qed.

Lemma join_empty_app (l1 l2 : list string) :
  join "" (l1 ++ l2) = join "" l1 +:+ join "" l2.
Proof.
  unfold join. induction l1 as [|x l1 IH]; [reflexivity|].
  destruct l1 as [|y l1].
  - simpl. destruct l2 as [|z l2]; simpl.
    + symmetry. apply str_app_nil_r.
    + reflexivity.
  - change (String.concat "" ((x :: y :: l1) ++ l2))
      with (x +:+ "" +:+ String.concat "" ((y :: l1) ++ l2)).
    rewrite IH. simpl. rewrite str_app_assoc. reflexivity.
Qed.





Lemma read_only_ret {A} (a : A) : read_only (ret a).
Proof. intros s b s' H. apply ret_Ret_inv in H as [_ ->]. reflexivity. Qed.

Lemma read_only_bind {A B} (m : M A) (k : A -> M B) :
  read_only m → (∀ a, read_only (k a)) → read_only (m ≫= k).
Proof.
  intros Hm Hk s b s' H. apply bind_Ret_inv in H as (a & s1 & H1 & H2).
  apply Hm in H1 as ->. apply Hk in H2. exact H2.
Qed.

Lemma read_only_type_obj t : read_only (type_obj t).
Proof. intros s o s' H. apply type_obj_Ret_inv in H as [_ ->]. reflexivity. Qed.

Lemma read_only_elem_obj e : read_only (elem_obj e).
Proof. intros s o s' H. apply elem_obj_Ret_inv in H as [_ ->]. reflexivity. Qed.

Lemma read_only_attr_of {A} n (o : option A) : read_only (attr_of n o).
Proof. intros s a s' H. apply attr_of_Ret_inv in H as [_ ->]. reflexivity. Qed.

Lemma read_only_raise {A} e : read_only (@raise A e).
Proof. intros s a s' H. discriminate H. Qed.

Lemma read_only_concat_m {A} (f : A -> M string) (l : list A) :
  (∀ x, read_only (f x)) → read_only (concat_m f l).
Proof.
  intros Hf. induction l as [|x l IH]; simpl.
  - apply read_only_ret.
  - apply read_only_bind; [apply Hf|]. intros y.
    apply read_only_bind; [exact IH|]. intros ys. apply read_only_ret.
Qed.

Lemma read_only_map_m {A B} (f : A -> M B) (l : list A) :
  (∀ x, read_only (f x)) → read_only (map_m f l).
Proof.
  intros Hf. induction l as [|x l IH]; simpl.
  - apply read_only_ret.
  - apply read_only_bind; [apply Hf|]. intros y.
    apply read_only_bind; [exact IH|]. intros ys. apply read_only_ret.
Qed.

Create HintDb read_only.
#[local] Hint Resolve read_only_ret read_only_type_obj read_only_elem_obj
  read_only_attr_of read_only_raise : read_only.

Ltac read_only_tac :=
  repeat first
    [ solve [auto with read_only]
    | apply read_only_concat_m; intros ?
    | apply read_only_map_m; intros ?
    | apply read_only_bind; [|intros ?]
    | match goal with
      | |- read_only (if ?b then _ else _) => destruct b
      | |- read_only (match ?x with _ => _ end) => destruct x
      end ].




(** ** The end-of-input check of a [dfa] type *)




(** ** Loading a union *)

Lemma render_stmts_app l1 l2 :
  render_stmts (l1 ++ l2) = render_stmts l1 +:+ render_stmts l2.
Proof.
  induction l1 as [|st l1 IH]; [reflexivity|].
  simpl. rewrite IH, str_app_assoc. reflexivity.
Qed.

Lemma load_format_Ret_inv name input s f s' :
  load_format name input s = Ret (f, s') →
  ∃ pre post, assoc name atomic_builtin_load_formats = Some (pre, post) ∧
              f = pre +:+ input +:+ post ∧ s' = s.
Proof.
  unfold load_format.
  destruct (assoc name atomic_builtin_load_formats) as [[pre post]|]; [|discriminate].
  intros H. apply ret_Ret_inv in H as [<- ->]. exists pre, post. repeat split.
Qed.

(** one turn of the loop emits the three statements of its member *)
Lemma gen_load_union_member_inv container input m s body s' :
  _gen_load_union_member container input m s = Ret (body, s') →
  s' = s ∧
  ∃ mo mem, type_objs s !! m = Some mo ∧ member_of input mo = Some mem ∧
            body = render_stmts (member_stmts container mem).
Proof.
  unfold _gen_load_union_member. intros H.
  apply bind_Ret_inv in H as (mo & s1 & Ho & H). apply type_obj_Ret_inv in Ho as [Ho ->].
  apply bind_Ret_inv in H as (mcpp & s1 & Hc & H). apply attr_of_Ret_inv in Hc as [Hc ->].
  destruct (ty_kind mo) eqn:Hk; try discriminate H.
  - apply bind_Ret_inv in H as (f & s1 & Hf & H).
    apply load_format_Ret_inv in Hf as (pre & post & Hf & -> & ->).
    apply ret_Ret_inv in H as [<- <-]. split; [reflexivity|].
    exists mo. unfold member_of. rewrite Hc, Hk, Hf.
    eexists. split; [exact Ho|]. split; [reflexivity|].
    unfold member_stmts, render_stmts; simpl.
    rewrite !str_app_assoc, !str_app_nil_r. reflexivity.
  - apply ret_Ret_inv in H as [<- <-]. split; [reflexivity|].
    exists mo. unfold member_of. rewrite Hc, Hk.
    eexists. split; [exact Ho|]. split; [reflexivity|].
    unfold member_stmts, render_stmts; simpl.
    rewrite !str_app_assoc, !str_app_nil_r. reflexivity.
Qed.

Lemma gen_load_union_members_inv container input member_types s body s' :
  concat_m (_gen_load_union_member container input) member_types s = Ret (body, s') →
  s' = s ∧
  ∃ ms, Forall2 (fun m mem => ∃ mo, type_objs s !! m = Some mo ∧
                                    member_of input mo = Some mem) member_types ms ∧
        body = render_stmts (concat (map (member_stmts container) ms)).
Proof.
  revert body s'. induction member_types as [|m l IH]; intros body s' H; simpl in H.
  - apply ret_Ret_inv in H as [<- <-]. split; [reflexivity|].
    exists []. split; [constructor | reflexivity].
  - apply bind_Ret_inv in H as (b1 & s1 & H1 & H).
    apply bind_Ret_inv in H as (b2 & s2 & H2 & H).
    apply ret_Ret_inv in H as [<- <-].
    apply gen_load_union_member_inv in H1 as (-> & mo & mem & Ho & Hm & ->).
    apply IH in H2 as (-> & ms & HF & ->). split; [reflexivity|].
    exists (mem :: ms). split.
    + constructor; [exists mo; split; assumption | exact HF].
    + change (concat (map (member_stmts container) (mem :: ms)))
        with (member_stmts container mem ++ concat (map (member_stmts container) ms)).
      rewrite render_stmts_app. reflexivity.
Qed.

(** running the emitted statements: the first member whose check passes
    is accepted with its tag set; if no check passes the throw is
    reached *)
Lemma exec_union_first_clean clean n tag container union_name ms :
  exec_union clean n tag (union_stmts container union_name ms) =
  match first_clean clean n ms with
  | Some m => Accepted (m_token m)
  | None => Thrown
  end.
Proof.
  unfold union_stmts. revert n tag. induction ms as [|m ms IH]; intros n tag.
  - reflexivity.
  - simpl. destruct (m_kind m); simpl; destruct (clean n); try reflexivity; apply IH.
Qed.

(** C6: the loader emitted for a union is, member by member in
    declaration order, "set the tag, parse into the member's variant,
    break if the error channel is clean" (errno == 0 for a built-in,
    a value other than UXSD_INVALID for an enumeration), followed by a
    throw; run in its [case], it accepts the first member whose check
    passes and throws when none does. *)
Theorem load_union_accepts_first_clean_member (t : tid) (container input : string)
    (s : State) (out : string) (s' : State) :
  _gen_load_union t container input s = Ret (out, s') →
  ∃ o member_types ms,
    type_objs s !! t = Some o ∧
    ty_kind o = XsdUnion member_types ∧
    Forall2 (fun m mem => ∃ mo, type_objs s !! m = Some mo ∧
                                member_of input mo = Some mem) member_types ms ∧
    out = render_stmts (union_stmts container (ty_name o) ms) ∧
    ∀ clean tag0,
      exec_union clean 0 tag0 (union_stmts container (ty_name o) ms) =
      match first_clean clean 0 ms with
      | Some m => Accepted (m_token m)
      | None => Thrown
      end.
Proof.
  unfold _gen_load_union. intros H.
  apply bind_Ret_inv in H as (o & s1 & Ho & H). apply type_obj_Ret_inv in Ho as [Ho ->].
  apply bind_Ret_inv in H as (member_types & s1 & Hk & H).
  destruct (ty_kind o) eqn:Hkind; try discriminate Hk.
  apply ret_Ret_inv in Hk as [-> ->].
  apply bind_Ret_inv in H as (body & s2 & Hb & H).
  apply gen_load_union_members_inv in Hb as (-> & ms & HF & ->).
  apply ret_Ret_inv in H as [<- _].
  exists o, member_types, ms.
  split; [exact Ho|]. split; [exact Hkind|]. split; [exact HF|]. split.
  - unfold union_stmts. rewrite render_stmts_app. simpl.
    rewrite !str_app_assoc, !str_app_nil_r. reflexivity.
  - intros clean tag0. apply exec_union_first_clean.
Qed.

Lemma load_union_accepts_first_clean_member_witness :
  ∃ out s',
    _gen_load_union 3 "out->u" "attr.value()"
      (Fixtures.annotated Fixtures.union_enum_schema) = Ret (out, s') ∧
    ∃ o member_types ms,
      type_objs (Fixtures.annotated Fixtures.union_enum_schema) !! 3 = Some o ∧
      ty_kind o = XsdUnion member_types ∧
      Forall2 (fun m mem => ∃ mo,
                 type_objs (Fixtures.annotated Fixtures.union_enum_schema) !! m = Some mo ∧
                 member_of "attr.value()" mo = Some mem) member_types ms ∧
      out = render_stmts (union_stmts "out->u" (ty_name o) ms) ∧
      ∀ clean tag0,
        exec_union clean 0 tag0 (union_stmts "out->u" (ty_name o) ms) =
        match first_clean clean 0 ms with
        | Some m => Accepted (m_token m)
        | None => Thrown
        end.
Proof.
  eexists _, _. split; [vm_compute; reflexivity|].
  eapply (load_union_accepts_first_clean_member 3 "out->u" "attr.value()").
  vm_compute. reflexivity.
Defined.

(** the union of xs:int and the enumeration yn: when the integer parse
    leaves errno set and the enumeration lexer succeeds the enumeration
    is taken, and when both fail the loader throws *)
Example load_union_int_or_enum :
  let int_m := {| m_token := "INT"; m_field := "as_int"; m_kind := BuiltinMember;
                  m_parse := "std::strtol(attr.value(), NULL, 10)"; m_cpp_type := "int" |} in
  let yn_m := {| m_token := "ENUM_YN"; m_field := "as_enum_yn"; m_kind := EnumMember;
                 m_parse := "lex_yn(attr.value(), false)"; m_cpp_type := "enum_yn" |} in
  _gen_load_union 3 "out->u" "attr.value()" (Fixtures.annotated Fixtures.union_enum_schema)
    = Ret (render_stmts (union_stmts "out->u" "u" [int_m; yn_m]),
           Fixtures.annotated Fixtures.union_enum_schema) ∧
  exec_union (fun n => (n =? 1)%nat) 0 "" (union_stmts "out->u" "u" [int_m; yn_m])
    = Accepted "ENUM_YN" ∧
  exec_union (fun n => true) 0 "" (union_stmts "out->u" "u" [int_m; yn_m])
    = Accepted "INT" ∧
  exec_union (fun n => false) 0 "" (union_stmts "out->u" "u" [int_m; yn_m]) = Thrown.
Proof. vm_compute. repeat split. Qed.

(** ** The height sort *)

Lemma elem_of_insert_by_key {A} (kx : nat * A) l x :
  x ∈ insert_by_key Nat.leb kx l ↔ x = kx ∨ x ∈ l.
Proof.
  induction l as [|ky l IH]; simpl.
  - rewrite list_elem_of_singleton. split; [auto|]. intros [H|H]; [exact H | inversion H].
  - destruct (fst kx <=? fst ky)%nat.
    + rewrite elem_of_cons. reflexivity.
    + rewrite !elem_of_cons, IH. tauto.
Qed.

Lemma insert_by_key_sorted {A} (kx : nat * A) l :
  StronglySorted key_le l → StronglySorted key_le (insert_by_key Nat.leb kx l).
Proof.
  induction 1 as [|ky l Hl IH Hall]; simpl.
  - repeat constructor.
  - destruct (fst kx <=? fst ky)%nat eqn:E.
    + apply Nat.leb_le in E. constructor; [constructor; assumption|].
      constructor; [exact E|].
      eapply Forall_impl; [exact Hall|]. unfold key_le. intros; lia.
    + apply Nat.leb_gt in E. constructor; [exact IH|].
      apply Forall_forall. intros x Hx. apply elem_of_insert_by_key in Hx as [->|Hx].
      * unfold key_le. lia.
      * eapply Forall_forall in Hall; eassumption.
Qed.

Lemma stable_sort_sorted {A} (l : list (nat * A)) :
  StronglySorted key_le (stable_sort Nat.leb l).
Proof.
  induction l as [|x l IH]; simpl; [constructor|]. apply insert_by_key_sorted, IH.
Qed.

Lemma elem_of_stable_sort {A} (l : list (nat * A)) x :
  x ∈ stable_sort Nat.leb l ↔ x ∈ l.
Proof.
  induction l as [|y l IH]; simpl; [reflexivity|].
  rewrite elem_of_insert_by_key, elem_of_cons, IH. reflexivity.
Qed.

Lemma StronglySorted_lookup_lt {A} (R : relation A) l i j a b :
  StronglySorted R l → (i < j)%nat → l !! i = Some a → l !! j = Some b → R a b.
Proof.
  intros Hs. revert i j. induction Hs as [|x l Hl IH Hall]; intros i j Hij Ha Hb.
  - discriminate.
  - destruct j as [|j]; [lia|]. simpl in Hb. destruct i as [|i].
    + simpl in Ha. inversion Ha; subst.
      eapply Forall_forall in Hall; [exact Hall|]. eapply list_elem_of_lookup_2, Hb.
    + simpl in Ha. eapply (IH i j); [lia | exact Ha | exact Hb].
Qed.

(** the keys [sort] computes are the values of [key_ctype] on a fresh
    [visited] set *)
Lemma map_m_sort_key_inv fuel s0 ts s keys s' :
  map_m (fun t => lift_outcome (sort_key fuel s0 t)) ts s = Ret (keys, s') →
  s' = s ∧ Forall2 (fun k t => sort_key fuel s0 t = Ret k) keys ts.
Proof.
  revert keys s'. induction ts as [|t ts IH]; intros keys s' H; simpl in H.
  - apply ret_Ret_inv in H as [<- <-]. split; [reflexivity | constructor].
  - apply bind_Ret_inv in H as (k & s1 & H1 & H).
    apply bind_Ret_inv in H as (ks & s2 & H2 & H).
    apply ret_Ret_inv in H as [<- <-].
    unfold lift_outcome in H1. destruct (sort_key fuel s0 t) as [k'| |] eqn:Hk; try discriminate.
    inversion H1; subst. apply IH in H2 as [-> HF].
    split; [reflexivity|]. constructor; assumption.
Qed.

Lemma elem_of_zip_Forall2 {A B} (P : A -> B -> Prop) l k x y :
  Forall2 P l k → (x, y) ∈ zip l k → P x y.
Proof.
  intros HF Hin. apply list_elem_of_lookup in Hin as [i Hi].
  apply lookup_zip_Some in Hi as [Hx Hy].
  eapply Forall2_lookup_lr; eassumption.
Qed.

(** what [sort_types] leaves in [types]: the items in ascending order
    of their keys, the object graph untouched *)
Lemma sort_types_inv fuel s s' :
  sort_types fuel s = Ret (tt, s') →
  type_objs s' = type_objs s ∧ elem_objs s' = elem_objs s ∧
  ∃ sorted : list (nat * tid),
    types s' = snd <$> sorted ∧
    StronglySorted key_le sorted ∧
    ∀ k t, (k, t) ∈ sorted → sort_key fuel s t = Ret k.
Proof.
  unfold sort_types. intros H.
  apply bind_Ret_inv in H as (s0 & s1 & Hg & H). apply get_Ret_inv in Hg as [-> ->].
  apply bind_Ret_inv in H as (keys & s1 & Hk & H).
  apply map_m_sort_key_inv in Hk as [-> HF].
  unfold modify in H. inversion H; subst. simpl.
  split; [reflexivity|]. split; [reflexivity|].
  eexists. split; [reflexivity|]. split; [apply stable_sort_sorted|].
  intros k t Hin. apply (proj1 (elem_of_stable_sort _ _)) in Hin.
  eapply (elem_of_zip_Forall2 _ _ _ _ _ HF Hin).
Qed.

Lemma tree_root_in s x h S : tree s x h S → x ∈ S.
Proof. destruct 1. set_solver. Qed.

(** On a tree the walk never meets a visited type, so [key_ctype]
    returns the height and has then visited the whole tree. *)
Lemma key_ctype_tree s fuel :
  ∀ x h S V k V',
    tree s x h S → S ## V →
    key_ctype fuel s x V = Ret (k, V') →
    k = h ∧ V' = S ∪ V.
Proof.
  induction fuel as [|fuel IH]; intros x h S V k V' Ht Hd Hk; [discriminate|].
  simpl in Hk.
  destruct (decide (x ∈ V)) as [Hin|Hnin].
  { exfalso. apply tree_root_in in Ht. set_solver. }
  inversion Ht as [x0 ys hs S0 Hys Hf Hx]; subst.
  rewrite Hys in Hk.
  destruct (key_ctype_children (key_ctype fuel s) ys ({[x]} ∪ V))
    as [[ks W]| |] eqn:Hc; try discriminate.
  inversion Hk; subst k V'. clear Hk.
  assert (Hgen : ∀ ys hs S0 W0 ks W,
             forest s ys hs S0 → S0 ## W0 →
             key_ctype_children (key_ctype fuel s) ys W0 = Ret (ks, W) →
             ks = hs ∧ W = S0 ∪ W0).
  { clear -IH. intros ys. induction ys as [|y ys IHys]; intros hs S0 W0 ks W Hf Hd Hc.
    - inversion Hf; subst. simpl in Hc. inversion Hc; subst.
      split; [reflexivity | set_solver].
    - inversion Hf as [|y0 h Sy ys0 hs0 S1 Hty Hfy Hdy]; subst.
      simpl in Hc.
      destruct (key_ctype fuel s y W0) as [[k1 W1]| |] eqn:Hk1; try discriminate.
      destruct (key_ctype_children (key_ctype fuel s) ys W1)
        as [[ks1 W2]| |] eqn:Hc1; try discriminate.
      inversion Hc; subst ks W. clear Hc.
      assert (Hd1 : Sy ## W0) by set_solver.
      destruct (IH y h Sy W0 k1 W1 Hty Hd1 Hk1) as [-> ->].
      assert (Hd2 : S1 ## Sy ∪ W0) by set_solver.
      destruct (IHys hs0 S1 (Sy ∪ W0) ks1 W2 Hfy Hd2 Hc1) as [-> ->].
      split; [reflexivity | set_solver]. }
  assert (Hd0 : S0 ## {[x]} ∪ V) by set_solver.
  destruct (Hgen ys hs S0 ({[x]} ∪ V) ks W Hf Hd0 Hc) as [-> ->].
  split; [reflexivity | set_solver].
Qed.

Lemma forest_member s ys hs S U :
  forest s ys hs S → U ∈ ys →
  ∃ hU SU, tree s U hU SU ∧ (hU ≤ max_list0 hs)%nat.
Proof.
  induction 1 as [|y h Sy ys hs S Hty Hf IH Hd]; intros Hin; [inversion Hin|].
  apply elem_of_cons in Hin as [->|Hin].
  - exists h, Sy. split; [exact Hty|]. simpl. lia.
  - destruct (IH Hin) as (hU & SU & HtU & Hle).
    exists hU, SU. split; [exact HtU|]. simpl. lia.
Qed.

(** a child of a tree is a tree of smaller height *)
Lemma tree_child_lower s T h S U :
  tree s T h S → child_type_of s T U →
  ∃ hU SU, tree s U hU SU ∧ (hU < h)%nat.
Proof.
  intros Ht (ys & Hys & Hin).
  inversion Ht as [x0 ys0 hs S0 Hys0 Hf Hx]; subst.
  rewrite Hys in Hys0. inversion Hys0; subst ys0.
  destruct (forest_member _ _ _ _ _ Hf Hin) as (hU & SU & HtU & Hle).
  exists hU, SU. split; [exact HtU|]. simpl. lia.
Qed.

Lemma sort_key_tree s fuel x h S k :
  tree s x h S → sort_key fuel s x = Ret k → k = h.
Proof.
  intros Ht Hk. unfold sort_key in Hk.
  destruct (key_ctype fuel s x ∅) as [[k' V']| |] eqn:E; try discriminate.
  inversion Hk; subst k'.
  eapply key_ctype_tree in E as [-> _]; [reflexivity | exact Ht | set_solver].
Qed.

(** C3, as the script behaves: after the height sort, for every emitted
    type [T] whose child-type graph is a tree (no type is reached twice
    from [T], hence no recursion), every emitted type [U] that is the
    type of a child element of [T] stands strictly before [T] in the
    emission order. *)
Theorem tree_children_emitted_first (fuel : nat) (s s' : State) (T U : tid)
    (h : nat) (S : gset tid) (i j : nat) :
  sort_types fuel s = Ret (tt, s') →
  tree s T h S →
  child_type_of s T U →
  types s' !! j = Some T →
  types s' !! i = Some U →
  (i < j)%nat.
Proof.
  intros Hsort Ht Hchild Hj Hi.
  apply sort_types_inv in Hsort as (_ & _ & sorted & Hty & Hs & Hkeys).
  rewrite Hty in Hj, Hi.
  apply list_lookup_fmap_Some_1 in Hj as ([kT T'] & HT & Hj). simpl in HT. subst T'.
  apply list_lookup_fmap_Some_1 in Hi as ([kU U'] & HU & Hi). simpl in HU. subst U'.
  destruct (tree_child_lower _ _ _ _ _ Ht Hchild) as (hU & SU & HtU & Hlt).
  assert (kT = h) as ->.
  { eapply sort_key_tree; [exact Ht|]. apply Hkeys. eapply list_elem_of_lookup_2, Hj. }
  assert (kU = hU) as ->.
  { eapply sort_key_tree; [exact HtU|]. apply Hkeys. eapply list_elem_of_lookup_2, Hi. }
  destruct (Nat.lt_trichotomy i j) as [Hlt'|[->|Hgt]]; [exact Hlt'| |].
  - rewrite Hi in Hj. inversion Hj; subst. lia.
  - pose proof (StronglySorted_lookup_lt _ _ _ _ _ _ Hs Hgt Hj Hi) as Hle.
    unfold key_le in Hle. simpl in Hle. lia.
Qed.

Lemma tree_children_emitted_first_witness :
  ∃ s', sort_types 10 (Fixtures.annotated_unsorted Fixtures.tree_schema) = Ret (tt, s') ∧
        types s' !! 1 = Some 0 ∧ types s' !! 0 = Some 1 ∧ (0 < 1)%nat.
Proof.
  eexists. split; [vm_compute; reflexivity|].
  split; [vm_compute; reflexivity|]. split; [vm_compute; reflexivity|].
  eapply (tree_children_emitted_first 10
            (Fixtures.annotated_unsorted Fixtures.tree_schema) _ 0 1
            (max_list0 [0; max_list0 [0] + 1] + 1) ({[0]} ∪ (({[1]} ∪ ∅) ∪ ∅)) 0 1).
  - vm_compute. reflexivity.
  - apply (tree_node _ 0 [1] [max_list0 [0] + 1] (({[1]} ∪ ∅) ∪ ∅)).
    + vm_compute. reflexivity.
    + apply forest_cons.
      * apply (tree_node _ 1 [] [] ∅).
        -- vm_compute. reflexivity.
        -- apply forest_nil.
        -- set_solver.
      * apply forest_nil.
      * set_solver.
    + set_solver.
  - exists [1]. split; [vm_compute; reflexivity | set_solver].
  - vm_compute. reflexivity.
  - vm_compute. reflexivity.
Defined.

(** C3 as stated fails: a type that is its own child cannot stand
    strictly before itself, whatever the sort does. *)
Lemma children_first_counterexample :
  ¬ children_first (Fixtures.annotated Fixtures.recursive_schema).
Proof.
  intros H. destruct (H 0 0 0) as (i & _ & Hi).
  - vm_compute. reflexivity.
  - exists [0]. split; [vm_compute; reflexivity | set_solver].
  - lia.
Qed.

(** The shared [visited] set also loses height on acyclic schemas: [T]
    has children x : X and u : U, and U has a child of type X again.
    The walk from [T] finds X already visited when it reaches U, so [T]
    gets key 3, the same as U; the stable sort keeps [T] first, and the
    struct of [T] is emitted before that of its child U. *)
Example shared_child_emitted_late :
  let s := Fixtures.annotated_unsorted Fixtures.shared_child_schema in
  sort_key 10 s 0 = Ret 3 ∧ sort_key 10 s 1 = Ret 3 ∧
  child_types s 0 = Ret [2; 1] ∧
  types (Fixtures.annotated Fixtures.shared_child_schema) = [3; 2; 0; 1].
Proof. vm_compute. repeat split. Qed.

(** ** The arena set *)

(** C4 at work in the script: the group g is referenced by T0 and,
    with maxOccurs unbounded, by T, and its element x has type T.
    Annotating T0 reaches x, which starts annotating T, which reaches x
    again while the first call is still open: the inner call marks x
    as many and puts T into the arena set, then the outer call
    overwrites the flag with its own value.  At the end T is in the
    arena set and no element that refers to T is many. *)
Theorem arena_type_without_many_reference :
  ∃ s', annotate Fixtures.unit_dfa 10 Fixtures.shared_group_schema = Ret (tt, s') ∧
        1 ∈ arena_types s' ∧
        ∀ e el, elem_objs s' !! e = Some el → el_type el = 1 → el_many el = Some false.
Proof.
  eexists. split; [vm_compute; reflexivity|].
  split.
  - apply (bool_decide_unpack _). vm_compute. exact I.
  - intros e el He _. apply elem_of_map_to_list in He.
    match type of He with
    | _ ∈ map_to_list ?m =>
        remember (map_to_list m) as l eqn:El; vm_compute in El; subst l
    end.
    apply list_elem_of_singleton in He. inversion He; subst. reflexivity.
Qed.

(** ** The arena set on graphs without shared element objects *)

#[local] Arguments String.eqb : simpl never.
#[local] Arguments assoc : simpl never.
#[local] Arguments str_in : simpl never.
#[local] Arguments to_cpp_type : simpl never.

(** a computation that raised or ran out of fuel did not return *)
Ltac raised H :=
  solve [ discriminate H
        | cbv beta iota delta [raise out_of_fuel] in H; discriminate H ].

Lemma types_only_step_refl s : types_only_step s s.
Proof. repeat split; auto. Qed.

Lemma types_only_step_trans s1 s2 s3 :
  types_only_step s1 s2 → types_only_step s2 s3 → types_only_step s1 s3.
Proof.
  intros (He1 & Ha1 & Hk1 & Hv1) (He2 & Ha2 & Hk2 & Hv2).
  split; [congruence|]. split; [congruence|]. split.
  - intros t. rewrite Hk2. apply Hk1.
  - intros t Hv. apply Hv2, Hv1, Hv.
Qed.

Lemma update_type_Ret_inv t f s u s' :
  update_type t f s = Ret (u, s') →
  s' = set_type_objs (fun h => match h !! t with
                               | Some o => <[t := f o]> h
                               | None => h
                               end) s.
Proof. unfold update_type, modify. intros H. inversion H. reflexivity. Qed.

Lemma update_type_types_only t f s u s' :
  (∀ o, ty_kind (f o) = ty_kind o) →
  (∀ o, is_Some (ty_cpp_type o) → is_Some (ty_cpp_type (f o))) →
  update_type t f s = Ret (u, s') → types_only_step s s'.
Proof.
  intros Hk Hc H. apply update_type_Ret_inv in H as ->.
  split; [reflexivity|]. split; [reflexivity|]. simpl. split.
  - intros t'. destruct (type_objs s !! t) as [o|] eqn:Ho; [|reflexivity].
    destruct (decide (t = t')) as [<-|Hne].
    + rewrite lookup_insert_eq, Ho. simpl. rewrite Hk. reflexivity.
    + rewrite lookup_insert_ne by exact Hne. reflexivity.
  - intros t' (o' & Ho' & Hs). unfold visited. simpl.
    destruct (type_objs s !! t) as [o|] eqn:Ho; [|exists o'; split; assumption].
    destruct (decide (t = t')) as [<-|Hne].
    + rewrite lookup_insert_eq. exists (f o). split; [reflexivity|].
      apply Hc. rewrite Ho in Ho'. inversion Ho'; subst. exact Hs.
    + rewrite lookup_insert_ne by exact Hne. exists o'. split; assumption.
Qed.

Lemma modify_types_only f s u s' :
  (∀ s, elem_objs (f s) = elem_objs s ∧ arena_types (f s) = arena_types s ∧
        type_objs (f s) = type_objs s) →
  modify f s = Ret (u, s') → types_only_step s s'.
Proof.
  intros Hf H. unfold modify in H. inversion H; subst.
  destruct (Hf s) as (He & Ha & Ht).
  split; [exact He|]. split; [exact Ha|]. split.
  - intros t. rewrite Ht. reflexivity.
  - intros t (o & Ho & Hs). exists o. rewrite Ht. split; assumption.
Qed.

Lemma for_each_types_only {A} (l : list A) (body : A -> M unit) s u s' :
  (∀ x s u s', body x s = Ret (u, s') → types_only_step s s') →
  for_each l body s = Ret (u, s') → types_only_step s s'.
Proof.
  intros Hb. revert s. induction l as [|x l IH]; intros s H; simpl in H.
  - apply ret_Ret_inv in H as [_ <-]. apply types_only_step_refl.
  - apply bind_Ret_inv in H as (u1 & s1 & H1 & H).
    eapply types_only_step_trans; [eapply Hb; exact H1 | apply IH; exact H].
Qed.

Lemma anno_type_restriction_types_only t s u s' :
  anno_type_restriction t s = Ret (u, s') → types_only_step s s'.
Proof.
  unfold anno_type_restriction. intros H.
  apply bind_Ret_inv in H as (o & s1 & Ho & H). apply type_obj_Ret_inv in Ho as [_ ->].
  destruct (ty_kind o); try raised H.
  destruct (negb (length validators =? 1)%nat); [raised H|].
  apply bind_Ret_inv in H as (u1 & s1 & H1 & H).
  assert (Hs1 : types_only_step s s1).
  { destruct (String.eqb (ty_name o) "").
    - eapply update_type_types_only; [| |exact H1]; intros; simpl; auto.
    - apply ret_Ret_inv in H1 as [_ <-]. apply types_only_step_refl. }
  apply bind_Ret_inv in H as (o' & s2 & Ho' & H). apply type_obj_Ret_inv in Ho' as [_ ->].
  apply bind_Ret_inv in H as (u2 & s2 & H2 & H).
  eapply types_only_step_trans; [exact Hs1|].
  eapply types_only_step_trans.
  - eapply update_type_types_only; [| |exact H2]; intros; simpl; eauto.
  - eapply modify_types_only; [|exact H]. intros; repeat split.
Qed.

Lemma anno_type_simple_type_types_only fuel :
  ∀ t s u s', anno_type_simple_type fuel t s = Ret (u, s') → types_only_step s s'.
Proof.
  induction fuel as [|fuel IH]; intros t s u s' H; [discriminate|].
  simpl in H.
  apply bind_Ret_inv in H as (o & s1 & Ho & H). apply type_obj_Ret_inv in Ho as [_ ->].
  destruct (ty_kind o) eqn:Hk; try raised H.
  - destruct (assoc (ty_name o) atomic_builtins); [|raised H].
    eapply update_type_types_only; [| |exact H]; intros; simpl; eauto.
  - eapply anno_type_restriction_types_only; exact H.
  - eapply update_type_types_only; [| |exact H]; intros; simpl; eauto.
  - unfold anno_type_union_with in H.
    apply bind_Ret_inv in H as (o' & s1 & Ho' & H). apply type_obj_Ret_inv in Ho' as [_ ->].
    apply bind_Ret_inv in H as (u1 & s1 & H1 & H).
    eapply types_only_step_trans.
    { eapply update_type_types_only; [| |exact H1]; intros; simpl; eauto. }
    destruct (ty_kind o'); try raised H.
    apply bind_Ret_inv in H as (u2 & s2 & H2 & H).
    eapply types_only_step_trans.
    { eapply for_each_types_only; [|exact H2].
      intros m sa ua sb Hm.
      apply bind_Ret_inv in Hm as (u3 & s3 & H3 & Hm).
      eapply types_only_step_trans; [eapply IH; exact H3|].
      eapply modify_types_only; [|exact Hm]. intros; repeat split. }
    eapply modify_types_only; [|exact H]. intros; repeat split.
Qed.

Lemma protected_mono s0 s s' e :
  (∀ t, visited s t → visited s' t) → protected s0 s e → protected s0 s' e.
Proof. intros Hv Hp T o HT He. apply Hv, (Hp T o HT He). Qed.

Lemma anno_step_refl s0 s allowed :
  same_graph s0 s → anno_inv s → anno_step s0 s s allowed.
Proof. intros Hg Hi. repeat split; auto; apply Hg || apply Hi. Qed.

Lemma anno_step_trans s0 s1 s2 s3 allowed :
  anno_step s0 s1 s2 allowed → anno_step s0 s2 s3 allowed →
  anno_step s0 s1 s3 allowed.
Proof.
  intros (Hg1 & Hv1 & Hi1 & Hf1) (Hg2 & Hv2 & Hi2 & Hf2).
  split; [exact Hg2|]. split; [intros t Hv; apply Hv2, Hv1, Hv|]. split; [exact Hi2|].
  intros e. destruct (Hf2 e) as [E2|[A2|P2]].
  - destruct (Hf1 e) as [E1|[A1|P1]]; [left; congruence | auto | auto].
  - auto.
  - right; right. intros Hp. apply P2. eapply protected_mono; eassumption.
Qed.

Lemma anno_step_weaken s0 s s' (A B : eid -> Prop) :
  (∀ e, A e → B e) → anno_step s0 s s' A → anno_step s0 s s' B.
Proof.
  intros HAB (Hg & Hv & Hi & Hf). repeat split; try assumption; try apply Hg; try apply Hi.
  intros e. destruct (Hf e) as [E|[A1|P]]; auto.
Qed.

Lemma anno_step_of_types_only s0 s s' allowed :
  same_graph s0 s → anno_inv s → types_only_step s s' → anno_step s0 s s' allowed.
Proof.
  intros [Hgt Hge] [Ha Hm] (He & Har & Hk & Hv).
  split; [split|].
  - intros t. rewrite Hk. apply Hgt.
  - intros e. rewrite He. apply Hge.
  - split; [exact Hv|]. split.
    + split.
      * intros U. rewrite Har, He. apply Ha.
      * intros e el. rewrite He. apply Hm.
    + intros e. left. rewrite He. reflexivity.
Qed.

Lemma update_elem_Ret_inv e f s u s' :
  update_elem e f s = Ret (u, s') →
  s' = set_elem_objs (fun h => match h !! e with
                               | Some o => <[e := f o]> h
                               | None => h
                               end) s.
Proof. unfold update_elem, modify. intros H. inversion H. reflexivity. Qed.

(** the last statements of [anno_type_element]: the flags, the arena
    set and the [cpp_type] of an element not annotated before *)
Lemma element_flags_step s0 s e el (many optional : bool) c s' :
  same_graph s0 s → anno_inv s →
  elem_objs s !! e = Some el → el_cpp_type el = None →
  elem_objs s' = <[e := el_set_cpp_type c (el_set_many_optional many optional el)]> (elem_objs s) →
  arena_types s' = (if many then {[el_type el]} ∪ arena_types s else arena_types s) →
  type_objs s' = type_objs s →
  anno_step s0 s s' (fun e' => e' = e).
Proof.
  intros [Hgt Hge] [Ha Hm] He Hc He' Har' Ht'.
  pose proof (Hm e el He Hc) as Hmany.
  split; [split|].
  - intros t. rewrite Ht'. apply Hgt.
  - intros e'. rewrite <- Hge, He'. destruct (decide (e = e')) as [<-|Hne].
    + rewrite lookup_insert_eq, He. reflexivity.
    + rewrite lookup_insert_ne by exact Hne. reflexivity.
  - split; [|split].
    + intros t (o & Ho & Hs). exists o. rewrite Ht'. split; assumption.
    + split.
      * intros U. rewrite Har', He'. split.
        -- intros HU.
           assert (HU' : (many = true ∧ U = el_type el) ∨ U ∈ arena_types s).
           { destruct many; [apply elem_of_union in HU as [HU|HU]|]; auto.
             apply elem_of_singleton in HU. auto. }
           destruct HU' as [[-> ->]|HU'].
           ++ exists e. eexists. rewrite lookup_insert_eq. split; [reflexivity|].
              split; reflexivity.
           ++ apply Ha in HU' as (e' & el' & He1 & Hty & Hmn).
              exists e', el'. rewrite lookup_insert_ne; [auto|].
              intros <-. rewrite He in He1. inversion He1; subst. congruence.
        -- intros (e' & el' & He1 & Hty & Hmn).
           destruct (decide (e = e')) as [<-|Hne].
           ++ rewrite lookup_insert_eq in He1. inversion He1; subst el'. simpl in *.
              inversion Hmn; subst many. subst U. apply elem_of_union_l, elem_of_singleton.
              reflexivity.
           ++ rewrite lookup_insert_ne in He1 by exact Hne.
              assert (U ∈ arena_types s) by (apply Ha; eauto).
              destruct many; [apply elem_of_union_r|]; assumption.
      * intros e' el'. rewrite He'. destruct (decide (e = e')) as [<-|Hne].
        -- rewrite lookup_insert_eq. intros E; inversion E; subst. simpl. discriminate.
        -- rewrite lookup_insert_ne by exact Hne. apply Hm.
    + intros e'. rewrite He'. destruct (decide (e = e')) as [<-|Hne]; [auto|].
      left. rewrite lookup_insert_ne by exact Hne. reflexivity.
Qed.

Section NoSharing.

Variable dfa_from_group : State -> XsdGroup -> outcome DFA.
Variable s0 : State.
Hypothesis Hown : elements_owned s0.

Lemma anno_type_element_step anno_ct fuel :
  complex_type_spec s0 anno_ct → element_spec s0 (anno_type_element_with anno_ct fuel).
Proof.
  intros Hct e many optional s u s' Hg Hi Hp H.
  unfold anno_type_element_with in H.
  apply bind_Ret_inv in H as (el & s1 & Hel & H). apply elem_obj_Ret_inv in Hel as [Hel ->].
  destruct (el_cpp_type el) eqn:Hcpp.
  { apply ret_Ret_inv in H as [_ <-]. apply anno_step_refl; assumption. }
  apply bind_Ret_inv in H as (ty & s1 & Hty & H). apply type_obj_Ret_inv in Hty as [Hty ->].
  apply bind_Ret_inv in H as (u1 & s1 & Hname & H).
  assert (Hs1 : types_only_step s s1).
  { destruct (String.eqb (ty_name ty) "").
    - apply bind_Ret_inv in Hname as (u2 & s2 & Hn1 & Hn2).
      eapply types_only_step_trans.
      + eapply update_type_types_only; [| |exact Hn1]; intros; simpl; auto.
      + eapply modify_types_only; [|exact Hn2]. intros; repeat split.
    - apply ret_Ret_inv in Hname as [_ <-]. apply types_only_step_refl. }
  pose proof (anno_step_of_types_only s0 s s1 (fun e' => e' = e) Hg Hi Hs1) as Hstep1.
  apply bind_Ret_inv in H as (go_on & s2 & Hgo & H).
  assert (Hstep2 : anno_step s0 s1 s2 (fun _ => False)).
  { destruct Hstep1 as (Hg1 & _ & Hi1 & _).
    destruct (is_complex (ty_kind ty)).
    - apply bind_Ret_inv in Hgo as (u2 & s3 & Hc & Hgo).
      apply bind_Ret_inv in Hgo as (ty' & s4 & Hty' & Hgo).
      apply type_obj_Ret_inv in Hty' as [_ ->]. apply ret_Ret_inv in Hgo as [_ <-].
      eapply Hct; eassumption.
    - apply bind_Ret_inv in Hgo as (u2 & s3 & Hc & Hgo).
      apply ret_Ret_inv in Hgo as [_ <-].
      apply anno_step_of_types_only; [assumption..|].
      eapply anno_type_simple_type_types_only; exact Hc. }
  assert (Hp1 : protected s0 s1 e) by (eapply protected_mono; [apply Hs1 | exact Hp]).
  assert (Hel2 : elem_objs s2 !! e = Some el).
  { destruct Hstep2 as (_ & _ & _ & Hf). destruct (Hf e) as [E|[[]|P]].
    - rewrite E. unfold types_only_step in Hs1. destruct Hs1 as [E1 _]. rewrite E1. exact Hel.
    - contradiction. }
  assert (Hstep12 : anno_step s0 s s2 (fun e' => e' = e)).
  { eapply anno_step_trans; [exact Hstep1|].
    eapply anno_step_weaken; [|exact Hstep2]. intros ? []. }
  destruct go_on.
  2:{ apply ret_Ret_inv in H as [_ <-]. exact Hstep12. }
  eapply anno_step_trans; [exact Hstep12|].
  destruct Hstep12 as (Hg2 & _ & Hi2 & _).
  apply bind_Ret_inv in H as (u3 & s3 & Hu1 & H). apply update_elem_Ret_inv in Hu1 as ->.
  apply bind_Ret_inv in H as (u4 & s4 & Har & H).
  assert (Hs4 : elem_objs s4 = <[e := el_set_many_optional
                                        (many || occurs_many (el_occurs el))
                                        (optional || occurs_optional (el_occurs el)) el]>
                                 (elem_objs s2) ∧
                arena_types s4 = (if many || occurs_many (el_occurs el)
                                  then {[el_type el]} ∪ arena_types s2
                                  else arena_types s2) ∧
                type_objs s4 = type_objs s2).
  { destruct (many || occurs_many (el_occurs el)).
    - unfold modify in Har. inversion Har; subst. simpl. rewrite Hel2. repeat split.
    - apply ret_Ret_inv in Har as [_ <-]. simpl. rewrite Hel2. repeat split. }
  destruct Hs4 as (He4 & Ha4 & Ht4).
  apply bind_Ret_inv in H as (ty'' & s5 & Hty'' & H). apply type_obj_Ret_inv in Hty'' as [_ ->].
  apply bind_Ret_inv in H as (c & s5 & Hc & H). apply attr_of_Ret_inv in Hc as [_ ->].
  apply update_elem_Ret_inv in H as ->.
  eapply (element_flags_step s0 s2 e el
            (many || occurs_many (el_occurs el))
            (optional || occurs_optional (el_occurs el)) c); try eassumption.
  simpl. rewrite He4, lookup_insert_eq, insert_insert_eq. reflexivity.
Qed.

Lemma XsdGroup_nested_ind (P : XsdGroup -> Prop) :
  (∀ occ model members, (∀ g, PGroup g ∈ members → P g) → P (Group occ model members)) →
  ∀ g, P g.
Proof.
  intros H. fix IH 1. intros [occ model members]. apply H.
  revert members. fix IHl 1. intros [|p r] g Hin.
  - inversion Hin.
  - apply elem_of_cons in Hin. destruct p as [e|g'|].
    + destruct Hin as [Heq|Hin]; [discriminate Heq | exact (IHl r g Hin)].
    + destruct Hin as [Heq|Hin]; [inversion Heq; subst; apply IH | exact (IHl r g Hin)].
    + destruct Hin as [Heq|Hin]; [discriminate Heq | exact (IHl r g Hin)].
Qed.

Lemma group_loop_step on_group on_element (l : list XsdParticle) :
  (∀ g, PGroup g ∈ l → ∀ s out s',
        same_graph s0 s → anno_inv s →
        (∀ e, e ∈ group_elements g → protected s0 s e) →
        on_group g s = Ret (out, s') →
        anno_step s0 s s' (fun e => e ∈ group_elements g)) →
  (∀ x s u s', same_graph s0 s → anno_inv s → protected s0 s x →
               on_element x s = Ret (u, s') → anno_step s0 s s' (fun e => e = x)) →
  ∀ s out s',
    same_graph s0 s → anno_inv s →
    (∀ e, e ∈ flat_map (particle_elements group_elements) l → protected s0 s e) →
    group_loop on_group on_element l s = Ret (out, s') →
    anno_step s0 s s' (fun e => e ∈ flat_map (particle_elements group_elements) l).
Proof.
  intros Hgs Hel. revert Hgs. induction l as [|p r IH]; intros Hgs s out s' Hg Hi Hp H; simpl in H.
  - apply ret_Ret_inv in H as [_ <-]. apply anno_step_refl; assumption.
  - apply bind_Ret_inv in H as (out1 & s1 & H1 & H).
    apply bind_Ret_inv in H as (out2 & s2 & H2 & H).
    apply ret_Ret_inv in H as [_ <-].
    assert (Hstep1 : anno_step s0 s s1
                       (fun e => e ∈ flat_map (particle_elements group_elements) (p :: r))).
    { destruct p as [x|g|].
      - apply bind_Ret_inv in H1 as (u1 & s3 & Hx & H1).
        apply ret_Ret_inv in H1 as [_ <-].
        eapply anno_step_weaken; [|eapply (Hel x s u1 s3 Hg Hi); [|exact Hx]].
        + intros e ->. simpl. apply list_elem_of_here.
        + apply Hp. simpl. apply list_elem_of_here.
      - eapply anno_step_weaken;
          [|eapply (Hgs g (list_elem_of_here _ _) s out1 s1 Hg Hi); [|exact H1]].
        + intros e He. simpl. apply elem_of_app. left. exact He.
        + intros e He. apply Hp. simpl. apply elem_of_app. left. exact He.
      - raised H1. }
    eapply anno_step_trans; [exact Hstep1|].
    destruct Hstep1 as (Hg1 & Hv1 & Hi1 & _).
    eapply anno_step_weaken; [|eapply (IH (fun g Hin => Hgs g (list_elem_of_further _ _ _ Hin)) s1 out2 s2 Hg1 Hi1);
       [|exact H2]].
    + intros e He. simpl. apply elem_of_app. right. exact He.
    + intros e He. eapply protected_mono; [exact Hv1|]. apply Hp.
      simpl. apply elem_of_app. right. exact He.
Qed.

Lemma anno_type_group_step anno_el :
  element_spec s0 anno_el →
  ∀ g many optional s out s',
    same_graph s0 s → anno_inv s →
    (∀ e, e ∈ group_elements g → protected s0 s e) →
    anno_type_group_with anno_el g many optional s = Ret (out, s') →
    anno_step s0 s s' (fun e => e ∈ group_elements g).
Proof.
  intros Hel g. induction g as [occ model members IH] using XsdGroup_nested_ind.
  intros many optional s out s' Hg Hi Hp H. simpl in H.
  eapply (group_loop_step _ _ members); try eassumption.
  - intros g Hin sa outa sb Hga Hia Hpa Ha. exact (IH g Hin _ _ sa outa sb Hga Hia Hpa Ha).
  - intros x sa ua sb Hga Hia Hpa Ha. exact (Hel x _ _ sa ua sb Hga Hia Hpa Ha).
Qed.

Lemma call_dfa_from_group_Ret_inv g s d s' :
  call_dfa_from_group dfa_from_group g s = Ret (d, s') → s' = s.
Proof.
  unfold call_dfa_from_group. destruct (dfa_from_group s g); try discriminate.
  intros H. inversion H. reflexivity.
Qed.

Lemma same_graph_kind s T o :
  same_graph s0 s → type_objs s !! T = Some o →
  ∃ o0, type_objs s0 !! T = Some o0 ∧ ty_kind o0 = ty_kind o.
Proof.
  intros [Hgt _] Ho. specialize (Hgt T). rewrite Ho in Hgt. simpl in Hgt.
  destruct (type_objs s0 !! T) as [o0|]; [|discriminate].
  exists o0. split; [reflexivity|]. simpl in Hgt. congruence.
Qed.

(** the statements of [anno_type_complex_type] that set the model *)
Lemma model_choice_types_only T g s u s' :
  (if String.eqb (g_model g) "all" then
     update_type T (ty_set_model (Some ModelAll))
   else if str_in (g_model g) ["choice"; "sequence"] then
     update_type T (ty_set_model (Some ModelDfa));;
     d ← call_dfa_from_group dfa_from_group g;
     update_type T (ty_set_dfa d)
   else raise (NotImplementedError "Model group is not supported.")) s = Ret (u, s') →
  types_only_step s s'.
Proof.
  intros H. destruct (String.eqb (g_model g) "all").
  - eapply update_type_types_only; [| |exact H]; intros; simpl; auto.
  - destruct (str_in (g_model g) ["choice"; "sequence"]); [|raised H].
    apply bind_Ret_inv in H as (u1 & s1 & H1 & H).
    apply bind_Ret_inv in H as (d & s2 & Hd & H).
    apply call_dfa_from_group_Ret_inv in Hd as ->.
    eapply types_only_step_trans.
    + eapply update_type_types_only; [| |exact H1]; intros; simpl; auto.
    + eapply update_type_types_only; [| |exact H]; intros; simpl; auto.
Qed.

Lemma anno_type_complex_type_step fuel :
  complex_type_spec s0 (anno_type_complex_type dfa_from_group fuel).
Proof.
  induction fuel as [|fuel IH]; intros T s u s' Hg Hi H; [raised H|].
  simpl in H.
  apply bind_Ret_inv in H as (o & s1 & Ho & H). apply type_obj_Ret_inv in Ho as [Ho ->].
  destruct (ty_cpp_type o) eqn:Hcpp.
  { apply ret_Ret_inv in H as [_ <-]. apply anno_step_refl; assumption. }
  assert (Hfresh : ¬ visited s T).
  { intros (o' & Ho' & Hs). rewrite Ho in Ho'. inversion Ho'; subst o'.
    rewrite Hcpp in Hs. destruct Hs as [? Hs]. discriminate Hs. }
  destruct (same_graph_kind _ _ _ Hg Ho) as (o0 & Ho0 & Hk0).
  apply bind_Ret_inv in H as (u1 & s1 & H1 & H).
  assert (Hv1 : visited s1 T).
  { apply update_type_Ret_inv in H1 as ->. unfold visited. simpl. rewrite Ho.
    rewrite lookup_insert_eq. eexists. split; [reflexivity|]. simpl. eauto. }
  assert (Hs1 : types_only_step s s1)
    by (eapply update_type_types_only; [| |exact H1]; intros; simpl; eauto).
  destruct (ty_kind o) as [attributes content_type| | | | |] eqn:Hk; try raised H.
  apply bind_Ret_inv in H as (u2 & s2 & H2 & H).
  apply bind_Ret_inv in H as (u3 & s3 & H3 & H).
  apply bind_Ret_inv in H as (u4 & s4 & H4 & H).
  apply bind_Ret_inv in H as (u5 & s5 & H5 & H).
  assert (Hs15 : types_only_step s1 s5).
  { eapply types_only_step_trans.
    { eapply update_type_types_only; [| |exact H2]; intros; simpl; auto. }
    eapply types_only_step_trans.
    { eapply for_each_types_only; [|exact H3]. intros attr sa ua sb Ha. cbv beta in Ha.
      destruct (String.eqb (a_use attr) "prohibited"); [raised Ha|].
      eapply anno_type_simple_type_types_only; exact Ha. }
    eapply types_only_step_trans.
    { eapply update_type_types_only; [| |exact H4]; intros; simpl; auto. }
    eapply update_type_types_only; [| |exact H5]; intros; simpl; auto. }
  pose proof (types_only_step_trans _ _ _ Hs1 Hs15) as Hs5.
  destruct content_type as [g|c].
  2:{ apply anno_step_of_types_only; [assumption..|].
      eapply types_only_step_trans; [exact Hs5|].
      eapply anno_type_simple_type_types_only; exact H. }
  destruct (0 <? length (g_members g))%nat.
  2:{ apply ret_Ret_inv in H as [_ <-].
      apply anno_step_of_types_only; assumption. }
  apply bind_Ret_inv in H as (u6 & s6 & H6 & H).
  apply bind_Ret_inv in H as (ces & s7 & H7 & H).
  assert (Hs56 : types_only_step s5 s6) by (eapply model_choice_types_only; exact H6).
  pose proof (types_only_step_trans _ _ _ Hs5 Hs56) as Hs6.
  pose proof (anno_step_of_types_only s0 s s6 (fun _ => False) Hg Hi Hs6) as Hstep6.
  assert (Hcontent : content_elements o0 = group_elements g).
  { unfold content_elements. rewrite Hk0. reflexivity. }
  assert (Hv6 : visited s6 T).
  { unfold types_only_step in Hs15, Hs56.
    destruct Hs15 as (_ & _ & _ & Hv15). destruct Hs56 as (_ & _ & _ & Hv56).
    apply Hv56, Hv15, Hv1. }
  assert (Hstep7 : anno_step s0 s6 s7 (fun e => e ∈ group_elements g)).
  { destruct Hstep6 as (Hg6 & _ & Hi6 & _).
    eapply (anno_type_group_step _ (anno_type_element_step _ fuel IH) g false false
              s6 ces s7 Hg6 Hi6); [|exact H7].
    intros e He T' o' HT' He'.
    destruct Hown as [Hown1 _].
    rewrite <- Hcontent in He.
    rewrite (Hown1 e T' T o' o0 HT' Ho0 He' He). exact Hv6. }
  assert (Hstep8 : anno_step s0 s7 s' (fun _ => False)).
  { destruct Hstep7 as (Hg7 & _ & Hi7 & _).
    apply anno_step_of_types_only; [assumption..|].
    eapply update_type_types_only; [| |exact H]; intros; simpl; auto. }
  destruct Hstep6 as (Hg6 & Hvis6 & Hi6 & Hf6).
  destruct Hstep7 as (Hg7 & Hvis7 & Hi7 & Hf7).
  destruct Hstep8 as (Hg8 & Hvis8 & Hi8 & Hf8).
  split; [exact Hg8|]. split; [intros t Hv; apply Hvis8, Hvis7, Hvis6, Hv|].
  split; [exact Hi8|].
  intros e.
  destruct (Hf8 e) as [E8|[[]|P8]].
  - destruct (Hf7 e) as [E7|[A7|P7]].
    + destruct (Hf6 e) as [E6|[[]|P6]]; [left; congruence | auto].
    + right; right. intros Hp. apply Hfresh. apply (Hp T o0 Ho0).
      rewrite Hcontent. exact A7.
    + right; right. intros Hp. apply P7. eapply protected_mono; [exact Hvis6 | exact Hp].
  - right; right. intros Hp. apply P8.
    eapply protected_mono; [|exact Hp]. intros t Hv. apply Hvis7, Hvis6, Hv.
Qed.

Lemma for_each_keeps_inv {A} (l : list A) (body : A -> M unit) :
  (∀ x, x ∈ l → ∀ s u s', same_graph s0 s → anno_inv s → body x s = Ret (u, s') →
                          same_graph s0 s' ∧ anno_inv s') →
  ∀ s u s', same_graph s0 s → anno_inv s → for_each l body s = Ret (u, s') →
            same_graph s0 s' ∧ anno_inv s'.
Proof.
  induction l as [|x l IH]; intros Hb s u s' Hg Hi H; simpl in H.
  - apply ret_Ret_inv in H as [_ <-]. split; assumption.
  - apply bind_Ret_inv in H as (u1 & s1 & H1 & H).
    destruct (Hb x (list_elem_of_here _ _) s u1 s1 Hg Hi H1) as [Hg1 Hi1].
    eapply IH; [|exact Hg1|exact Hi1|exact H].
    intros y Hy. apply Hb. apply list_elem_of_further. exact Hy.
Qed.

Lemma unannotated_inv : unannotated s0 → anno_inv s0.
Proof.
  intros (_ & He & Ha). split.
  - intros U. rewrite Ha. split.
    + intros HU. apply not_elem_of_empty in HU. contradiction.
    + intros (e & el & Hel & _ & Hm). destruct (He e el Hel) as [_ Hn]. congruence.
  - intros e el Hel _. apply (He e el Hel).
Qed.

(** On a graph without shared element objects the arena set is exactly
    the set of types referred to by an element whose [many] flag is
    true, recursive types included. *)
Lemma annotate_arena_agrees fuel u s' :
  unannotated s0 →
  annotate dfa_from_group fuel s0 = Ret (u, s') →
  arena_agrees s'.
Proof.
  intros Hun H. unfold annotate in H.
  apply bind_Ret_inv in H as (s & s1 & Hget & H). apply get_Ret_inv in Hget as [-> ->].
  apply bind_Ret_inv in H as (u1 & s1 & H1 & H).
  assert (Hg0 : same_graph s0 s0) by (split; reflexivity).
  pose proof (unannotated_inv Hun) as Hi0.
  destruct (for_each_keeps_inv (types s0) _
              (fun T _ s u s' Hg Hi Hr =>
                 let st := anno_type_complex_type_step fuel T s u s' Hg Hi Hr in
                 conj (proj1 st) (proj1 (proj2 (proj2 st))))
              s0 u1 s1 Hg0 Hi0 H1) as [Hg1 Hi1].
  assert (Hroots : ∀ e, e ∈ elements s0 → ∀ s, protected s0 s e).
  { intros e He s T o HT Hc. destruct Hown as [_ Hown2].
    exfalso. exact (Hown2 e T o He HT Hc). }
  destruct (for_each_keeps_inv (elements s0)
              (fun e => anno_type_element dfa_from_group fuel e false false)) with
    (s := s1) (u := u) (s' := s') as [_ [Hfinal _]]; try assumption.
  intros e He s ua sb Hg Hi Hr.
  pose proof (anno_type_element_step _ fuel (anno_type_complex_type_step fuel)
                e false false s ua sb Hg Hi (Hroots e He s) Hr) as st.
  split; [exact (proj1 st) | exact (proj1 (proj2 (proj2 st)))].
Qed.

End NoSharing.

(** X11: the arena invariant on graphs in which no element
    object is shared between content models: after annotation a type
    is in the arena set exactly when some element that refers to it has
    [many] set, also when the type is referred to from inside its own
    definition. *)
Theorem arena_agrees_without_shared_elements dfa_from_group (fuel : nat) (s s' : State) :
  unannotated s → elements_owned s →
  annotate dfa_from_group fuel s = Ret (tt, s') →
  arena_agrees s'.
Proof.
  intros Hun Hown H. eapply annotate_arena_agrees; eassumption.
Qed.

(** the recursive schema T = (x : T)* has no shared element object, and
    T is in its arena set because of x *)
Example arena_agrees_recursive_schema :
  arena_agrees (Fixtures.annotated_unsorted Fixtures.recursive_schema) ∧
  arena_types (Fixtures.annotated_unsorted Fixtures.recursive_schema) = {[0]}.
Proof.
  split; [|apply leibniz_equiv; apply (bool_decide_unpack _); vm_compute; exact I].
  eapply (arena_agrees_without_shared_elements Fixtures.unit_dfa 10 Fixtures.recursive_schema).
  - split; [|split].
    + intros t o Ho. apply elem_of_map_to_list in Ho.
      match type of Ho with
      | _ ∈ map_to_list ?m => remember (map_to_list m) as l eqn:El; vm_compute in El; subst l
      end.
      apply list_elem_of_singleton in Ho. inversion Ho; subst. reflexivity.
    + intros e el He. apply elem_of_map_to_list in He.
      match type of He with
      | _ ∈ map_to_list ?m => remember (map_to_list m) as l eqn:El; vm_compute in El; subst l
      end.
      apply list_elem_of_singleton in He. inversion He; subst. split; reflexivity.
    + reflexivity.
  - split.
    + intros e T1 T2 o1 o2 H1 H2 _ _.
      apply elem_of_map_to_list in H1, H2.
      match type of H1 with
      | _ ∈ map_to_list ?m => remember (map_to_list m) as l eqn:El; vm_compute in El; subst l
      end.
      apply list_elem_of_singleton in H1, H2. congruence.
    + intros e T o He. inversion He.
  - vm_compute. reflexivity.
Defined.

(** * Further properties of the script *)

(** ** Name mangling *)

Lemma str_in_true x l : str_in x l = true → In x l.
Proof.
  unfold str_in. intros H. apply existsb_exists in H as (k & Hk & E).
  apply String.eqb_eq in E. subst. exact Hk.
Qed.

Lemma keywords_with_underscore_free :
  forallb (fun k => negb (str_in (k +:+ "_") cpp_keywords)) cpp_keywords = true.
Proof. vm_compute. reflexivity. Qed.

(** X1: [checked] always returns; its result is the identifier itself
    when that is no reserved word and the identifier with one
    underscore appended when it is; the result is never a reserved
    word; and the call changes nothing of the state but the diagnostic
    stream. *)
Theorem checked_result_not_reserved (x : string) (s : State) :
  ∃ y s', checked x s = Ret (y, s') ∧
          y = (if str_in x cpp_keywords then x +:+ "_" else x) ∧
          str_in y cpp_keywords = false ∧
          s' = set_stderr (fun _ => stderr s') s.
Proof.
  destruct (str_in x cpp_keywords) eqn:Hk.
  - eexists _, _. split; [apply checked_keyword; exact Hk|].
    split; [reflexivity|]. split; [|reflexivity].
    apply str_in_true in Hk.
    pose proof keywords_with_underscore_free as Hall.
    rewrite forallb_forall in Hall. specialize (Hall x Hk).
    apply negb_true_iff in Hall. exact Hall.
  - exists x, s. split; [apply checked_plain; exact Hk|].
    split; [reflexivity|]. split; [exact Hk|]. destruct s; reflexivity.
Qed.










(** ** Indentation *)

Lemma split_lines_aux_nonempty cur x : split_lines_aux cur x ≠ [].
Proof.
  revert cur. induction x as [|c x IH]; intros cur; simpl; [discriminate|].
  destruct (Ascii.eqb c "010"%char); [discriminate | apply IH].
Qed.

Lemma rev_app_acc s acc : String.rev_app s acc = String.rev_app s "" +:+ acc.
Proof.
  revert acc. induction s as [|c s IH]; intros acc; [reflexivity|].
  simpl. rewrite (IH (String c acc)), (IH (String c "")), str_app_assoc. reflexivity.
Qed.

Lemma rev_cons c cur : String.rev (String c cur) = String.rev cur +:+ String c "".
Proof. unfold String.rev. simpl. apply rev_app_acc. Qed.

Lemma join_cons sep a b l : join sep (a :: b :: l) = a +:+ sep +:+ join sep (b :: l).
Proof. reflexivity. Qed.

Lemma join_split_lines_aux cur x :
  join nl (split_lines_aux cur x) = String.rev cur +:+ x.
Proof.
  revert cur. induction x as [|c x IH]; intros cur; simpl.
  - symmetry. apply str_app_nil_r.
  - destruct (Ascii.eqb c "010"%char) eqn:E.
    + apply Ascii.eqb_eq in E. subst c.
      destruct (split_lines_aux "" x) as [|b l] eqn:Es;
        [exfalso; eapply split_lines_aux_nonempty; exact Es|].
      rewrite join_cons, <- Es, IH. reflexivity.
    + rewrite IH, rev_cons, str_app_assoc. reflexivity.
Qed.

(** splitting at newlines and joining with newlines gives the text back *)
Lemma join_split_lines x : join nl (split_lines x) = x.
Proof. unfold split_lines. rewrite join_split_lines_aux. reflexivity. Qed.

Lemma all_chars_app p a b : all_chars p (a +:+ b) = all_chars p a && all_chars p b.
Proof.
  induction a as [|c a IH]; [reflexivity|].
  rewrite str_app_cons. simpl. rewrite IH, andb_assoc. reflexivity.
Qed.

Lemma split_lines_aux_line cur p :
  no_newline p = true → split_lines_aux cur p = [String.rev cur +:+ p].
Proof.
  revert cur. induction p as [|c p IH]; intros cur H; simpl.
  - rewrite str_app_nil_r. reflexivity.
  - simpl in H. apply andb_true_iff in H as [Hc Hp]. apply negb_true_iff in Hc.
    rewrite Hc, IH by exact Hp. rewrite rev_cons, str_app_assoc. reflexivity.
Qed.

Lemma split_lines_aux_break cur p rest :
  no_newline p = true →
  split_lines_aux cur (p +:+ nl +:+ rest) = (String.rev cur +:+ p) :: split_lines_aux "" rest.
Proof.
  revert cur. induction p as [|c p IH]; intros cur H.
  - simpl. rewrite str_app_nil_r. reflexivity.
  - simpl in H. apply andb_true_iff in H as [Hc Hp]. apply negb_true_iff in Hc.
    rewrite str_app_cons. simpl. rewrite Hc, IH by exact Hp.
    rewrite rev_cons, str_app_assoc. reflexivity.
Qed.

(** joining newline-free lines and splitting again gives the lines back *)
Lemma split_join_lines (ls : list string) :
  ls ≠ [] → forallb no_newline ls = true → split_lines (join nl ls) = ls.
Proof.
  induction ls as [|a ls IH]; intros Hne Hall; [contradiction|].
  simpl in Hall. apply andb_true_iff in Hall as [Ha Hls].
  destruct ls as [|b ls].
  - simpl. unfold split_lines. rewrite split_lines_aux_line by exact Ha. reflexivity.
  - rewrite join_cons. unfold split_lines.
    rewrite split_lines_aux_break by exact Ha. simpl String.rev.
    f_equal. apply IH; [discriminate | exact Hls].
Qed.

Lemma no_newline_rev cur : no_newline (String.rev cur) = no_newline cur.
Proof.
  induction cur as [|c cur IH]; [reflexivity|].
  rewrite rev_cons. unfold no_newline in *. rewrite all_chars_app, IH. simpl.
  rewrite andb_true_r, andb_comm. reflexivity.
Qed.

Lemma split_lines_aux_no_newline cur x :
  no_newline cur = true → forallb no_newline (split_lines_aux cur x) = true.
Proof.
  revert cur. induction x as [|c x IH]; intros cur H; simpl.
  - rewrite no_newline_rev, H. reflexivity.
  - destruct (Ascii.eqb c "010"%char) eqn:E.
    + simpl. rewrite no_newline_rev, H. simpl. apply IH. reflexivity.
    + apply IH.
      change (no_newline (String c cur))
        with (negb (Ascii.eqb c "010"%char) && no_newline cur).
      rewrite E. exact H.
Qed.

Lemma repeat_str_tab_no_newline n : no_newline (repeat_str tab n) = true.
Proof. induction n as [|n IH]; [reflexivity|]. simpl. exact IH. Qed.

Lemma indent_line_no_newline n line :
  no_newline line = true → no_newline (indent_line n line) = true.
Proof.
  intros H. unfold indent_line. destruct (String.eqb line ""); [reflexivity|].
  unfold no_newline. rewrite all_chars_app.
  fold (no_newline (repeat_str tab n)). rewrite repeat_str_tab_no_newline. exact H.
Qed.

Lemma indent_unfold x n : indent x n = join nl (map (indent_line n) (split_lines x)).
Proof. reflexivity. Qed.

Lemma repeat_str_add s n m : repeat_str s (n + m) = repeat_str s n +:+ repeat_str s m.
Proof.
  induction n as [|n IH]; [reflexivity|]. simpl. rewrite IH, str_app_assoc. reflexivity.
Qed.

Lemma indent_line_compose n m line :
  indent_line m (indent_line n line) = indent_line (m + n) line.
Proof.
  unfold indent_line. destruct (String.eqb line "") eqn:E; [reflexivity|].
  destruct (String.eqb (repeat_str tab n +:+ line) "") eqn:E2.
  - apply String.eqb_eq in E2. apply String.eqb_neq in E.
    destruct (repeat_str tab n); [simpl in E2; contradiction | discriminate E2].
  - rewrite repeat_str_add, str_app_assoc. reflexivity.
Qed.

(** the lines of an indented text are the indented lines of the text *)
Lemma split_lines_indent x n :
  split_lines (indent x n) = map (indent_line n) (split_lines x).
Proof.
  rewrite indent_unfold. apply split_join_lines.
  - unfold split_lines. destruct (split_lines_aux "" x) eqn:E; [|discriminate].
    exfalso. eapply split_lines_aux_nonempty. exact E.
  - pose proof (split_lines_aux_no_newline "" x eq_refl) as H.
    unfold split_lines. induction (split_lines_aux "" x) as [|a l IH]; [reflexivity|].
    simpl in *. apply andb_true_iff in H as [Ha Hl].
    rewrite indent_line_no_newline by exact Ha. apply IH, Hl.
Qed.

(** X4: [indent] works line by line: it keeps the number of lines,
    leaves empty lines empty and puts [n] tabs before every other line;
    indenting by 0 gives the text back, and indenting by [n] and then by
    [m], as the nested emitters do, is indenting by [m + n]. *)
Theorem indent_by_lines (x : string) (n m : nat) :
  split_lines (indent x n) = map (indent_line n) (split_lines x) ∧
  length (split_lines (indent x n)) = length (split_lines x) ∧
  indent x 0 = x ∧
  indent (indent x n) m = indent x (m + n).
Proof.
  split; [apply split_lines_indent|].
  split; [rewrite split_lines_indent, length_map; reflexivity|].
  split.
  - rewrite indent_unfold.
    replace (map (indent_line 0) (split_lines x)) with (split_lines x);
      [apply join_split_lines|].
    induction (split_lines x) as [|a l IH]; [reflexivity|].
    simpl. rewrite <- IH. f_equal. unfold indent_line.
    destruct (String.eqb a "") eqn:E; [apply String.eqb_eq in E; auto | reflexivity].
  - rewrite (indent_unfold (indent x n) m), split_lines_indent, map_map, indent_unfold.
    f_equal. apply map_ext. intros line. apply indent_line_compose.
Qed.

(** ** Bit masks *)







(** ** The sort is a stable rearrangement *)

Lemma insert_by_key_perm {A} (kx : nat * A) l :
  insert_by_key Nat.leb kx l ≡ₚ kx :: l.
Proof.
  induction l as [|ky l IH]; simpl; [reflexivity|].
  destruct (fst kx <=? fst ky)%nat; [reflexivity|].
  rewrite IH. apply Permutation_swap.
Qed.

Lemma stable_sort_perm {A} (l : list (nat * A)) : stable_sort Nat.leb l ≡ₚ l.
Proof.
  induction l as [|x l IH]; simpl; [reflexivity|].
  rewrite insert_by_key_perm, IH. reflexivity.
Qed.

(** an insertion passes only items of a smaller key, so the items of
    one key keep their order *)
Lemma insert_by_key_filter {A} (k : nat) (kx : nat * A) l :
  filter (fun p => fst p = k) (insert_by_key Nat.leb kx l) =
  filter (fun p => fst p = k) (kx :: l).
Proof.
  induction l as [|ky l IH]; simpl; [reflexivity|].
  destruct (fst kx <=? fst ky)%nat eqn:E; [reflexivity|].
  apply Nat.leb_gt in E.
  rewrite (filter_cons _ ky (insert_by_key _ _ _)), IH.
  rewrite (filter_cons _ kx (ky :: l)), (filter_cons _ kx l), (filter_cons _ ky l).
  destruct (decide (fst ky = k)) as [Hy|Hy]; destruct (decide (fst kx = k)) as [Hx|Hx];
    try reflexivity.
  lia.
Qed.

Lemma stable_sort_filter {A} (k : nat) (l : list (nat * A)) :
  filter (fun p => fst p = k) (stable_sort Nat.leb l) = filter (fun p => fst p = k) l.
Proof.
  induction l as [|x l IH]; simpl; [reflexivity|].
  rewrite insert_by_key_filter, !filter_cons, IH. reflexivity.
Qed.

Lemma filter_has_key fuel s k (l : list (nat * tid)) :
  (∀ k' t, (k', t) ∈ l → sort_key fuel s t = Ret k') →
  filter (fun t => Is_true (has_key fuel s k t)) (snd <$> l) =
  snd <$> filter (fun p => fst p = k) l.
Proof.
  induction l as [|[k' t] l IH]; intros Hk; [reflexivity|].
  rewrite fmap_cons, !filter_cons. simpl.
  rewrite IH by (intros k0 t0 Hin; apply Hk; right; exact Hin).
  assert (Ht : sort_key fuel s t = Ret k') by (apply Hk; left).
  unfold has_key. rewrite Ht.
  destruct (decide (k' = k)) as [->|Hne].
  - rewrite Nat.eqb_refl. rewrite decide_True by exact I. reflexivity.
  - apply Nat.eqb_neq in Hne. rewrite Hne. rewrite decide_False by (intros []).
    reflexivity.
Qed.

Lemma snd_zip_Forall2 {A B} (P : A -> B -> Prop) (l : list A) (k : list B) :
  Forall2 P l k → snd <$> zip l k = k.
Proof. intros H. apply snd_zip. apply Forall2_length in H. lia. Qed.

(** X6: the height sort rearranges, and nothing else: the new [types]
    is a permutation of the old list followed by the anonymous types;
    it is ascending in the key; the types of one key keep the order
    they had (the sort is stable); and the object graph and the list of
    anonymous types are as before. *)
Theorem sort_types_stable_permutation (fuel : nat) (s s' : State) :
  sort_types fuel s = Ret (tt, s') →
  types s' ≡ₚ types s ++ anonymous_complex_types s ∧
  (∀ i j T U, (i < j)%nat → types s' !! i = Some T → types s' !! j = Some U →
     ∃ kT kU, sort_key fuel s T = Ret kT ∧ sort_key fuel s U = Ret kU ∧ (kT ≤ kU)%nat) ∧
  (∀ k, filter (fun t => Is_true (has_key fuel s k t)) (types s') =
        filter (fun t => Is_true (has_key fuel s k t))
               (types s ++ anonymous_complex_types s)) ∧
  anonymous_complex_types s' = anonymous_complex_types s ∧
  type_objs s' = type_objs s ∧ elem_objs s' = elem_objs s.
Proof.
  unfold sort_types. intros H.
  apply bind_Ret_inv in H as (s0 & s1 & Hg & H). apply get_Ret_inv in Hg as [-> ->].
  apply bind_Ret_inv in H as (keys & s1 & Hk & H).
  apply map_m_sort_key_inv in Hk as [-> HF].
  unfold modify in H. inversion H; subst. simpl. clear H.
  set (ts := types s ++ anonymous_complex_types s) in *.
  assert (Hkeys : ∀ k t, (k, t) ∈ zip keys ts → sort_key fuel s t = Ret k).
  { intros k t Hin. exact (elem_of_zip_Forall2 _ _ _ _ _ HF Hin). }
  assert (Hkeys' : ∀ k t, (k, t) ∈ stable_sort Nat.leb (zip keys ts) →
                          sort_key fuel s t = Ret k).
  { intros k t Hin. apply Hkeys. apply (proj1 (elem_of_stable_sort _ _)), Hin. }
  split; [|split; [|split; [|repeat split]]].
  - rewrite stable_sort_perm. rewrite (snd_zip_Forall2 _ _ _ HF). reflexivity.
  - intros i j T U Hij Hi Hj.
    apply list_lookup_fmap_Some_1 in Hi as ([kT T'] & HT & Hi). simpl in HT. subst T'.
    apply list_lookup_fmap_Some_1 in Hj as ([kU U'] & HU & Hj). simpl in HU. subst U'.
    exists kT, kU.
    split; [apply Hkeys'; eapply list_elem_of_lookup_2, Hi|].
    split; [apply Hkeys'; eapply list_elem_of_lookup_2, Hj|].
    exact (StronglySorted_lookup_lt _ _ _ _ _ _ (stable_sort_sorted _) Hij Hi Hj).
  - intros k. rewrite (filter_has_key _ _ _ _ Hkeys'), stable_sort_filter.
    rewrite <- (filter_has_key _ _ _ _ Hkeys), (snd_zip_Forall2 _ _ _ HF). reflexivity.
Qed.

Lemma sort_types_stable_permutation_witness :
  types (Fixtures.annotated Fixtures.shared_child_schema) ≡ₚ
    types (Fixtures.annotated_unsorted Fixtures.shared_child_schema) ++
    anonymous_complex_types (Fixtures.annotated_unsorted Fixtures.shared_child_schema).
Proof.
  apply (sort_types_stable_permutation 10
           (Fixtures.annotated_unsorted Fixtures.shared_child_schema)
           (Fixtures.annotated Fixtures.shared_child_schema)).
  vm_compute. reflexivity.
Defined.

(** ** The height walk: termination and exact heights *)

Lemma max_list0_le (l : list nat) (b : nat) :
  Forall (fun k => k ≤ b)%nat l → (max_list0 l ≤ b)%nat.
Proof. induction 1; simpl; lia. Qed.

Lemma max_list0_ge (l : list nat) (k : nat) : k ∈ l → (k ≤ max_list0 l)%nat.
Proof.
  induction l as [|x l IH]; intros H; [inversion H|].
  apply elem_of_cons in H as [->|H]; simpl; [lia|]. specialize (IH H). lia.
Qed.

(** the walk over the children, when every call returns *)
Lemma key_ctype_children_total (call : tid -> gset tid -> outcome (nat * gset tid))
    (D V0 : gset tid) (ys : list tid) :
  (∀ y W, y ∈ ys → V0 ⊆ W →
     ∃ k W', call y W = Ret (k, W') ∧ W ⊆ W' ∧ W' ⊆ W ∪ D ∧ (k ≤ size (W' ∖ W))%nat) →
  ∀ W, V0 ⊆ W →
    ∃ ks W', key_ctype_children call ys W = Ret (ks, W') ∧ W ⊆ W' ∧ W' ⊆ W ∪ D ∧
             Forall (fun k => k ≤ size (W' ∖ W))%nat ks.
Proof.
  induction ys as [|y ys IH]; intros Hcall W HW.
  - exists [], W. simpl. split; [reflexivity|]. split; [set_solver|]. split; [set_solver|].
    constructor.
  - destruct (Hcall y W) as (k & W1 & Hk & Hsub1 & Hsup1 & Hb1); [left | exact HW |].
    destruct IH with (W := W1) as (ks & W2 & Hks & Hsub2 & Hsup2 & Hb2).
    { intros y' W' Hy' HW'. apply Hcall; [right; exact Hy' | exact HW']. }
    { set_solver. }
    exists (k :: ks), W2. simpl. rewrite Hk, Hks.
    split; [reflexivity|]. split; [set_solver|]. split; [set_solver|].
    constructor.
    + etransitivity; [exact Hb1|]. apply subseteq_size. set_solver.
    + eapply Forall_impl; [exact Hb2|]. simpl. intros k' Hk'.
      etransitivity; [exact Hk'|]. apply subseteq_size. set_solver.
Qed.

(** X7: on a set of types closed under the child relation (recursive
    types included) the height walk returns as soon as the fuel exceeds
    the number of types not yet visited: the [visited] rule cuts every
    cycle.  The walk only adds types of the set to [visited], the start
    type among them, and the key is at most the number of types it
    added; it is 0 exactly for a type visited before. *)
Theorem key_ctype_terminates (s : State) (D : gset tid) (fuel : nat) (x : tid)
    (V : gset tid) :
  closed_under_children s D → x ∈ D → (size (D ∖ V) < fuel)%nat →
  ∃ k V', key_ctype fuel s x V = Ret (k, V') ∧
          V ⊆ V' ∧ V' ⊆ V ∪ D ∧ x ∈ V' ∧
          (k ≤ size (V' ∖ V))%nat ∧ (k = 0%nat ↔ x ∈ V).
Proof.
  intros Hcl. revert x V.
  assert (Hgen : ∀ x V, x ∈ D → (size (D ∖ V) < fuel)%nat →
            ∃ k V', key_ctype fuel s x V = Ret (k, V') ∧
                    V ⊆ V' ∧ V' ⊆ V ∪ D ∧ x ∈ V' ∧
                    (k ≤ size (V' ∖ V))%nat ∧ (k = 0%nat ↔ x ∈ V)).
  2:{ intros x V Hx Hf. exact (Hgen x V Hx Hf). }
  induction fuel as [|fuel IH]; intros x V Hx Hfuel; [lia|].
  simpl. destruct (decide (x ∈ V)) as [Hin|Hnin].
  { exists 0%nat, V. split; [reflexivity|]. split; [set_solver|]. split; [set_solver|].
    split; [exact Hin|]. split; [lia|]. split; [intros _; exact Hin | reflexivity]. }
  destruct (Hcl x Hx) as (ys & Hys & Hsub). rewrite Hys.
  assert (Hsz : (size (D ∖ ({[x]} ∪ V)) < fuel)%nat).
  { assert (Hlt : (size (D ∖ ({[x]} ∪ V)) < size (D ∖ V))%nat).
    { apply subset_size. apply (strict_spec_alt _ _). split; [set_solver|].
      intros Heq. assert (x ∈ D ∖ V) as Hm by set_solver.
      rewrite <- Heq in Hm. set_solver. }
    lia. }
  destruct (key_ctype_children_total (key_ctype fuel s) D ({[x]} ∪ V) ys)
    with (W := {[x]} ∪ V) as (ks & V' & Hks & Hsub' & Hsup' & Hb).
  { intros y W Hy HW.
    destruct (IH y W) as (k & W' & Hk & H1 & H2 & _ & H3 & _).
    - apply Hsub, Hy.
    - eapply Nat.le_lt_trans; [|exact Hsz]. apply subseteq_size. set_solver.
    - exists k, W'. repeat split; assumption. }
  { set_solver. }
  rewrite Hks. exists (max_list0 (0 :: ks) + 1)%nat, V'.
  split; [reflexivity|]. split; [set_solver|]. split; [set_solver|].
  split; [set_solver|]. split; [|split; [lia | intros Hc; contradiction]].
  assert (Hm : (max_list0 (0 :: ks) ≤ size (V' ∖ ({[x]} ∪ V)))%nat).
  { apply max_list0_le. constructor; [lia | exact Hb]. }
  assert (Hsplit : V' ∖ V ≡ {[x]} ∪ V' ∖ ({[x]} ∪ V)).
  { intros z. destruct (decide (z = x)) as [->|Hne]; set_solver. }
  rewrite Hsplit, size_union by set_solver. rewrite size_singleton. lia.
Qed.

Lemma key_ctype_terminates_witness :
  ∃ k V', key_ctype 2 (Fixtures.annotated_unsorted Fixtures.recursive_schema) 0 ∅
            = Ret (k, V') ∧ (k ≤ size (V' ∖ ∅))%nat.
Proof.
  destruct (key_ctype_terminates (Fixtures.annotated_unsorted Fixtures.recursive_schema)
              {[0]} 2 0 ∅) as (k & V' & Hk & _ & _ & _ & Hb & _).
  - intros t Ht. apply elem_of_singleton in Ht as ->.
    exists [0]. split; [vm_compute; reflexivity|].
    intros y Hy. apply list_elem_of_singleton in Hy as ->. set_solver.
  - set_solver.
  - rewrite difference_empty_L, size_singleton. lia.
  - exists k, V'. split; assumption.
Defined.

(** the walk over a forest with enough fuel for every tree *)
Lemma key_ctype_children_forest s fuel :
  (∀ x h S V, tree s x h S → S ## V → (h ≤ fuel)%nat →
              key_ctype fuel s x V = Ret (h, S ∪ V)) →
  ∀ ys hs S0 W0, forest s ys hs S0 → S0 ## W0 → (max_list0 hs ≤ fuel)%nat →
    key_ctype_children (key_ctype fuel s) ys W0 = Ret (hs, S0 ∪ W0).
Proof.
  intros IH ys. induction ys as [|y ys IHys]; intros hs S0 W0 Hf Hd Hm.
  - inversion Hf; subst. simpl. f_equal. f_equal. set_solver.
  - inversion Hf as [|y0 h Sy ys0 hs0 S1 Hty Hfy Hdy]; subst.
    simpl in Hm. simpl.
    rewrite (IH y h Sy W0 Hty) by (set_solver || lia).
    rewrite (IHys hs0 S1 (Sy ∪ W0) Hfy) by (set_solver || lia).
    f_equal. f_equal. set_solver.
Qed.

(** X8: below a type whose child-type graph is a tree the walk meets
    no visited type: with fuel for the height it returns, the key is
    the height of the tree (a type without children has key 1), and
    [visited] has grown by the types of the tree. *)
Theorem key_ctype_height_of_tree (s : State) (fuel : nat) (x : tid) (h : nat)
    (S V : gset tid) :
  tree s x h S → S ## V → (h ≤ fuel)%nat →
  key_ctype fuel s x V = Ret (h, S ∪ V) ∧ sort_key (Datatypes.S fuel) s x = Ret h ∧
  (1 ≤ h)%nat.
Proof.
  assert (Hgen : ∀ fuel x h S V, tree s x h S → S ## V → (h ≤ fuel)%nat →
                   key_ctype fuel s x V = Ret (h, S ∪ V)).
  { clear. intros fuel. induction fuel as [|fuel IH]; intros x h S V Ht Hd Hh.
    - inversion Ht; subst. lia.
    - inversion Ht as [x0 ys hs S0 Hys Hf Hx]; subst. simpl.
      destruct (decide (x ∈ V)) as [Hin|_]; [set_solver|].
      rewrite Hys.
      rewrite (key_ctype_children_forest s fuel IH ys hs S0 ({[x]} ∪ V) Hf)
        by (set_solver || (simpl in Hh; lia)).
      f_equal. f_equal. set_solver. }
  intros Ht Hd Hh. split; [apply Hgen; assumption|]. split.
  - unfold sort_key. rewrite (Hgen (Datatypes.S fuel) x h S ∅ Ht) by (set_solver || lia).
    reflexivity.
  - inversion Ht; subst. lia.
Qed.

Lemma key_ctype_height_of_tree_witness :
  sort_key 3 (Fixtures.annotated_unsorted Fixtures.tree_schema) 0 = Ret 2.
Proof.
  apply (key_ctype_height_of_tree (Fixtures.annotated_unsorted Fixtures.tree_schema)
           2 0 (max_list0 [0; max_list0 [0] + 1] + 1) ({[0]} ∪ (({[1]} ∪ ∅) ∪ ∅)) ∅).
  - apply (tree_node _ 0 [1] [max_list0 [0] + 1] (({[1]} ∪ ∅) ∪ ∅)).
    + vm_compute. reflexivity.
    + apply forest_cons.
      * apply (tree_node _ 1 [] [] ∅).
        -- vm_compute. reflexivity.
        -- apply forest_nil.
        -- set_solver.
      * apply forest_nil.
      * set_solver.
    + set_solver.
  - set_solver.
  - simpl. lia.
Defined.

(** ** Annotation only adds *)

Lemma grows_refl s : grows s s.
Proof.
  repeat split; auto. intros t o Ho _. exists o. repeat split; assumption.
Qed.

Lemma grows_trans s1 s2 s3 : grows s1 s2 → grows s2 s3 → grows s1 s3.
Proof.
  intros (Hk1 & He1 & Hv1 & Ht1 & Hr1 & Hs1 & Ha1 & Hn1 & Hu1 & Hst1 & Hat1 & Hsi1)
         (Hk2 & He2 & Hv2 & Ht2 & Hr2 & Hs2 & Ha2 & Hn2 & Hu2 & Hst2 & Hat2 & Hsi2).
  split; [intros t; rewrite Hk2; apply Hk1|].
  split; [intros e; rewrite He2; apply He1|].
  split; [intros t Hv; apply Hv2, Hv1, Hv|].
  split; [congruence|]. split; [congruence|]. split; [congruence|].
  split; [etransitivity; eassumption|].
  split; [etransitivity; eassumption|].
  split; [etransitivity; eassumption|].
  split; [set_solver|]. split; [set_solver|].
  intros t o Ho Hc. destruct (Hsi1 t o Ho Hc) as (o1 & Ho1 & Hal1 & Hce1).
  assert (Hc1 : is_complex (ty_kind o1) = false).
  { specialize (Hk1 t). rewrite Ho, Ho1 in Hk1. simpl in Hk1. congruence. }
  destruct (Hsi2 t o1 Ho1 Hc1) as (o2 & Ho2 & Hal2 & Hce2).
  exists o2. split; [exact Ho2|]. split; congruence.
Qed.

Lemma grows_modify f s u s' :
  grows s (f s) → modify f s = Ret (u, s') → grows s s'.
Proof. intros Hg H. unfold modify in H. inversion H; subst. exact Hg. Qed.

(** an assignment to a type object that leaves [attribute_list] and
    [child_elements] alone, or that is made to a complex type *)
Lemma grows_update_type t f s u s' :
  (∀ o, ty_kind (f o) = ty_kind o) →
  (∀ o, is_Some (ty_cpp_type o) → is_Some (ty_cpp_type (f o))) →
  (∀ o, type_objs s !! t = Some o → is_complex (ty_kind o) = false →
        ty_attribute_list (f o) = ty_attribute_list o ∧
        ty_child_elements (f o) = ty_child_elements o) →
  update_type t f s = Ret (u, s') → grows s s'.
Proof.
  intros Hk Hc Hsimple H.
  destruct (update_type_types_only t f s u s' Hk Hc H) as (He & Ha & Hkind & Hv).
  apply update_type_Ret_inv in H. subst s'.
  split; [exact Hkind|]. split; [intros e; reflexivity|]. split; [exact Hv|].
  repeat split; try reflexivity.
  intros t' o' Ho' Hc'. simpl.
  destruct (type_objs s !! t) as [o|] eqn:Ho; [|exists o'; repeat split; assumption].
  destruct (decide (t = t')) as [<-|Hne].
  - rewrite lookup_insert_eq. exists (f o). split; [reflexivity|].
    rewrite Ho in Ho'. inversion Ho'; subst o'. apply Hsimple; [reflexivity | exact Hc'].
  - rewrite lookup_insert_ne by exact Hne. exists o'. repeat split; assumption.
Qed.

Lemma grows_update_elem e f s u s' :
  (∀ o, el_decl (f o) = el_decl o) →
  update_elem e f s = Ret (u, s') → grows s s'.
Proof.
  intros Hd H. apply update_elem_Ret_inv in H. subst s'.
  split; [intros t; reflexivity|]. split; [|repeat split; try reflexivity].
  - intros e'. simpl. destruct (elem_objs s !! e) as [o|] eqn:Ho; [|reflexivity].
    destruct (decide (e = e')) as [<-|Hne].
    + rewrite lookup_insert_eq, Ho. simpl. rewrite Hd. reflexivity.
    + rewrite lookup_insert_ne by exact Hne. reflexivity.
  - intros t Hv. exact Hv.
  - intros t o Ho _. exists o. repeat split; assumption.
Qed.

Lemma grows_for_each {A} (l : list A) (body : A -> M unit) s u s' :
  (∀ x s u s', x ∈ l → body x s = Ret (u, s') → grows s s') →
  for_each l body s = Ret (u, s') → grows s s'.
Proof.
  revert s. induction l as [|x l IH]; intros s Hb H; simpl in H.
  - apply ret_Ret_inv in H as [_ <-]. apply grows_refl.
  - apply bind_Ret_inv in H as (u1 & s1 & H1 & H).
    eapply grows_trans; [eapply Hb; [left | exact H1]|].
    apply IH; [|exact H]. intros y sa ua sb Hy. apply Hb. right. exact Hy.
Qed.

Ltac grows_set :=
  repeat split; simpl; auto; try reflexivity; try (apply prefix_app_r; reflexivity);
  try set_solver;
  try (let t := fresh in let o := fresh in let Ho := fresh in
       intros t o Ho _; exists o; repeat split; assumption).

(** for the assignments of one field other than [attribute_list] and
    [child_elements] *)
Ltac grows_field H :=
  eapply grows_update_type; [| | |exact H]; intros; simpl; eauto.

Lemma anno_type_restriction_grows t s u s' :
  anno_type_restriction t s = Ret (u, s') → grows s s'.
Proof.
  unfold anno_type_restriction. intros H.
  apply bind_Ret_inv in H as (o & s1 & Ho & H). apply type_obj_Ret_inv in Ho as [_ ->].
  destruct (ty_kind o); try raised H.
  destruct (negb (length validators =? 1)%nat); [raised H|].
  apply bind_Ret_inv in H as (u1 & s1 & H1 & H).
  assert (Hs1 : grows s s1).
  { destruct (String.eqb (ty_name o) "").
    - grows_field H1.
    - apply ret_Ret_inv in H1 as [_ <-]. apply grows_refl. }
  apply bind_Ret_inv in H as (o' & s2 & Ho' & H). apply type_obj_Ret_inv in Ho' as [_ ->].
  apply bind_Ret_inv in H as (u2 & s2 & H2 & H).
  eapply grows_trans; [exact Hs1|].
  eapply grows_trans.
  - grows_field H2.
  - eapply grows_modify; [|exact H]. grows_set.
Qed.

Lemma anno_type_simple_type_grows fuel :
  ∀ t s u s', anno_type_simple_type fuel t s = Ret (u, s') → grows s s'.
Proof.
  induction fuel as [|fuel IH]; intros t s u s' H; [discriminate|].
  simpl in H.
  apply bind_Ret_inv in H as (o & s1 & Ho & H). apply type_obj_Ret_inv in Ho as [_ ->].
  destruct (ty_kind o) eqn:Hk; try raised H.
  - destruct (assoc (ty_name o) atomic_builtins); [|raised H].
    grows_field H.
  - eapply anno_type_restriction_grows; exact H.
  - grows_field H.
  - unfold anno_type_union_with in H.
    apply bind_Ret_inv in H as (o' & s1 & Ho' & H). apply type_obj_Ret_inv in Ho' as [_ ->].
    apply bind_Ret_inv in H as (u1 & s1 & H1 & H).
    eapply grows_trans.
    { grows_field H1. }
    destruct (ty_kind o'); try raised H.
    apply bind_Ret_inv in H as (u2 & s2 & H2 & H).
    eapply grows_trans.
    { eapply grows_for_each; [|exact H2].
      intros m sa ua sb _ Hm.
      apply bind_Ret_inv in Hm as (u3 & s3 & H3 & Hm).
      eapply grows_trans; [eapply IH; exact H3|].
      eapply grows_modify; [|exact Hm]. grows_set. }
    eapply grows_modify; [|exact H]. grows_set.
Qed.

Lemma anno_type_element_with_grows anno_ct fuel e many optional s u s' :
  (∀ T s u s', anno_ct T s = Ret (u, s') → grows s s') →
  anno_type_element_with anno_ct fuel e many optional s = Ret (u, s') → grows s s'.
Proof.
  intros Hct H. unfold anno_type_element_with in H.
  apply bind_Ret_inv in H as (el & s1 & Hel & H). apply elem_obj_Ret_inv in Hel as [_ ->].
  destruct (el_cpp_type el); [apply ret_Ret_inv in H as [_ <-]; apply grows_refl|].
  apply bind_Ret_inv in H as (ty & s1 & Hty & H). apply type_obj_Ret_inv in Hty as [_ ->].
  apply bind_Ret_inv in H as (u1 & s1 & H1 & H).
  assert (Hs1 : grows s s1).
  { destruct (String.eqb (ty_name ty) "").
    - apply bind_Ret_inv in H1 as (u2 & s2 & H2 & H1).
      eapply grows_trans.
      + grows_field H2.
      + eapply grows_modify; [|exact H1]. grows_set.
    - apply ret_Ret_inv in H1 as [_ <-]. apply grows_refl. }
  eapply grows_trans; [exact Hs1|]. clear Hs1 H1.
  apply bind_Ret_inv in H as (go_on & s2 & Hgo & H).
  assert (Hs2 : grows s1 s2).
  { destruct (is_complex (ty_kind ty)).
    - apply bind_Ret_inv in Hgo as (u2 & s3 & H2 & Hgo).
      apply bind_Ret_inv in Hgo as (ty' & s4 & Hty' & Hgo).
      apply type_obj_Ret_inv in Hty' as [_ ->].
      apply ret_Ret_inv in Hgo as [_ <-]. eapply Hct; exact H2.
    - apply bind_Ret_inv in Hgo as (u2 & s3 & H2 & Hgo).
      apply ret_Ret_inv in Hgo as [_ <-]. eapply anno_type_simple_type_grows; exact H2. }
  eapply grows_trans; [exact Hs2|]. clear Hs2 Hgo.
  destruct go_on; [|apply ret_Ret_inv in H as [_ <-]; apply grows_refl].
  apply bind_Ret_inv in H as (u3 & s3 & H3 & H).
  eapply grows_trans; [eapply grows_update_elem; [|exact H3]; intros; reflexivity|].
  apply bind_Ret_inv in H as (u4 & s4 & H4 & H).
  eapply grows_trans.
  { destruct (many || occurs_many (el_occurs el)).
    - eapply grows_modify; [|exact H4]. grows_set.
    - apply ret_Ret_inv in H4 as [_ <-]. apply grows_refl. }
  apply bind_Ret_inv in H as (ty'' & s5 & Hty'' & H). apply type_obj_Ret_inv in Hty'' as [_ ->].
  apply bind_Ret_inv in H as (c & s5 & Hc & H). apply attr_of_Ret_inv in Hc as [_ ->].
  eapply grows_update_elem; [|exact H]. intros; reflexivity.
Qed.

(** the loop of [anno_type_group]: what it returns and that it refuses
    wildcards *)
Lemma group_loop_grows on_group on_element (l : list XsdParticle) :
  (∀ g, PGroup g ∈ l → ∀ s out s', on_group g s = Ret (out, s') →
        grows s s' ∧ out = group_elements g ∧ has_wildcard g = false) →
  (∀ x s u s', on_element x s = Ret (u, s') → grows s s') →
  ∀ s out s', group_loop on_group on_element l s = Ret (out, s') →
    grows s s' ∧ out = flat_map (particle_elements group_elements) l ∧
    existsb (fun p => match p with
                      | PWildcard => true
                      | PGroup g' => has_wildcard g'
                      | PElement _ => false
                      end) l = false.
Proof.
  intros Hgs Hel. revert Hgs. induction l as [|p r IH]; intros Hgs s out s' H; simpl in H.
  - apply ret_Ret_inv in H as [<- <-]. split; [apply grows_refl|]. split; reflexivity.
  - apply bind_Ret_inv in H as (out1 & s1 & H1 & H).
    apply bind_Ret_inv in H as (out2 & s2 & H2 & H).
    apply ret_Ret_inv in H as [<- <-].
    destruct (IH (fun g Hin => Hgs g (list_elem_of_further _ _ _ Hin)) s1 out2 s2 H2)
      as (Hg2 & -> & Hw2).
    destruct p as [x|g|].
    + apply bind_Ret_inv in H1 as (u1 & s3 & Hx & H1).
      apply ret_Ret_inv in H1 as [<- <-].
      split; [eapply grows_trans; [eapply Hel; exact Hx | exact Hg2]|].
      split; [reflexivity | exact Hw2].
    + destruct (Hgs g (list_elem_of_here _ _) s out1 s1 H1) as (Hg1 & -> & Hw1).
      split; [eapply grows_trans; eassumption|].
      split; [reflexivity|]. simpl. rewrite Hw1. exact Hw2.
    + raised H1.
Qed.

Lemma anno_type_group_with_grows anno_el :
  (∀ x many optional s u s', anno_el x many optional s = Ret (u, s') → grows s s') →
  ∀ g many optional s out s',
    anno_type_group_with anno_el g many optional s = Ret (out, s') →
    grows s s' ∧ out = group_elements g ∧ has_wildcard g = false.
Proof.
  intros Hel g. induction g as [occ model members IH] using XsdGroup_nested_ind.
  intros many optional s out s' H. simpl in H.
  apply (group_loop_grows _ _ members) in H; [exact H| |].
  - intros g Hin sa outa sb Ha. exact (IH g Hin _ _ sa outa sb Ha).
  - intros x sa ua sb Ha. exact (Hel x _ _ sa ua sb Ha).
Qed.

Lemma grows_lookup_type s s' t o :
  grows s s' → type_objs s !! t = Some o →
  ∃ o', type_objs s' !! t = Some o' ∧ ty_kind o' = ty_kind o.
Proof.
  intros (Hk & _) Ho. specialize (Hk t). rewrite Ho in Hk.
  destruct (type_objs s' !! t) as [o'|]; [|discriminate].
  exists o'. split; [reflexivity|]. simpl in Hk. congruence.
Qed.

Lemma update_type_lookup t f s u s' o :
  update_type t f s = Ret (u, s') → type_objs s !! t = Some o →
  type_objs s' !! t = Some (f o).
Proof.
  intros H Ho. apply update_type_Ret_inv in H. subst s'. simpl.
  rewrite Ho. apply lookup_insert_eq.
Qed.

Lemma group_elements_no_members occ model members :
  (0 <? length members)%nat = false →
  group_elements (Group occ model members) = [] ∧
  has_wildcard (Group occ model members) = false.
Proof.
  intros H. apply Nat.ltb_ge in H. destruct members; [|simpl in H; lia].
  split; reflexivity.
Qed.

Section AnnotatorGrows.

Variable dfa_from_group : State -> XsdGroup -> outcome DFA.

Lemma model_choice_grows T g s u s' :
  (if String.eqb (g_model g) "all" then
     update_type T (ty_set_model (Some ModelAll))
   else if str_in (g_model g) ["choice"; "sequence"] then
     update_type T (ty_set_model (Some ModelDfa));;
     d ← call_dfa_from_group dfa_from_group g;
     update_type T (ty_set_dfa d)
   else raise (NotImplementedError "Model group is not supported.")) s = Ret (u, s') →
  grows s s'.
Proof.
  intros H. destruct (String.eqb (g_model g) "all").
  - grows_field H.
  - destruct (str_in (g_model g) ["choice"; "sequence"]); [|raised H].
    apply bind_Ret_inv in H as (u1 & s1 & H1 & H).
    apply bind_Ret_inv in H as (d & s2 & Hd & H).
    apply call_dfa_from_group_Ret_inv in Hd as ->.
    eapply grows_trans.
    + grows_field H1.
    + grows_field H.
Qed.

(** a call of the complex-type annotator only adds, and on a type not
    visited before it leaves the flat element list of the content
    model in [child_elements] *)
Lemma anno_type_complex_type_post fuel :
  ∀ t s u s', anno_type_complex_type dfa_from_group fuel t s = Ret (u, s') →
    grows s s' ∧
    ∀ o attrs g, type_objs s !! t = Some o → ty_cpp_type o = None →
      ty_kind o = XsdComplexType attrs (ContentGroup g) →
      ∃ o', type_objs s' !! t = Some o' ∧
            ty_child_elements o' = Some (group_elements g) ∧
            has_wildcard g = false.
Proof.
  induction fuel as [|fuel IH]; intros t s u s' H; [discriminate|].
  simpl in H.
  apply bind_Ret_inv in H as (o & s1 & Ho & H). apply type_obj_Ret_inv in Ho as [Ho ->].
  destruct (ty_cpp_type o) eqn:Hcpp.
  { apply ret_Ret_inv in H as [_ <-]. split; [apply grows_refl|].
    intros o1 attrs g Ho1 Hn. rewrite Ho in Ho1. inversion Ho1; subst. congruence. }
  apply bind_Ret_inv in H as (u1 & s1 & H1 & H).
  assert (G1 : grows s s1) by (grows_field H1).
  destruct (ty_kind o) as [attributes content| | | | |] eqn:Hkind; try raised H.
  apply bind_Ret_inv in H as (u2 & s2 & H2 & H).
  assert (Hcx : ∀ sx ox, grows s sx → type_objs sx !! t = Some ox →
                 is_complex (ty_kind ox) = false → False).
  { intros sx ox (Hkx & _) Hox Hc. specialize (Hkx t). rewrite Ho, Hox in Hkx.
    simpl in Hkx. inversion Hkx as [Hkx']. rewrite Hkx', Hkind in Hc. discriminate Hc. }
  assert (G2 : grows s1 s2).
  { eapply grows_update_type; [| | |exact H2]; intros; simpl; eauto.
    exfalso. eapply (Hcx s1); eassumption. }
  apply bind_Ret_inv in H as (u3 & s3 & H3 & H).
  assert (G3 : grows s2 s3).
  { eapply grows_for_each; [|exact H3]. intros attr sa ua sb _ Ha. cbv beta in Ha.
    destruct (String.eqb (a_use attr) "prohibited"); [raised Ha|].
    eapply anno_type_simple_type_grows; exact Ha. }
  apply bind_Ret_inv in H as (u4 & s4 & H4 & H).
  assert (G4 : grows s3 s4) by (grows_field H4).
  apply bind_Ret_inv in H as (u5 & s5 & H5 & H).
  assert (G04 : grows s s4).
  { eapply grows_trans; [exact G1|]. eapply grows_trans; [exact G2|].
    eapply grows_trans; [exact G3|]. exact G4. }
  assert (G5 : grows s4 s5).
  { eapply grows_update_type; [| | |exact H5]; intros; simpl; eauto.
    exfalso. eapply (Hcx s4); eassumption. }
  assert (G05 : grows s s5) by (eapply grows_trans; [exact G04 | exact G5]).
  destruct content as [g|c].
  - destruct g as [occ model members].
    destruct (0 <? length (g_members (Group occ model members)))%nat eqn:Hlen.
    + apply bind_Ret_inv in H as (u6 & s6 & H6 & H).
      assert (G6 : grows s5 s6) by (eapply model_choice_grows; exact H6).
      apply bind_Ret_inv in H as (ces & s7 & H7 & H).
      apply anno_type_group_with_grows in H7 as (G7 & -> & Hw).
      2:{ intros x many optional sa ua sb Ha.
          eapply anno_type_element_with_grows; [|exact Ha].
          intros T sc uc sd Hc. apply (IH T sc uc sd Hc). }
      assert (G07 : grows s s7).
      { eapply grows_trans; [exact G05|]. eapply grows_trans; [exact G6 | exact G7]. }
      assert (G8 : grows s7 s').
      { eapply grows_update_type; [| | |exact H]; intros; simpl; eauto.
        exfalso. eapply (Hcx s7); eassumption. }
      split; [eapply grows_trans; eassumption|].
      intros o1 attrs g Ho1 _ Hk1. rewrite Ho in Ho1. inversion Ho1; subst o1.
      rewrite Hkind in Hk1. inversion Hk1; subst attrs g.
      destruct (grows_lookup_type _ _ _ _ G07 Ho) as (o7 & Ho7 & _).
      eexists. split; [eapply update_type_lookup; [exact H | exact Ho7]|].
      split; [reflexivity | exact Hw].
    + apply ret_Ret_inv in H as [_ <-]. split; [exact G05|].
      intros o1 attrs g Ho1 _ Hk1. rewrite Ho in Ho1. inversion Ho1; subst o1.
      rewrite Hkind in Hk1. inversion Hk1; subst attrs g.
      destruct (group_elements_no_members occ model members Hlen) as [-> ->].
      destruct (grows_lookup_type _ _ _ _ G04 Ho) as (o4 & Ho4 & _).
      eexists. split; [eapply update_type_lookup; [exact H5 | exact Ho4]|].
      split; reflexivity.
  - split.
    + eapply grows_trans; [exact G05|]. eapply anno_type_simple_type_grows; exact H.
    + intros o1 attrs g Ho1 _ Hk1. rewrite Ho in Ho1. inversion Ho1; subst o1.
      rewrite Hkind in Hk1. discriminate Hk1.
Qed.

Lemma anno_type_element_grows fuel e many optional s u s' :
  anno_type_element dfa_from_group fuel e many optional s = Ret (u, s') → grows s s'.
Proof.
  intros H. eapply anno_type_element_with_grows; [|exact H].
  intros T sa ua sb Ha. apply (anno_type_complex_type_post fuel T sa ua sb Ha).
Qed.

End AnnotatorGrows.

Lemma annotate_grows dfa_from_group fuel s s' :
  annotate dfa_from_group fuel s = Ret (tt, s') → grows s s'.
Proof.
  unfold annotate. intros H.
  apply bind_Ret_inv in H as (s0 & s1 & Hg & H). apply get_Ret_inv in Hg as [-> ->].
  apply bind_Ret_inv in H as (u1 & s1 & H1 & H).
  eapply grows_trans.
  - eapply grows_for_each; [|exact H1]. intros t sa ua sb _ Ha.
    apply (anno_type_complex_type_post dfa_from_group fuel t sa ua sb Ha).
  - eapply grows_for_each; [|exact H]. intros e sa ua sb _ Ha.
    eapply anno_type_element_grows; exact Ha.
Qed.

Lemma fmap_lookup_dom `{Countable K} {A B} (f : A -> B) (m m' : gmap K A) :
  (∀ k, f <$> (m' !! k) = f <$> (m !! k)) → dom m' = dom m.
Proof.
  intros Hf. apply set_eq. intros k. rewrite !elem_of_dom.
  specialize (Hf k). destruct (m' !! k), (m !! k); try discriminate Hf;
    split; intros [x Hx]; try discriminate Hx; eauto.
Qed.

(** X9: the annotation pass only adds to what the schema library
    handed over.  Every type object keeps its class and every element
    its name, occurrence bounds and type; no object appears or
    disappears; a [cpp_type] once attached is never removed; an object
    that is not a complex type gets neither an [attribute_list] nor
    [child_elements]; the lists of anonymous types, enumerations and
    unions are extended at their end and the sets of union member types
    and arena types only gain members; the lists of named types and
    root elements and the diagnostic stream are as before. *)
Theorem annotate_only_adds dfa_from_group (fuel : nat) (s s' : State) :
  annotate dfa_from_group fuel s = Ret (tt, s') →
  grows s s' ∧
  dom (type_objs s') = dom (type_objs s) ∧ dom (elem_objs s') = dom (elem_objs s).
Proof.
  intros H. pose proof (annotate_grows _ _ _ _ H) as G.
  split; [exact G|]. destruct G as (Hk & He & _).
  split; [exact (fmap_lookup_dom _ _ _ Hk) | exact (fmap_lookup_dom _ _ _ He)].
Qed.

Lemma annotate_only_adds_witness :
  grows Fixtures.union_enum_schema (Fixtures.annotated_unsorted Fixtures.union_enum_schema).
Proof.
  apply (annotate_only_adds Fixtures.unit_dfa 10). vm_compute. reflexivity.
Defined.

(** X10: when the complex-type annotator returns from a type it had
    not visited, the type's [child_elements] is the list of the element
    declarations of its content model in document order, with nested
    groups inlined at their place, and the content model holds no
    wildcard at any depth: on a content model with a wildcard the call
    does not return a result. *)
Theorem complex_type_child_elements_flat dfa_from_group (fuel : nat) (t : tid)
    (s s' : State) (o : XsdType) (attrs : list XsdAttribute) (g : XsdGroup) :
  type_objs s !! t = Some o → ty_cpp_type o = None →
  ty_kind o = XsdComplexType attrs (ContentGroup g) →
  anno_type_complex_type dfa_from_group fuel t s = Ret (tt, s') →
  ∃ o', type_objs s' !! t = Some o' ∧
        ty_child_elements o' = Some (group_elements g) ∧
        has_wildcard g = false.
Proof.
  intros Ho Hc Hk H.
  exact (proj2 (anno_type_complex_type_post dfa_from_group fuel t s tt s' H) o attrs g Ho Hc Hk).
Qed.

Lemma complex_type_child_elements_flat_witness :
  ∃ s' o', anno_type_complex_type Fixtures.unit_dfa 10 0 Fixtures.shared_group_schema
             = Ret (tt, s') ∧
           type_objs s' !! 0 = Some o' ∧
           ty_child_elements o' = Some [0].
Proof.
  destruct (anno_type_complex_type Fixtures.unit_dfa 10 0 Fixtures.shared_group_schema)
    as [[[] s']| |] eqn:E; [|vm_compute in E; discriminate..].
  destruct (complex_type_child_elements_flat Fixtures.unit_dfa 10 0
              Fixtures.shared_group_schema s' _ _ _ eq_refl eq_refl eq_refl E)
    as (o' & Ho' & Hces & _).
  exists s', o'. split; [reflexivity|]. split; [exact Ho' | exact Hces].
Defined.

(** ** What the emitters do to the state *)

Lemma warns_refl s : warns s s.
Proof.
  exists []. split; [|constructor]. destruct s; unfold set_stderr; simpl.
  rewrite app_nil_r. reflexivity.
Qed.

Lemma warns_trans s1 s2 s3 : warns s1 s2 → warns s2 s3 → warns s1 s3.
Proof.
  intros (w1 & -> & H1) (w2 & -> & H2). exists (w1 ++ w2).
  split; [|apply Forall_app; split; assumption].
  unfold set_stderr; simpl. rewrite app_assoc. reflexivity.
Qed.

Lemma warns_graph s s' :
  warns s s' → type_objs s' = type_objs s ∧ elem_objs s' = elem_objs s.
Proof. intros (w & -> & _). split; reflexivity. Qed.

Lemma steps_ret {A} (a : A) : steps warns (ret a).
Proof. intros s b s' H. apply ret_Ret_inv in H as [_ <-]. apply warns_refl. Qed.

Lemma steps_bind {A B} (m : M A) (k : A -> M B) :
  steps warns m → (∀ a, steps warns (k a)) → steps warns (m ≫= k).
Proof.
  intros Hm Hk s b s' H. apply bind_Ret_inv in H as (a & s1 & H1 & H2).
  eapply warns_trans; [eapply Hm; exact H1 | eapply Hk; exact H2].
Qed.

Lemma steps_read_only {A} (m : M A) : read_only m → steps warns m.
Proof. intros Hm s a s' H. apply Hm in H as ->. apply warns_refl. Qed.

Lemma steps_checked x : steps warns (checked x).
Proof.
  intros s a s' H. unfold checked in H. destruct (str_in x cpp_keywords) eqn:Hk.
  - inversion H; subst. exists [keyword_warning x].
    split; [reflexivity|]. constructor; [|constructor]. exists x. split; [exact Hk | reflexivity].
  - apply ret_Ret_inv in H as [_ <-]. apply warns_refl.
Qed.

Lemma steps_concat_m {A} (f : A -> M string) (l : list A) :
  (∀ x, steps warns (f x)) → steps warns (concat_m f l).
Proof.
  intros Hf. induction l as [|x l IH]; simpl.
  - apply steps_ret.
  - apply steps_bind; [apply Hf|]. intros y.
    apply steps_bind; [exact IH|]. intros ys. apply steps_ret.
Qed.

Lemma read_only_get : read_only get.
Proof. intros s a s' H. apply get_Ret_inv in H as [_ ->]. reflexivity. Qed.

Lemma read_only_cpp_type_of t : read_only (cpp_type_of t).
Proof. unfold cpp_type_of. read_only_tac. Qed.

Lemma read_only_name_of t : read_only (name_of t).
Proof. unfold name_of. read_only_tac. Qed.

Lemma read_only_load_format n i : read_only (load_format n i).
Proof. unfold load_format. read_only_tac. Qed.

Lemma read_only_sorted_arena_types : read_only sorted_arena_types.
Proof.
  unfold sorted_arena_types.
  apply read_only_bind; [apply read_only_get|]. intros s.
  apply read_only_bind; [|intros ?; apply read_only_ret].
  apply read_only_map_m. intros t.
  apply read_only_bind; [apply read_only_name_of | intros ?; apply read_only_ret].
Qed.

Lemma read_only_el_many_of el : read_only (el_many_of el).
Proof. apply read_only_attr_of. Qed.

Lemma read_only_el_optional_of el : read_only (el_optional_of el).
Proof. apply read_only_attr_of. Qed.

Lemma read_only_el_cpp_type_of el : read_only (el_cpp_type_of el).
Proof. apply read_only_attr_of. Qed.

Lemma read_only_ty_attributes o : read_only (ty_attributes o).
Proof. unfold ty_attributes. read_only_tac. Qed.

Lemma read_only_enumeration_of o : read_only (enumeration_of o).
Proof. unfold enumeration_of. read_only_tac. Qed.

#[local] Hint Resolve read_only_get read_only_cpp_type_of read_only_name_of
  read_only_load_format read_only_sorted_arena_types read_only_el_many_of
  read_only_el_optional_of read_only_el_cpp_type_of read_only_ty_attributes
  read_only_enumeration_of : read_only.

Lemma read_only_gen_load_union t c i : read_only (_gen_load_union t c i).
Proof. unfold _gen_load_union, _gen_load_union_member. read_only_tac. Qed.

Lemma read_only_gen_load_simple t c i : read_only (_gen_load_simple t c i).
Proof.
  unfold _gen_load_simple.
  apply read_only_bind; [apply read_only_type_obj|]. intros o.
  destruct (ty_kind o); try solve [read_only_tac].
  apply read_only_gen_load_union.
Qed.

Lemma read_only_gen_load_element e p : read_only (_gen_load_element e p).
Proof. unfold _gen_load_element, _gen_load_element_complex. read_only_tac. Qed.

#[local] Hint Resolve read_only_gen_load_simple read_only_gen_load_element : read_only.

Create HintDb steps.
#[local] Hint Resolve steps_ret steps_checked : steps.

Ltac steps_tac :=
  repeat first
    [ solve [auto with steps]
    | solve [apply steps_read_only; read_only_tac]
    | apply steps_concat_m; intros ?
    | apply steps_bind; [|intros ?]
    | match goal with
      | |- steps warns (if ?b then _ else _) => destruct b
      | |- steps warns (match ?x with _ => _ end) => destruct x
      end ].

Lemma steps_typedefn_from_complex_type t : steps warns (typedefn_from_complex_type t).
Proof. unfold typedefn_from_complex_type. steps_tac. Qed.

Lemma steps_gen_load_attrs t : steps warns (_gen_load_attrs t).
Proof. unfold _gen_load_attrs. steps_tac. Qed.

Lemma read_only_gen_load_group t : read_only (_gen_load_group t).
Proof. unfold _gen_load_group. read_only_tac. Qed.

Lemma steps_load_fn_from_complex_type t : steps warns (load_fn_from_complex_type t).
Proof.
  unfold load_fn_from_complex_type.
  pose proof (steps_gen_load_attrs t). pose proof (read_only_gen_load_group t).
  steps_tac.
Qed.

Lemma steps_gen_write_simple fuel :
  ∀ t c a, steps warns (_gen_write_simple fuel t c a).
Proof.
  induction fuel as [|fuel IH]; intros t c a; [intros s x s' H; discriminate H|].
  simpl. steps_tac.
Qed.

Lemma steps_gen_write_attr fuel a c : steps warns (_gen_write_attr fuel a c).
Proof.
  unfold _gen_write_attr. pose proof (steps_gen_write_simple fuel). steps_tac.
Qed.

Lemma steps_gen_write_element fuel :
  ∀ e c l, steps warns (_gen_write_element fuel e c l).
Proof.
  induction fuel as [|fuel IH]; intros e c l; [intros s x s' H; discriminate H|].
  simpl. pose proof (steps_gen_write_attr fuel). pose proof (steps_gen_write_simple fuel).
  steps_tac.
Qed.

Lemma steps_gen_write_fn fuel e : steps warns (gen_write_fn fuel e).
Proof. unfold gen_write_fn. pose proof (steps_gen_write_element fuel). steps_tac. Qed.

Lemma steps_struct_definitions : steps warns struct_definitions.
Proof. unfold struct_definitions. pose proof steps_typedefn_from_complex_type. steps_tac. Qed.

Lemma steps_load_fn_definitions : steps warns load_fn_definitions.
Proof. unfold load_fn_definitions. pose proof steps_load_fn_from_complex_type. steps_tac. Qed.

Lemma steps_write_section fuel : steps warns (write_section fuel).
Proof. unfold write_section. pose proof (steps_gen_write_fn fuel). steps_tac. Qed.

Lemma read_only_type_tag_definition set_iter : read_only (type_tag_definition set_iter).
Proof. unfold type_tag_definition. read_only_tac. Qed.

Lemma read_only_gen_init_fn : read_only gen_init_fn.
Proof. unfold gen_init_fn. read_only_tac. Qed.






(** ** The writer on recursive schemas *)

Lemma cyclic_elements_warns s s' R :
  warns s s' → cyclic_elements s R → cyclic_elements s' R.
Proof.
  intros Hw Hc e He. apply warns_graph in Hw as [Ht Hel].
  rewrite Ht, Hel. exact (Hc e He).
Qed.

(** a loop that returned has run its body on every item *)
Lemma concat_m_Ret_elem {A} (f : A -> M string) (l : list A) s out s' x :
  (∀ y, steps warns (f y)) →
  concat_m f l s = Ret (out, s') → x ∈ l →
  ∃ s1 o1 s2, warns s s1 ∧ f x s1 = Ret (o1, s2).
Proof.
  intros Hf. revert s out s'. induction l as [|y l IH]; intros s out s' H Hin; [inversion Hin|].
  simpl in H.
  apply bind_Ret_inv in H as (o1 & s1 & H1 & H).
  apply bind_Ret_inv in H as (o2 & s2 & H2 & H).
  apply elem_of_cons in Hin as [->|Hin].
  - exists s, o1, s1. split; [apply warns_refl | exact H1].
  - destruct (IH s1 o2 s2 H2 Hin) as (sa & oa & sb & Hw & Ha).
    exists sa, oa, sb. split; [|exact Ha].
    eapply warns_trans; [eapply Hf; exact H1 | exact Hw].
Qed.

Lemma gen_write_element_cycle (R : eid -> Prop) (fuel : nat) :
  ∀ e c l s out s', cyclic_elements s R → R e →
    _gen_write_element fuel e c l s ≠ Ret (out, s').
Proof.
  induction fuel as [|fuel IH]; intros e c l s out s' Hcyc He; [intros H; discriminate H|].
  destruct (Hcyc e He) as (el & ety & ces & c0 & Hel & Hety & Hces & Hin & Hc0).
  intros H. simpl in H.
  apply bind_Ret_inv in H as (el' & s1 & Hel' & H).
  apply elem_obj_Ret_inv in Hel' as [Hel' ->].
  rewrite Hel in Hel'. inversion Hel'; subst el'. clear Hel'.
  apply bind_Ret_inv in H as (ety' & s1 & Hety' & H).
  apply type_obj_Ret_inv in Hety' as [Hety' ->].
  rewrite Hety in Hety'. inversion Hety'; subst ety'. clear Hety'.
  apply bind_Ret_inv in H as (attribute_list & s1 & Ha & H).
  apply attr_of_Ret_inv in Ha as [Ha ->].
  apply bind_Ret_inv in H as (open & s1 & Hopen & H).
  assert (W1 : warns s s1).
  { revert Hopen. generalize s open s1.
    change (steps warns
      (match attribute_list with
       | [] => ret ("os << " +:+ dq +:+ "<" +:+ el_name el +:+ ">" +:+ dq +:+ ";" +:+ nl)
       | _ :: _ =>
           attrs ← concat_m (fun a => _gen_write_attr fuel a c) attribute_list;
           ret ("os << " +:+ dq +:+ "<" +:+ el_name el +:+ dq +:+ ";" +:+ nl +:+
                attrs +:+ "os << " +:+ dq +:+ ">" +:+ dq +:+ ";" +:+ nl)
       end)).
    pose proof (steps_gen_write_attr fuel). steps_tac. }
  apply bind_Ret_inv in H as (ces' & s2 & Hces' & H).
  apply attr_of_Ret_inv in Hces' as [Hces' ->].
  rewrite Hces in Hces'. inversion Hces'; subst ces'. clear Hces'.
  apply bind_Ret_inv in H as (children & s2 & Hch & _).
  apply (concat_m_Ret_elem _ _ _ _ _ c0) in Hch as (sa & oa & sb & W2 & Hbody);
    [|intros y; pose proof (steps_gen_write_element fuel); steps_tac | exact Hin].
  assert (Hcyc_a : cyclic_elements sa R).
  { eapply cyclic_elements_warns; [|exact Hcyc]. eapply warns_trans; eassumption. }
  cbv beta in Hbody.
  apply bind_Ret_inv in Hbody as (ce & s3 & Hce & Hbody).
  apply elem_obj_Ret_inv in Hce as [_ ->].
  apply bind_Ret_inv in Hbody as (many & s3 & Hmany & Hbody).
  apply attr_of_Ret_inv in Hmany as [_ ->].
  destruct many.
  - apply bind_Ret_inv in Hbody as (n1 & s3 & Hn1 & Hbody).
    apply bind_Ret_inv in Hbody as (n2 & s4 & Hn2 & Hbody).
    apply bind_Ret_inv in Hbody as (inner & s5 & Hinner & _).
    revert Hinner. apply IH; [|exact Hc0].
    eapply cyclic_elements_warns; [|exact Hcyc_a].
    eapply warns_trans; [eapply steps_checked; exact Hn1 | eapply steps_checked; exact Hn2].
  - apply bind_Ret_inv in Hbody as (optional & s3 & Hopt & Hbody).
    apply attr_of_Ret_inv in Hopt as [_ ->].
    destruct optional.
    + apply bind_Ret_inv in Hbody as (inner & s5 & Hinner & _).
      revert Hinner. apply IH; [exact Hcyc_a | exact Hc0].
    + revert Hbody. apply IH; [exact Hcyc_a | exact Hc0].
Qed.

(** X13: the writer does not cope with recursion in the schema.  If
    from an element the element graph never runs out (each element has,
    in its type, a child element that is of that kind again, as for an
    element whose type contains an element of the same type), then
    [_gen_write_element] does not return for it, whatever recursion
    depth is allowed: it either raises or recurses without end.  With such
    an element as the first root, no write function is emitted. *)
Theorem writer_never_returns_on_recursion (s : State) (R : eid -> Prop) (fuel : nat)
    (e : eid) :
  cyclic_elements s R → R e →
  (∀ c l out s', _gen_write_element fuel e c l s ≠ Ret (out, s')) ∧
  (∀ out s', gen_write_fn fuel e s ≠ Ret (out, s')) ∧
  (∀ rest out s', elements s = e :: rest → write_section fuel s ≠ Ret (out, s')).
Proof.
  intros Hcyc He.
  assert (Hfn : ∀ out s', gen_write_fn fuel e s ≠ Ret (out, s')).
  { intros out s' H. unfold gen_write_fn in H.
    apply bind_Ret_inv in H as (el & s1 & Hel & H).
    apply elem_obj_Ret_inv in Hel as [_ ->].
    apply bind_Ret_inv in H as (body & s1 & Hbody & _).
    revert Hbody. apply (gen_write_element_cycle R); assumption. }
  split; [|split; [exact Hfn|]].
  - intros c l out s'. apply (gen_write_element_cycle R); assumption.
  - intros rest out s' Hroots H. unfold write_section in H.
    apply bind_Ret_inv in H as (s0 & s1 & Hg & H). apply get_Ret_inv in Hg as [-> ->].
    rewrite Hroots in H. exact (Hfn out s' H).
Qed.

Lemma writer_never_returns_on_recursion_witness :
  match _gen_write_element 50 0 "x" 0 (Fixtures.annotated Fixtures.recursive_schema) with
  | Ret _ => False
  | _ => True
  end.
Proof.
  destruct (_gen_write_element 50 0 "x" 0 (Fixtures.annotated Fixtures.recursive_schema))
    as [[out s']| |] eqn:E; [|exact I..].
  revert E.
  apply (writer_never_returns_on_recursion
           (Fixtures.annotated Fixtures.recursive_schema) (fun e => e = 0) 50 0).
  - intros e ->. eexists _, _, _, 0.
    split; [vm_compute; reflexivity|]. split; [vm_compute; reflexivity|].
    split; [vm_compute; reflexivity|]. split; [apply list_elem_of_here | reflexivity].
  - reflexivity.
Defined.

(** ** Which element types the script supports *)

Lemma sort_types_frame fuel s s' :
  sort_types fuel s = Ret (tt, s') →
  type_objs s' = type_objs s ∧ elem_objs s' = elem_objs s ∧ elements s' = elements s ∧
  ∀ T, T ∈ types s' → ∃ k, sort_key fuel s T = Ret k.
Proof.
  unfold sort_types. intros H.
  apply bind_Ret_inv in H as (s0 & s1 & Hg & H). apply get_Ret_inv in Hg as [-> ->].
  apply bind_Ret_inv in H as (keys & s1 & Hk & H).
  apply map_m_sort_key_inv in Hk as [-> HF].
  unfold modify in H. inversion H; subst. simpl.
  split; [reflexivity|]. split; [reflexivity|]. split; [reflexivity|].
  intros T HT. apply list_elem_of_fmap in HT as ([k T'] & -> & Hin). exists k. simpl.
  apply (proj1 (elem_of_stable_sort _ _)) in Hin.
  exact (elem_of_zip_Forall2 _ _ _ _ _ HF Hin).
Qed.

(** every type the walk has added to [visited] carries its child list,
    and the types in it are in [visited] too *)
Lemma key_ctype_walked s fuel :
  ∀ x V k V', key_ctype fuel s x V = Ret (k, V') →
    x ∈ V' ∧ V ⊆ V' ∧
    ∀ v, v ∈ V' → v ∈ V ∨ ∃ ys, child_types s v = Ret ys ∧ ∀ y, y ∈ ys → y ∈ V'.
Proof.
  induction fuel as [|fuel IH]; intros x V k V' H; [discriminate|].
  simpl in H. destruct (decide (x ∈ V)) as [Hin|Hnin].
  { inversion H; subst. split; [exact Hin|]. split; [set_solver|]. intros v Hv. left. exact Hv. }
  destruct (child_types s x) as [ys| |] eqn:Hys; try discriminate.
  destruct (key_ctype_children (key_ctype fuel s) ys ({[x]} ∪ V)) as [[ks W]| |] eqn:Hc;
    try discriminate.
  inversion H; subst k V'. clear H.
  assert (Hgen : ∀ ys W0 ks W,
            key_ctype_children (key_ctype fuel s) ys W0 = Ret (ks, W) →
            W0 ⊆ W ∧ (∀ y, y ∈ ys → y ∈ W) ∧
            ∀ v, v ∈ W → v ∈ W0 ∨ ∃ zs, child_types s v = Ret zs ∧ ∀ z, z ∈ zs → z ∈ W).
  { clear -IH. intros ys. induction ys as [|y ys IHys]; intros W0 ks W Hc; simpl in Hc.
    - inversion Hc; subst. split; [set_solver|]. split; [intros y Hy; inversion Hy|].
      intros v Hv. left. exact Hv.
    - destruct (key_ctype fuel s y W0) as [[k1 W1]| |] eqn:Hk1; try discriminate.
      destruct (key_ctype_children (key_ctype fuel s) ys W1) as [[ks1 W2]| |] eqn:Hc1;
        try discriminate.
      inversion Hc; subst ks W. clear Hc.
      destruct (IH y W0 k1 W1 Hk1) as (Hy1 & Hsub1 & Hw1).
      destruct (IHys W1 ks1 W2 Hc1) as (Hsub2 & Hys2 & Hw2).
      split; [set_solver|]. split.
      + intros y' Hy'. apply elem_of_cons in Hy' as [->|Hy']; [set_solver | apply Hys2, Hy'].
      + intros v Hv. destruct (Hw2 v Hv) as [Hv1|Hv2]; [|right; exact Hv2].
        destruct (Hw1 v Hv1) as [Hv0|(zs & Hzs & Hz)]; [left; exact Hv0|].
        right. exists zs. split; [exact Hzs|]. intros z Hzin. apply Hsub2, Hz, Hzin. }
  destruct (Hgen ys _ ks W Hc) as (Hsub & Hall & Hw).
  split; [set_solver|]. split; [set_solver|].
  intros v Hv. destruct (Hw v Hv) as [Hv0|Hv1]; [|right; exact Hv1].
  apply elem_of_union in Hv0 as [Hx|Hv0]; [|left; exact Hv0].
  apply elem_of_singleton in Hx as ->. right. exists ys. split; [exact Hys | exact Hall].
Qed.

Lemma child_types_Ret_inv s x ys :
  child_types s x = Ret ys →
  ∃ o ces, type_objs s !! x = Some o ∧ ty_child_elements o = Some ces ∧
           ∀ c el, c ∈ ces → elem_objs s !! c = Some el → el_type el ∈ ys.
Proof.
  unfold child_types. intros H.
  destruct (type_objs s !! x) as [o|] eqn:Ho; [|discriminate].
  destruct (ty_child_elements o) as [ces|] eqn:Hces; [|discriminate].
  destruct (mapM (fun e => el_type <$> elem_objs s !! e) ces) as [l|] eqn:Hm; [|discriminate].
  inversion H; subst l. exists o, ces. split; [reflexivity|]. split; [exact Hces|].
  intros c el Hc Hel. apply mapM_Some_1 in Hm.
  apply list_elem_of_lookup in Hc as [i Hi].
  destruct (Forall2_lookup_l _ _ _ _ _ Hm Hi) as (y & Hy & Heq).
  rewrite Hel in Heq. simpl in Heq. inversion Heq; subst y.
  eapply list_elem_of_lookup_2, Hy.
Qed.

(** the load emitter knows complex types and built-ins *)
Lemma gen_load_element_refuses e parent s el ety :
  elem_objs s !! e = Some el → type_objs s !! el_type el = Some ety →
  is_complex (ty_kind ety) = false → ty_kind ety ≠ XsdAtomicBuiltin →
  _gen_load_element e parent s =
    Raise (NotImplementedError "I don't know how to load this.").
Proof.
  intros Hel Hety Hc Hb. unfold _gen_load_element.
  erewrite bind_Ret by (apply elem_obj_Ret; exact Hel).
  erewrite bind_Ret by (apply type_obj_Ret; exact Hety).
  destruct (ty_kind ety); try reflexivity; [discriminate Hc | contradiction].
Qed.

(** the write emitter reads [attribute_list] off the type of the
    element first of all *)
Lemma gen_write_element_needs_attribute_list e s el ety fuel c l out s' :
  elem_objs s !! e = Some el → type_objs s !! el_type el = Some ety →
  ty_attribute_list ety = None →
  _gen_write_element fuel e c l s ≠ Ret (out, s').
Proof.
  intros Hel Hety Hal H. destruct fuel as [|fuel]; [discriminate H|].
  simpl in H.
  erewrite bind_Ret in H by (apply elem_obj_Ret; exact Hel).
  erewrite bind_Ret in H by (apply type_obj_Ret; exact Hety).
  rewrite Hal in H. discriminate H.
Qed.

Lemma enumerate_elem {A} (l : list A) (x : A) :
  x ∈ l → ∃ i, (i, x) ∈ enumerate l.
Proof.
  intros Hin. apply list_elem_of_lookup in Hin as [i Hi]. exists i.
  apply list_elem_of_lookup. exists i. unfold enumerate.
  apply lookup_zip_Some. split; [|exact Hi].
  apply lookup_seq. split; [reflexivity|]. eapply lookup_lt_Some, Hi.
Qed.

Section Supported.

Variable dfa_from_group : State -> XsdGroup -> outcome DFA.
Variable set_iter : list string -> list string.

(** the stations of a run of the script that returns *)
Lemma generator_Ret_inv fuel s out s' :
  generator dfa_from_group set_iter fuel s = Ret (out, s') →
  ∃ s1 s2 s5 init w,
    annotate dfa_from_group fuel s = Ret (tt, s1) ∧
    sort_types fuel s1 = Ret (tt, s2) ∧
    warns s2 s5 ∧
    gen_init_fn s5 = Ret (init, s5) ∧
    write_section fuel s5 = Ret (w, s').
Proof.
  unfold generator. intros H.
  apply bind_Ret_inv in H as ([] & s1 & H1 & H).
  apply bind_Ret_inv in H as ([] & s2 & H2 & H).
  apply bind_Ret_inv in H as (structs & s3 & H3 & H).
  apply bind_Ret_inv in H as (tags & s4 & H4 & H).
  apply bind_Ret_inv in H as (loads & s5 & H5 & H).
  apply bind_Ret_inv in H as (s6 & s7 & H6 & H). apply get_Ret_inv in H6 as [-> ->].
  apply bind_Ret_inv in H as (init & s6 & H7 & H).
  apply bind_Ret_inv in H as (w & s8 & H8 & H).
  apply ret_Ret_inv in H as [_ <-].
  apply read_only_type_tag_definition in H4 as ->.
  pose proof (read_only_gen_init_fn _ _ _ H7) as ->.
  exists s1, s2, s5, init, w.
  split; [exact H1|]. split; [exact H2|]. split; [|split; assumption].
  eapply warns_trans; [eapply steps_struct_definitions; exact H3|].
  eapply steps_load_fn_definitions; exact H5.
Qed.

(** X14: what a schema must look like for the script to print its
    code.  Whenever the script returns, (1) there is a root element and
    the first one, the one the writer is made for, has a complex type;
    (2) every root element has a complex or a built-in type, the two the
    load emitter knows; (3) in the final graph every child element of
    every emitted type has a complex type: the height sort reads
    [child_elements] off the type of each child, which only complex
    types carry.  Data of simple type is supported in attributes and
    simple content only. *)
Theorem generator_needs_complex_elements (fuel : nat) (s : State) (out : list string)
    (s' : State) :
  pristine_simple s →
  generator dfa_from_group set_iter fuel s = Ret (out, s') →
  (∃ e rest, elements s = e :: rest ∧
     ∀ el ety, elem_objs s !! e = Some el → type_objs s !! el_type el = Some ety →
               is_complex (ty_kind ety) = true) ∧
  (∀ e el ety, e ∈ elements s → elem_objs s !! e = Some el →
     type_objs s !! el_type el = Some ety →
     is_complex (ty_kind ety) = true ∨ ty_kind ety = XsdAtomicBuiltin) ∧
  (∀ T oT ces c el ety,
     T ∈ types s' → type_objs s' !! T = Some oT → ty_child_elements oT = Some ces →
     c ∈ ces → elem_objs s' !! c = Some el → type_objs s' !! el_type el = Some ety →
     is_complex (ty_kind ety) = true).
Proof.
  intros Hpr H.
  apply generator_Ret_inv in H as (s1 & s2 & s5 & init & w & Hanno & Hsort & W & Hinit & Hw).
  pose proof (annotate_grows dfa_from_group fuel s s1 Hanno) as G.
  destruct (sort_types_frame _ _ _ Hsort) as (Ht2 & He2 & Hr2 & Hkeys).
  destruct (warns_graph _ _ W) as (Ht5 & He5).
  assert (Hr5 : elements s5 = elements s).
  { destruct W as (ws & -> & _). simpl. rewrite Hr2. apply G. }
  assert (Hty5 : types s5 = types s2) by (destruct W as (ws & -> & _); reflexivity).
  assert (W' : warns s5 s') by (eapply steps_write_section; exact Hw).
  (* the graph the emitters see is the annotated one *)
  assert (Hgraph : type_objs s5 = type_objs s1 ∧ elem_objs s5 = elem_objs s1)
    by (split; congruence).
  destruct Hgraph as (Hts & Hes).
  (* objects of the input and of the annotated graph *)
  assert (Helem : ∀ e el, elem_objs s !! e = Some el →
                    ∃ el1, elem_objs s1 !! e = Some el1 ∧ el_type el1 = el_type el).
  { intros e el Hel. destruct G as (_ & Hd & _). specialize (Hd e). rewrite Hel in Hd.
    destruct (elem_objs s1 !! e) as [el1|]; [|discriminate Hd].
    exists el1. split; [reflexivity|]. simpl in Hd. inversion Hd. reflexivity. }
  assert (Hsimple : ∀ t o1, type_objs s1 !! t = Some o1 → is_complex (ty_kind o1) = false →
                      ty_attribute_list o1 = None ∧ ty_child_elements o1 = None).
  { intros t o1 Ho1 Hc. pose proof G as (Hk & _). specialize (Hk t). rewrite Ho1 in Hk.
    destruct (type_objs s !! t) as [o|] eqn:Ho; [|discriminate Hk].
    simpl in Hk. inversion Hk as [Hk'].
    assert (Hc0 : is_complex (ty_kind o) = false) by (rewrite <- Hk'; exact Hc).
    destruct G as (_ & _ & _ & _ & _ & _ & _ & _ & _ & _ & _ & Hsi).
    destruct (Hsi t o Ho Hc0) as (o1' & Ho1' & Hal & Hce).
    rewrite Ho1 in Ho1'. inversion Ho1'; subst o1'.
    destruct (Hpr t o Ho Hc0) as (Hal0 & Hce0). split; congruence. }
  assert (Hkind : ∀ t o, type_objs s !! t = Some o →
                    ∃ o1, type_objs s1 !! t = Some o1 ∧ ty_kind o1 = ty_kind o).
  { intros t o Ho. eapply grows_lookup_type; eassumption. }
  split; [|split].
  - unfold write_section in Hw.
    apply bind_Ret_inv in Hw as (s0 & sx & Hg & Hw). apply get_Ret_inv in Hg as [-> ->].
    rewrite Hr5 in Hw. destruct (elements s) as [|e rest]; [raised Hw|].
    exists e, rest. split; [reflexivity|]. intros el ety Hel Hety.
    destruct (is_complex (ty_kind ety)) eqn:Hc; [reflexivity|]. exfalso.
    destruct (Helem e el Hel) as (el1 & Hel1 & Hty).
    destruct (Hkind _ _ Hety) as (ety1 & Hety1 & Hk1).
    assert (Hc1 : is_complex (ty_kind ety1) = false) by (rewrite Hk1; exact Hc).
    destruct (Hsimple _ _ Hety1 Hc1) as (Hal & _).
    unfold gen_write_fn in Hw.
    apply bind_Ret_inv in Hw as (el5 & sx & Hel5 & Hw).
    apply elem_obj_Ret_inv in Hel5 as [_ ->].
    apply bind_Ret_inv in Hw as (body & sx & Hbody & _).
    revert Hbody. eapply gen_write_element_needs_attribute_list; [| |exact Hal].
    + rewrite Hes. exact Hel1.
    + rewrite Hts, Hty. exact Hety1.
  - intros e el ety Hin Hel Hety.
    destruct (is_complex (ty_kind ety)) eqn:Hc; [left; reflexivity|]. right.
    assert (Hrefuse : ty_kind ety ≠ XsdAtomicBuiltin → False);
      [|destruct (ty_kind ety); try reflexivity; exfalso; apply Hrefuse; discriminate].
    intros Hb.
    destruct (Helem e el Hel) as (el1 & Hel1 & Hty).
    destruct (Hkind _ _ Hety) as (ety1 & Hety1 & Hk1).
    unfold gen_init_fn in Hinit.
    apply bind_Ret_inv in Hinit as (s0 & sx & Hg & Hinit). apply get_Ret_inv in Hg as [-> ->].
    apply bind_Ret_inv in Hinit as (branches & sx & Hbr & _).
    rewrite Hr5 in Hbr. destruct (enumerate_elem _ _ Hin) as (i & Hi).
    apply (concat_m_Ret_elem _ _ _ _ _ (i, e)) in Hbr as (sa & oa & sb & Wa & Hbody);
      [|intros [j y]; apply steps_read_only; read_only_tac | exact Hi].
    destruct (warns_graph _ _ Wa) as (Hta & Hea).
    cbv beta iota in Hbody.
    apply bind_Ret_inv in Hbody as (ela & sy & Hela & Hbody).
    apply elem_obj_Ret_inv in Hela as [_ ->].
    apply bind_Ret_inv in Hbody as (body & sy & Hbody & _).
    rewrite (gen_load_element_refuses e "" sa el1 ety1) in Hbody; [discriminate Hbody| | | |].
    + rewrite Hea, Hes. exact Hel1.
    + rewrite Hta, Hts, Hty. exact Hety1.
    + rewrite Hk1. exact Hc.
    + rewrite Hk1. exact Hb.
  - intros T oT ces c el ety HT HoT Hces Hc Hel Hety.
    destruct (warns_graph _ _ W') as (Ht' & He').
    assert (HT2 : T ∈ types s2).
    { destruct W' as (ws & -> & _). simpl in HT. rewrite Hty5 in HT. exact HT. }
    rewrite Ht', Hts in HoT, Hety. rewrite He', Hes in Hel.
    destruct (Hkeys T HT2) as (k & Hk). unfold sort_key in Hk.
    destruct (key_ctype fuel s1 T ∅) as [[k' V']| |] eqn:Hwalk; try discriminate Hk.
    destruct (key_ctype_walked _ _ _ _ _ _ Hwalk) as (HTV & _ & Hall).
    destruct (Hall T HTV) as [Hemp|(ys & Hys & Hsub)]; [set_solver|].
    destruct (child_types_Ret_inv _ _ _ Hys) as (oT' & ces' & HoT' & Hces' & Hch).
    rewrite HoT in HoT'. inversion HoT'; subst oT'.
    rewrite Hces in Hces'. inversion Hces'; subst ces'.
    assert (Hy : el_type el ∈ V') by (apply Hsub, (Hch c el Hc Hel)).
    destruct (Hall _ Hy) as [Hemp|(zs & Hzs & _)]; [set_solver|].
    destruct (child_types_Ret_inv _ _ _ Hzs) as (oy & cesy & Hoy & Hcesy & _).
    rewrite Hety in Hoy. inversion Hoy; subst oy.
    destruct (is_complex (ty_kind ety)) eqn:Hcx; [reflexivity|]. exfalso.
    destruct (Hsimple _ _ Hety Hcx) as (_ & Hnone). congruence.
Qed.

End Supported.

Lemma generator_needs_complex_elements_witness :
  ∃ out s', generator Fixtures.unit_dfa remove_dups 10 Fixtures.root_tree_schema
              = Ret (out, s') ∧
            ∃ e rest, elements Fixtures.root_tree_schema = e :: rest.
Proof.
  destruct (generator Fixtures.unit_dfa remove_dups 10 Fixtures.root_tree_schema)
    as [[out s']| |] eqn:E; [|vm_compute in E; discriminate..].
  destruct (generator_needs_complex_elements Fixtures.unit_dfa remove_dups 10
              Fixtures.root_tree_schema out s') as ((e & rest & He & _) & _).
  - intros t o Ho Hc. apply elem_of_map_to_list in Ho.
    match type of Ho with
    | _ ∈ map_to_list ?m => remember (map_to_list m) as l eqn:El; vm_compute in El; subst l
    end.
    apply elem_of_cons in Ho as [Ho|Ho]; [inversion Ho; subst; discriminate Hc|].
    apply list_elem_of_singleton in Ho. inversion Ho; subst. discriminate Hc.
  - exact E.
  - exists out, s'. split; [reflexivity|]. exists e, rest. exact He.
Defined.

(** ** Unions and enumerations are emitted once *)

Lemma dedup_stable_spec {A} `{EqDecision A} (l seen : list A) :
  NoDup (dedup_stable l seen) ∧
  (∀ x, x ∈ dedup_stable l seen ↔ x ∈ l ∧ x ∉ seen) ∧
  dedup_stable l seen `sublist_of` l.
Proof.
  revert seen. induction l as [|x l IH]; intros seen; simpl.
  - split; [constructor|]. split; [|constructor].
    intros x. split; [intros H; inversion H | intros [H _]; inversion H].
  - destruct (decide (x ∈ seen)) as [Hin|Hnin].
    + destruct (IH seen) as (Hnd & Hmem & Hsub).
      split; [exact Hnd|]. split; [|apply sublist_cons, Hsub].
      intros y. rewrite Hmem, elem_of_cons. split; [tauto|].
      intros [[->|Hy] Hns]; [contradiction | tauto].
    + destruct (IH (x :: seen)) as (Hnd & Hmem & Hsub).
      split; [|split; [|apply sublist_skip, Hsub]].
      * constructor; [|exact Hnd]. rewrite Hmem. intros [_ Hx]. apply Hx. left.
      * intros y. rewrite elem_of_cons, Hmem, !elem_of_cons.
        split.
        -- intros [->|[Hy Hns]]; [split; [left; reflexivity | exact Hnin] | tauto].
        -- intros [[->|Hy] Hns]; [left; reflexivity|].
           destruct (decide (y = x)) as [->|Hne]; [left; reflexivity | right; tauto].
Qed.

Lemma dedup_stable_NoDup_id {A} `{EqDecision A} (l seen : list A) :
  NoDup l → (∀ x, x ∈ l → x ∉ seen) → dedup_stable l seen = l.
Proof.
  revert seen. induction l as [|x l IH]; intros seen Hnd Hs; [reflexivity|].
  apply NoDup_cons in Hnd as [Hx Hnd]. simpl.
  rewrite decide_False by (apply Hs; left). f_equal. apply IH; [exact Hnd|].
  intros y Hy. apply not_elem_of_cons. split; [intros ->; contradiction|].
  apply Hs. right. exact Hy.
Qed.

(** a loop whose body leaves the state alone, taken apart *)
Lemma concat_m_read_only_inv {A} (f : A -> M string) (l : list A) s out s' :
  (∀ x, read_only (f x)) →
  concat_m f l s = Ret (out, s') →
  s' = s ∧ ∃ outs, Forall2 (fun x o => f x s = Ret (o, s)) l outs ∧ out = join "" outs.
Proof.
  intros Hf. revert out s'. induction l as [|x l IH]; intros out s' H; simpl in H.
  - apply ret_Ret_inv in H as [<- <-]. split; [reflexivity|]. exists []. split; [constructor | reflexivity].
  - apply bind_Ret_inv in H as (o1 & s1 & H1 & H).
    apply bind_Ret_inv in H as (o2 & s2 & H2 & H).
    apply ret_Ret_inv in H as [<- <-].
    pose proof (Hf x _ _ _ H1) as ->.
    destruct (IH _ _ H2) as (-> & outs & HF & ->).
    split; [reflexivity|]. exists (o1 :: outs). split; [constructor; assumption|].
    change (o1 :: outs) with ([o1] ++ outs). rewrite join_empty_app. reflexivity.
Qed.

Lemma read_only_typedefn_from_union u : read_only (typedefn_from_union u).
Proof. unfold typedefn_from_union. read_only_tac. Qed.

Lemma read_only_tokens_from_enum e : read_only (tokens_from_enum e).
Proof. unfold tokens_from_enum. read_only_tac. Qed.

Lemma dedup_stable_app {A} `{EqDecision A} (l1 l2 seen : list A) :
  ∃ rest, dedup_stable (l1 ++ l2) seen = dedup_stable l1 seen ++ rest.
Proof.
  revert seen. induction l1 as [|x l1 IH]; intros seen; simpl.
  - eexists. reflexivity.
  - destruct (decide (x ∈ seen)).
    + apply IH.
    + destruct (IH (x :: seen)) as [rest ->]. exists rest. reflexivity.
Qed.

Lemma dedup_stable_first_registrations {A} `{EqDecision A} (l : list A) :
  first_registrations l (dedup_stable l []).
Proof.
  assert (Hmem : ∀ l' : list A, ∀ x, x ∈ dedup_stable l' [] ↔ x ∈ l').
  { intros l' x. destruct (dedup_stable_spec l' []) as (_ & Hm & _). rewrite Hm.
    split; [tauto|]. intros Hx. split; [exact Hx|]. intros Hn. inversion Hn. }
  split; [apply dedup_stable_spec|]. split; [apply Hmem|].
  intros k. exists (length (dedup_stable (take k l) [])). intros x.
  destruct (dedup_stable_app (take k l) (drop k l) []) as [rest Hrest].
  rewrite take_drop in Hrest. rewrite Hrest, take_app_length. apply Hmem.
Qed.

(** the rebinding is idempotent: an emitter that comes after it in
    the script sees the same registry whether or not it is repeated *)
Lemma dedup_stable_idem {A} `{EqDecision A} (l : list A) :
  dedup_stable (dedup_stable l []) [] = dedup_stable l [].
Proof.
  apply dedup_stable_NoDup_id; [apply dedup_stable_spec|].
  intros x _ Hn. inversion Hn.
Qed.

(** X15: a union or an enumeration is registered every time the
    annotator meets it, and still emitted once.  The union definitions
    first rebind [unions] to the list of its first occurrences: the
    members of the registry, each once, in the order of their first
    registration (a registry without repetition stays as it is);
    nothing else of the state changes.  The text is then the
    definitions of the unions of that list, one each and in its order,
    each followed by an empty line.  The enum tokens do the same with
    [enums]. *)
Theorem unions_and_enums_emitted_once (s : State) :
  (∀ out s', union_definitions s = Ret (out, s') →
     s' = set_unions (fun l => dedup_stable l []) s ∧
     first_registrations (unions s) (unions s') ∧
     (NoDup (unions s) → unions s' = unions s) ∧
     ∃ defs, Forall2 (fun u d => typedefn_from_union u s' = Ret (d, s')) (unions s') defs ∧
             out = join "" (map (fun d => d +:+ nl) defs)) ∧
  (∀ out s', enum_tokens s = Ret (out, s') →
     s' = set_enums (fun l => dedup_stable l []) s ∧
     first_registrations (enums s) (enums s') ∧
     (NoDup (enums s) → enums s' = enums s) ∧
     ∃ toks, Forall2 (fun e d => tokens_from_enum e s' = Ret (d, s')) (enums s') toks ∧
             out = join "" toks).
Proof.
  assert (Hid : ∀ l : list tid, NoDup l → dedup_stable l [] = l).
  { intros l Hl. apply dedup_stable_NoDup_id; [exact Hl|]. intros x _ Hn. inversion Hn. }
  split.
  - intros out s' H. unfold union_definitions in H.
    apply bind_Ret_inv in H as (u0 & s2 & Hm & H).
    unfold dedup_unions, modify in Hm. inversion Hm; subst s2. clear Hm.
    apply bind_Ret_inv in H as (s0 & s1 & Hg & H). apply get_Ret_inv in Hg as [-> ->].
    apply concat_m_read_only_inv in H as (-> & outs & HF & ->).
    2:{ intros u. pose proof (read_only_typedefn_from_union u). read_only_tac. }
    split; [reflexivity|]. split; [apply dedup_stable_first_registrations|].
    split; [apply Hid|].
    remember (set_unions (fun l => dedup_stable l []) s) as s1 eqn:Es1. clear Es1.
    assert (Hdefs : ∃ defs,
              Forall2 (fun u d => typedefn_from_union u s1 = Ret (d, s1)) (unions s1) defs ∧
              outs = map (fun d => d +:+ nl) defs).
    { clear -HF. induction HF as [|u o us outs Hu HF IH].
      - exists []. split; [constructor | reflexivity].
      - destruct IH as (defs & HF' & ->).
        apply bind_Ret_inv in Hu as (d & s2 & Hd & Hu).
        pose proof (read_only_typedefn_from_union u _ _ _ Hd) as ->.
        apply ret_Ret_inv in Hu as [<- _].
        exists (d :: defs). split; [constructor; assumption | reflexivity]. }
    destruct Hdefs as (defs & HF' & ->). exists defs. split; [exact HF' | reflexivity].
  - intros out s' H. unfold enum_tokens in H.
    apply bind_Ret_inv in H as (u0 & s2 & Hm & H).
    unfold dedup_enums, modify in Hm. inversion Hm; subst s2. clear Hm.
    apply bind_Ret_inv in H as (s0 & s1 & Hg & H). apply get_Ret_inv in Hg as [-> ->].
    apply concat_m_read_only_inv in H as (-> & outs & HF & ->);
      [|apply read_only_tokens_from_enum].
    split; [reflexivity|]. split; [apply dedup_stable_first_registrations|].
    split; [apply Hid|].
    exists outs. split; [exact HF | reflexivity].
Qed.

(** the union [u] is the type of two attributes and registered twice;
    it is defined once *)
Lemma unions_and_enums_emitted_once_witness :
  unions (Fixtures.annotated Fixtures.shared_union_schema) = [3; 3] ∧
  ∃ out s' def,
    union_definitions (Fixtures.annotated Fixtures.shared_union_schema) = Ret (out, s') ∧
    unions s' = [3] ∧ out = def +:+ nl.
Proof.
  split; [vm_compute; reflexivity|].
  destruct (union_definitions (Fixtures.annotated Fixtures.shared_union_schema))
    as [[out s']| |] eqn:E; [|vm_compute in E; discriminate..].
  destruct (proj1 (unions_and_enums_emitted_once
                     (Fixtures.annotated Fixtures.shared_union_schema)) out s' E)
    as (Hs' & _ & _ & defs & HF & Hout).
  assert (Hus : unions s' = [3]) by (rewrite Hs'; vm_compute; reflexivity).
  rewrite Hus in HF.
  destruct defs as [|def [|d2 defs]];
    [apply Forall2_length in HF; discriminate HF | |
     apply Forall2_length in HF; discriminate HF].
  exists out, s', def. split; [reflexivity|]. split; [exact Hus|].
  rewrite Hout. reflexivity.
Defined.

(** ** Token enums and their lookup tables *)

Lemma enumeration_of_Ret_inv o s values s' :
  enumeration_of o s = Ret (values, s') →
  s' = s ∧ ∃ rest parent,
    ty_kind o = XsdAtomicRestriction (Enumeration values :: rest) parent.
Proof.
  unfold enumeration_of. intros H.
  destruct (ty_kind o) as [| |validators parent| | |]; try raised H.
  destruct validators as [|[vs|] rest]; try raised H.
  apply ret_Ret_inv in H as [-> ->]. split; [reflexivity|]. eauto.
Qed.

(** X16: the enum of an enumeration type and its lookup table line
    up.  The enum starts with the sentinel [UXSD_INVALID = 0] and the
    table with its name, so both have one entry more than the
    enumeration; after that, entry [i+1] of the enum is the token of
    value [i] of the enumeration and entry [i+1] of the table is that
    value between quotes.  The table is the array [lookup_<name>] that
    the writer indexes with the enum value, so a value read back
    through the table is the schema's own spelling. *)
Theorem tokens_from_enum_aligned (t : tid) (s : State) (out : string) (s' : State) :
  tokens_from_enum t s = Ret (out, s') →
  ∃ o values rest parent cpp E L,
    type_objs s !! t = Some o ∧
    ty_kind o = XsdAtomicRestriction (Enumeration values :: rest) parent ∧
    out = "enum class " +:+ cpp +:+ " {" +:+ join ", " E +:+ "};" +:+ nl +:+
          "const char *lookup_" +:+ ty_name o +:+ "[] = {" +:+ join ", " L +:+ "};" +:+ nl ∧
    E !! 0%nat = Some "UXSD_INVALID = 0" ∧
    L !! 0%nat = Some (dq +:+ "UXSD_INVALID" +:+ dq) ∧
    length E = S (length values) ∧ length L = S (length values) ∧
    (∀ i v, values !! i = Some v →
       E !! S i = Some (to_token v) ∧ L !! S i = Some (dq +:+ v +:+ dq)) ∧
    (∀ fuel container,
       _gen_write_simple (S fuel) t container "" s =
         Ret ("os << " +:+ ("lookup_" +:+ ty_name o +:+ "[(int)" +:+ container +:+ "]") +:+
              ";" +:+ nl, s)).
Proof.
  unfold tokens_from_enum. intros H.
  apply bind_Ret_inv in H as (o & s1 & Ho & H). apply type_obj_Ret_inv in Ho as [Ho ->].
  apply bind_Ret_inv in H as (values & s1 & Hv & H).
  apply enumeration_of_Ret_inv in Hv as (-> & rest & parent & Hk).
  apply bind_Ret_inv in H as (cpp & s1 & Hc & H). apply attr_of_Ret_inv in Hc as [Hc ->].
  apply ret_Ret_inv in H as [<- _].
  exists o, values, rest, parent, cpp.
  exists ("UXSD_INVALID = 0" :: map to_token values).
  exists ((dq +:+ "UXSD_INVALID" +:+ dq) :: map (fun x => dq +:+ x +:+ dq) values).
  split; [exact Ho|]. split; [exact Hk|]. split; [reflexivity|].
  split; [reflexivity|]. split; [reflexivity|].
  split; [simpl; rewrite length_map; reflexivity|].
  split; [simpl; rewrite length_map; reflexivity|].
  split.
  - intros i v Hi. simpl. rewrite !list_lookup_fmap, Hi. split; reflexivity.
  - intros fuel container. simpl.
    erewrite bind_Ret by (apply type_obj_Ret; exact Ho).
    rewrite Hk. reflexivity.
Qed.

Lemma tokens_from_enum_aligned_witness :
  ∃ E L : list string, E !! 1%nat = Some "YES" ∧ L !! 1%nat = Some (dq +:+ "yes" +:+ dq).
Proof.
  destruct (tokens_from_enum 2 (Fixtures.annotated Fixtures.union_enum_schema))
    as [[out s']| |] eqn:Hrun; [|vm_compute in Hrun; discriminate..].
  destruct (tokens_from_enum_aligned _ _ _ _ Hrun)
    as (o & values & rest & parent & cpp & E & L & Ho & Hk & _ & _ & _ & _ & _ & Hal & _).
  vm_compute in Ho. inversion Ho; subst o. simpl in Hk. inversion Hk; subst values.
  exists E, L. exact (Hal 0%nat "yes" eq_refl).
Defined.

Lemma map_m_names_inv (l : list eid) s names s' :
  map_m (fun e => el ← elem_obj e; ret (el_name el)) l s = Ret (names, s') →
  s' = s ∧ Forall2 (fun e n => ∃ el, elem_objs s !! e = Some el ∧ el_name el = n) l names.
Proof.
  revert names s'. induction l as [|e l IH]; intros names s' H; simpl in H.
  - apply ret_Ret_inv in H as [<- <-]. split; [reflexivity | constructor].
  - apply bind_Ret_inv in H as (n & s1 & H1 & H).
    apply bind_Ret_inv in H as (ns & s2 & H2 & H).
    apply ret_Ret_inv in H as [<- <-].
    apply bind_Ret_inv in H1 as (el & s3 & Hel & H1).
    apply elem_obj_Ret_inv in Hel as [Hel ->].
    apply ret_Ret_inv in H1 as [<- <-].
    apply IH in H2 as [-> HF]. split; [reflexivity|].
    constructor; [exists el; split; [exact Hel | reflexivity] | exact HF].
Qed.

(** X17: the token enums of a complex type follow the lists the
    checks are built on.  For a type with child elements the text
    starts with the enum [gtok_] and the table [gtok_lookup_], whose
    entry [i] is the token, and the quoted name, of child [i] of
    [child_elements]; for a type with attributes it ends with the enum
    [atok_] and the table [atok_lookup_], whose entry [i] is the token,
    and the quoted name, of attribute [i] of [attribute_list]: the
    positions the bit masks of the [all] and attribute checks count
    in. *)
Theorem tokens_from_complex_type_aligned (t : tid) (s : State) (out : string)
    (s' : State) :
  tokens_from_complex_type t s = Ret (out, s') →
  ∃ o children attributes cpp_g cpp_a G GL A AL,
    type_objs s !! t = Some o ∧
    ty_child_elements o = Some children ∧
    ty_attributes o s = Ret (attributes, s) ∧
    out =
      (if decide (children = []) then ""
       else "enum class gtok_" +:+ cpp_g +:+ " {" +:+ join ", " G +:+ "};" +:+ nl +:+
            "const char *gtok_lookup_" +:+ cpp_g +:+ "[] = {" +:+ join ", " GL +:+ "};" +:+ nl)
      +:+
      (if decide (attributes = []) then ""
       else "enum class atok_" +:+ cpp_a +:+ " {" +:+ join ", " A +:+ "};" +:+ nl +:+
            "const char *atok_lookup_" +:+ cpp_a +:+ "[] = {" +:+ join ", " AL +:+ "};" +:+ nl) ∧
    (children ≠ [] →
       ty_cpp_type o = Some cpp_g ∧
       length G = length children ∧ length GL = length children ∧
       ∀ i e, children !! i = Some e →
         ∃ el, elem_objs s !! e = Some el ∧
               G !! i = Some (to_token (el_name el)) ∧
               GL !! i = Some (dq +:+ el_name el +:+ dq)) ∧
    (attributes ≠ [] →
       ty_cpp_type o = Some cpp_a ∧
       ∃ attribute_list,
         ty_attribute_list o = Some attribute_list ∧
         length A = length attribute_list ∧ length AL = length attribute_list ∧
         ∀ i a, attribute_list !! i = Some a →
           A !! i = Some (to_token (a_name a)) ∧
           AL !! i = Some (dq +:+ a_name a +:+ dq)).
Proof.
  unfold tokens_from_complex_type. intros H.
  apply bind_Ret_inv in H as (o & s1 & Ho & H). apply type_obj_Ret_inv in Ho as [Ho ->].
  apply bind_Ret_inv in H as (children & s1 & Hc & H). apply attr_of_Ret_inv in Hc as [Hc ->].
  apply bind_Ret_inv in H as (out1 & s1 & H1 & H).
  apply bind_Ret_inv in H as (attributes & s2 & Ha & H).
  pose proof (read_only_ty_attributes o _ _ _ Ha) as ->.
  apply bind_Ret_inv in H as (out2 & s2 & H2 & H).
  apply ret_Ret_inv in H as [<- _].
  exists o, children, attributes.
  (* the element part *)
  assert (Hg : ∃ cpp_g G GL, s1 = s ∧
            out1 = (if decide (children = []) then ""
                    else "enum class gtok_" +:+ cpp_g +:+ " {" +:+ join ", " G +:+ "};" +:+ nl +:+
                         "const char *gtok_lookup_" +:+ cpp_g +:+ "[] = {" +:+
                           join ", " GL +:+ "};" +:+ nl) ∧
            (children ≠ [] →
               ty_cpp_type o = Some cpp_g ∧
               length G = length children ∧ length GL = length children ∧
               ∀ i e, children !! i = Some e →
                 ∃ el, elem_objs s !! e = Some el ∧
                       G !! i = Some (to_token (el_name el)) ∧
                       GL !! i = Some (dq +:+ el_name el +:+ dq))).
  { destruct children as [|c0 cs].
    - apply ret_Ret_inv in H1 as [<- <-]. exists "", [], [].
      split; [reflexivity|]. split; [reflexivity|]. intros Hne. contradiction.
    - apply bind_Ret_inv in H1 as (names & s3 & Hn & H1).
      apply map_m_names_inv in Hn as [-> HF].
      apply bind_Ret_inv in H1 as (cpp & s3 & Hcpp & H1).
      apply attr_of_Ret_inv in Hcpp as [Hcpp ->].
      apply ret_Ret_inv in H1 as [<- <-].
      exists cpp, (map to_token names), (map (fun n => dq +:+ n +:+ dq) names).
      split; [reflexivity|]. split; [reflexivity|]. intros _.
      split; [exact Hcpp|]. rewrite !length_map.
      pose proof (Forall2_length _ _ _ HF) as Hlen.
      split; [symmetry; exact Hlen|]. split; [symmetry; exact Hlen|].
      intros i e Hi. destruct (Forall2_lookup_l _ _ _ _ _ HF Hi) as (n & Hn & el & Hel & <-).
      exists el. split; [exact Hel|]. rewrite !list_lookup_fmap, Hn. split; reflexivity. }
  destruct Hg as (cpp_g & G & GL & -> & -> & Hgs).
  (* the attribute part *)
  assert (Hat : ∃ cpp_a A AL,
            out2 = (if decide (attributes = []) then ""
                    else "enum class atok_" +:+ cpp_a +:+ " {" +:+ join ", " A +:+ "};" +:+ nl +:+
                         "const char *atok_lookup_" +:+ cpp_a +:+ "[] = {" +:+
                           join ", " AL +:+ "};" +:+ nl) ∧
            (attributes ≠ [] →
               ty_cpp_type o = Some cpp_a ∧
               ∃ attribute_list,
                 ty_attribute_list o = Some attribute_list ∧
                 length A = length attribute_list ∧ length AL = length attribute_list ∧
                 ∀ i a, attribute_list !! i = Some a →
                   A !! i = Some (to_token (a_name a)) ∧
                   AL !! i = Some (dq +:+ a_name a +:+ dq))).
  { destruct attributes as [|a0 ats].
    - apply ret_Ret_inv in H2 as [<- _]. exists "", [], [].
      split; [reflexivity|]. intros Hne. contradiction.
    - apply bind_Ret_inv in H2 as (al & s3 & Hal & H2).
      apply attr_of_Ret_inv in Hal as [Hal ->].
      apply bind_Ret_inv in H2 as (cpp & s3 & Hcpp & H2).
      apply attr_of_Ret_inv in Hcpp as [Hcpp ->].
      apply ret_Ret_inv in H2 as [<- _].
      exists cpp, (map (fun x => to_token (a_name x)) al),
             (map (fun x => dq +:+ a_name x +:+ dq) al).
      split; [reflexivity|]. intros _. split; [exact Hcpp|].
      exists al. split; [exact Hal|]. rewrite !length_map.
      split; [reflexivity|]. split; [reflexivity|].
      intros i a Hi. rewrite !list_lookup_fmap, Hi. split; reflexivity. }
  destruct Hat as (cpp_a & A & AL & -> & Hats).
  exists cpp_g, cpp_a, G, GL, A, AL.
  split; [exact Ho|]. split; [exact Hc|]. split; [exact Ha|].
  split; [reflexivity|]. split; assumption.
Qed.

Lemma tokens_from_complex_type_aligned_witness :
  ∃ A AL : list string, A !! 1%nat = Some "B" ∧ AL !! 1%nat = Some (dq +:+ "b" +:+ dq).
Proof.
  destruct (tokens_from_complex_type 0 (Fixtures.annotated Fixtures.two_attr_schema))
    as [[out s']| |] eqn:Hrun; [|vm_compute in Hrun; discriminate..].
  destruct (tokens_from_complex_type_aligned _ _ _ _ Hrun)
    as (o & children & attributes & cpp_g & cpp_a & G & GL & A & AL &
        Ho & _ & Hattrs & _ & _ & Hal).
  vm_compute in Ho. inversion Ho; subst o.
  vm_compute in Hattrs. inversion Hattrs; subst attributes.
  destruct Hal as (_ & al & Hal & _ & _ & Hidx); [discriminate|].
  simpl in Hal. inversion Hal; subst al.
  exists A, AL. exact (Hidx 1%nat _ eq_refl).
Defined.

(** ** The arenas: declared, allocated and reset in one order *)

Lemma string_leb_trans (a b c : string) :
  String.leb a b = true → String.leb b c = true → String.leb a c = true.
Proof.
  unfold String.leb. revert b c.
  induction a as [|x a IH]; intros [|y b] [|z c]; simpl; try congruence.
  unfold Ascii.compare.
  destruct (N.compare_spec (N_of_ascii x) (N_of_ascii y)) as [Hxy|Hxy|Hxy];
    destruct (N.compare_spec (N_of_ascii y) (N_of_ascii z)) as [Hyz|Hyz|Hyz];
    try congruence.
  - rewrite Hxy, Hyz, N.compare_refl. apply IH.
  - rewrite Hxy. rewrite (proj2 (N.compare_lt_iff _ _) Hyz). congruence.
  - rewrite <- Hyz. rewrite (proj2 (N.compare_lt_iff _ _) Hxy). congruence.
  - rewrite (proj2 (N.compare_lt_iff _ _) (N.lt_trans _ _ _ Hxy Hyz)). congruence.
Qed.

Lemma elem_of_insert_by_key_str {A} (kx : string * A) l x :
  x ∈ insert_by_key String.leb kx l ↔ x = kx ∨ x ∈ l.
Proof.
  induction l as [|ky l IH]; simpl.
  - rewrite list_elem_of_singleton. split; [auto|]. intros [H|H]; [exact H | inversion H].
  - destruct (String.leb (fst kx) (fst ky)).
    + rewrite elem_of_cons. reflexivity.
    + rewrite !elem_of_cons, IH. tauto.
Qed.

Lemma insert_by_key_str_sorted {A} (kx : string * A) l :
  StronglySorted (fun a b => String.leb (fst a) (fst b) = true) l →
  StronglySorted (fun a b => String.leb (fst a) (fst b) = true)
                 (insert_by_key String.leb kx l).
Proof.
  induction 1 as [|ky l Hl IH Hall]; simpl.
  - repeat constructor.
  - destruct (String.leb (fst kx) (fst ky)) eqn:E.
    + constructor; [constructor; assumption|].
      constructor; [exact E|].
      eapply Forall_impl; [exact Hall|]. simpl. intros z Hz.
      eapply string_leb_trans; eassumption.
    + assert (E' : String.leb (fst ky) (fst kx) = true).
      { destruct (String.leb_total (fst kx) (fst ky)) as [H|H]; [congruence | exact H]. }
      constructor; [exact IH|].
      apply Forall_forall. intros x Hx. apply elem_of_insert_by_key_str in Hx as [->|Hx].
      * exact E'.
      * eapply Forall_forall in Hall; eassumption.
Qed.

Lemma stable_sort_str_sorted {A} (l : list (string * A)) :
  StronglySorted (fun a b => String.leb (fst a) (fst b) = true) (stable_sort String.leb l).
Proof.
  induction l as [|x l IH]; simpl; [constructor|]. apply insert_by_key_str_sorted, IH.
Qed.

Lemma insert_by_key_str_perm {A} (kx : string * A) l :
  insert_by_key String.leb kx l ≡ₚ kx :: l.
Proof.
  induction l as [|ky l IH]; simpl; [reflexivity|].
  destruct (String.leb (fst kx) (fst ky)); [reflexivity|].
  rewrite IH. apply Permutation_swap.
Qed.

Lemma stable_sort_str_perm {A} (l : list (string * A)) : stable_sort String.leb l ≡ₚ l.
Proof.
  induction l as [|x l IH]; simpl; [reflexivity|].
  rewrite insert_by_key_str_perm, IH. reflexivity.
Qed.

Lemma map_m_named_inv (l : list tid) s named s' :
  map_m (fun t => n ← name_of t; ret (n, t)) l s = Ret (named, s') →
  s' = s ∧ snd <$> named = l ∧
  ∀ n t, (n, t) ∈ named → ∃ o, type_objs s !! t = Some o ∧ ty_name o = n.
Proof.
  revert named s'. induction l as [|t l IH]; intros named s' H; simpl in H.
  - apply ret_Ret_inv in H as [<- <-]. split; [reflexivity|]. split; [reflexivity|].
    intros n t Hin. inversion Hin.
  - apply bind_Ret_inv in H as (p & s1 & H1 & H).
    apply bind_Ret_inv in H as (ps & s2 & H2 & H).
    apply ret_Ret_inv in H as [<- <-].
    apply bind_Ret_inv in H1 as (n & s3 & Hn & H1).
    apply ret_Ret_inv in H1 as [<- <-].
    unfold name_of in Hn. apply bind_Ret_inv in Hn as (o & s4 & Ho & Hn).
    apply type_obj_Ret_inv in Ho as [Ho ->]. apply ret_Ret_inv in Hn as [<- <-].
    apply IH in H2 as (-> & Hsnd & Hall). split; [reflexivity|].
    split; [rewrite fmap_cons, Hsnd; reflexivity|].
    intros n' t' Hin. apply elem_of_cons in Hin as [Heq|Hin].
    + inversion Heq; subst. exists o. split; [exact Ho | reflexivity].
    + apply Hall, Hin.
Qed.

(** [sorted(arena_types, key=lambda x: x.name)]: the members of the
    set, each once, ascending in their names *)
Lemma sorted_arena_types_inv s l s' :
  sorted_arena_types s = Ret (l, s') →
  s' = s ∧ NoDup l ∧ (∀ t, t ∈ l ↔ t ∈ arena_types s) ∧
  ∀ i j t u, (i < j)%nat → l !! i = Some t → l !! j = Some u →
    ∃ ot ou, type_objs s !! t = Some ot ∧ type_objs s !! u = Some ou ∧
             String.leb (ty_name ot) (ty_name ou) = true.
Proof.
  unfold sorted_arena_types. intros H.
  apply bind_Ret_inv in H as (s0 & s1 & Hg & H). apply get_Ret_inv in Hg as [-> ->].
  apply bind_Ret_inv in H as (named & s1 & Hn & H).
  apply map_m_named_inv in Hn as (-> & Hsnd & Hnames).
  apply ret_Ret_inv in H as [<- <-]. split; [reflexivity|].
  assert (Hperm : snd <$> stable_sort String.leb named ≡ₚ base.elements (arena_types s)).
  { rewrite stable_sort_str_perm. rewrite Hsnd. reflexivity. }
  split; [rewrite Hperm; apply NoDup_elements|].
  split; [intros t; rewrite Hperm; apply elem_of_elements|].
  intros i j t u Hij Hi Hj.
  apply list_lookup_fmap_Some_1 in Hi as ([nt t'] & Ht & Hi). simpl in Ht. subst t'.
  apply list_lookup_fmap_Some_1 in Hj as ([nu u'] & Hu & Hj). simpl in Hu. subst u'.
  destruct (Hnames nt t) as (ot & Hot & <-).
  { rewrite <- (stable_sort_str_perm named). eapply list_elem_of_lookup_2, Hi. }
  destruct (Hnames nu u) as (ou & Hou & <-).
  { rewrite <- (stable_sort_str_perm named). eapply list_elem_of_lookup_2, Hj. }
  exists ot, ou. split; [exact Hot|]. split; [exact Hou|].
  exact (StronglySorted_lookup_lt _ _ _ _ _ _ (stable_sort_str_sorted named) Hij Hi Hj).
Qed.

(** X18: the arena declarations and [alloc_arenas] walk the same
    list: the types of the arena set, each once, ascending in their
    names.  For each of them, in that order, the declarations hold the
    counter [g_num_<name>] and the pointer [<name>_arena], and
    [alloc_arenas] first allocates every arena and then resets every
    counter; neither emitter changes the state. *)
Theorem arenas_declared_allocated_reset (s : State) (decls alloc : string)
    (s1 s2 : State) :
  arena_declarations s = Ret (decls, s1) →
  gen_alloc_arenas s = Ret (alloc, s2) →
  s1 = s ∧ s2 = s ∧
  ∃ (l : list tid) (D A R : list string),
    NoDup l ∧ (∀ t, t ∈ l ↔ t ∈ arena_types s) ∧
    (∀ i j t u, (i < j)%nat → l !! i = Some t → l !! j = Some u →
       ∃ ot ou, type_objs s !! t = Some ot ∧ type_objs s !! u = Some ou ∧
                String.leb (ty_name ot) (ty_name ou) = true) ∧
    decls = join "" D ∧
    alloc = "void alloc_arenas(void){" +:+ nl +:+ join "" A +:+ join "" R +:+ "}" +:+ nl ∧
    Forall2 (fun t d => ∃ o c, type_objs s !! t = Some o ∧ ty_cpp_type o = Some c ∧
               d = "int g_num_" +:+ ty_name o +:+ " = 0;" +:+ nl +:+
                   c +:+ " *" +:+ ty_name o +:+ "_arena;" +:+ nl) l D ∧
    Forall2 (fun t a => ∃ o c, type_objs s !! t = Some o ∧ ty_cpp_type o = Some c ∧
               a = tab +:+ "if(!(" +:+ ty_name o +:+ "_arena = (" +:+ c +:+
                     " *)std::calloc(g_num_" +:+ ty_name o +:+ ", sizeof(" +:+ c +:+ "))))" +:+ nl +:+
                   tab +:+ tab +:+ "throw std::runtime_error(" +:+ dq +:+
                     "Couldn't get memory for <" +:+ ty_name o +:+ "> arena." +:+ dq +:+ ");" +:+ nl)
            l A ∧
    Forall2 (fun t r => ∃ o, type_objs s !! t = Some o ∧
               r = tab +:+ "g_num_" +:+ ty_name o +:+ " = 0;" +:+ nl) l R.
Proof.
  intros Hd Ha.
  unfold arena_declarations in Hd.
  apply bind_Ret_inv in Hd as (l & s3 & Hl & Hd).
  pose proof (sorted_arena_types_inv _ _ _ Hl) as (-> & Hnd & Hmem & Hsorted).
  apply concat_m_read_only_inv in Hd as (-> & D & HD & ->); [|intros t; read_only_tac].
  unfold gen_alloc_arenas in Ha.
  apply bind_Ret_inv in Ha as (l' & s3 & Hl' & Ha).
  pose proof (read_only_sorted_arena_types _ _ _ Hl') as ->.
  rewrite Hl in Hl'. inversion Hl'; subst l'. clear Hl'.
  apply bind_Ret_inv in Ha as (allocs & s3 & HA & Ha).
  apply concat_m_read_only_inv in HA as (-> & A & HA & ->); [|intros t; read_only_tac].
  apply bind_Ret_inv in Ha as (l' & s3 & Hl' & Ha).
  pose proof (read_only_sorted_arena_types _ _ _ Hl') as ->.
  rewrite Hl in Hl'. inversion Hl'; subst l'. clear Hl'.
  apply bind_Ret_inv in Ha as (resets & s3 & HR & Ha).
  apply concat_m_read_only_inv in HR as (-> & R & HR & ->); [|intros t; read_only_tac].
  apply ret_Ret_inv in Ha as [<- <-].
  split; [reflexivity|]. split; [reflexivity|].
  exists l, D, A, R.
  split; [exact Hnd|]. split; [exact Hmem|]. split; [exact Hsorted|].
  split; [reflexivity|]. split; [reflexivity|].
  split; [|split].
  - eapply Forall2_impl; [exact HD|]. intros t d Ht. cbv beta in Ht.
    apply bind_Ret_inv in Ht as (o & sx & Ho & Ht). apply type_obj_Ret_inv in Ho as [Ho ->].
    apply bind_Ret_inv in Ht as (c & sx & Hc & Ht). apply attr_of_Ret_inv in Hc as [Hc ->].
    apply ret_Ret_inv in Ht as [<- _]. exists o, c. repeat split; assumption.
  - eapply Forall2_impl; [exact HA|]. intros t d Ht. cbv beta in Ht.
    apply bind_Ret_inv in Ht as (o & sx & Ho & Ht). apply type_obj_Ret_inv in Ho as [Ho ->].
    apply bind_Ret_inv in Ht as (c & sx & Hc & Ht). apply attr_of_Ret_inv in Hc as [Hc ->].
    apply ret_Ret_inv in Ht as [<- _]. exists o, c. repeat split; assumption.
  - eapply Forall2_impl; [exact HR|]. intros t d Ht. cbv beta in Ht.
    apply bind_Ret_inv in Ht as (n & sx & Hn & Ht).
    unfold name_of in Hn. apply bind_Ret_inv in Hn as (o & sy & Ho & Hn).
    apply type_obj_Ret_inv in Ho as [Ho ->]. apply ret_Ret_inv in Hn as [<- <-].
    apply ret_Ret_inv in Ht as [<- _]. exists o. split; [exact Ho | reflexivity].
Qed.

Lemma arenas_declared_allocated_reset_witness :
  ∃ l : list tid, NoDup l ∧ ∀ t, t ∈ l ↔ t ∈ arena_types
                                   (Fixtures.annotated Fixtures.recursive_schema).
Proof.
  destruct (arena_declarations (Fixtures.annotated Fixtures.recursive_schema))
    as [[decls s1]| |] eqn:Hd; [|vm_compute in Hd; discriminate..].
  destruct (gen_alloc_arenas (Fixtures.annotated Fixtures.recursive_schema))
    as [[alloc s2]| |] eqn:Ha; [|vm_compute in Ha; discriminate..].
  destruct (arenas_declared_allocated_reset _ _ _ _ _ Hd Ha)
    as (_ & _ & l & D & A & R & Hnd & Hmem & _).
  exists l. split; assumption.
Defined.

(** ** Annotation is complete *)

Lemma kept_refl x s : kept x s s.
Proof.
  split.
  - intros t o Ho. exists o. repeat split; auto.
  - intros e el He. exists el. repeat split; auto.
Qed.

Lemma kept_trans x s1 s2 s3 : kept x s1 s2 → kept x s2 s3 → kept x s1 s3.
Proof.
  intros [T1 E1] [T2 E2]. split.
  - intros t o Ho. destruct (T1 t o Ho) as (o2 & Ho2 & Hk2 & Hc2 & Hf2).
    destruct (T2 t o2 Ho2) as (o3 & Ho3 & Hk3 & Hc3 & Hf3).
    exists o3. split; [exact Ho3|]. split; [congruence|]. split; [auto|].
    intros Hx Hc. destruct (Hf2 Hx Hc) as (A2 & M2 & D2 & C2).
    destruct (Hf3 Hx (Hc2 Hc)) as (A3 & M3 & D3 & C3). repeat split; congruence.
  - intros e el He. destruct (E1 e el He) as (el2 & He2 & Ht2 & Hc2 & Hm2 & Ho2).
    destruct (E2 e el2 He2) as (el3 & He3 & Ht3 & Hc3 & Hm3 & Ho3).
    exists el3. split; [exact He3|]. split; [congruence|]. repeat split; auto.
Qed.

Lemma kept_weaken x s s' : kept None s s' → kept x s s'.
Proof.
  intros [T E]. split; [|exact E].
  intros t o Ho. destruct (T t o Ho) as (o' & Ho' & Hk & Hc & Hf).
  exists o'. split; [exact Ho'|]. split; [exact Hk|]. split; [exact Hc|].
  intros _ Hs. apply Hf; [discriminate | exact Hs].
Qed.

(** the call that visits [t] may write to [t]: seen from before it,
    nothing visited has changed *)
Lemma kept_own_unvisited t s s' :
  kept (Some t) s s' →
  (∀ o, type_objs s !! t = Some o → ty_cpp_type o = None) →
  kept None s s'.
Proof.
  intros [T E] Hun. split; [|exact E].
  intros t' o Ho. destruct (T t' o Ho) as (o' & Ho' & Hk & Hc & Hf).
  exists o'. split; [exact Ho'|]. split; [exact Hk|]. split; [exact Hc|].
  intros _ Hs. apply Hf; [|exact Hs].
  intros Heq. inversion Heq; subst t'. rewrite (Hun o Ho) in Hs. destruct Hs as [? Hs].
  discriminate Hs.
Qed.

Lemma visited_kept x s s' t : kept x s s' → visited s t → visited s' t.
Proof.
  intros [T _] (o & Ho & Hc). destruct (T t o Ho) as (o' & Ho' & _ & Hc' & _).
  exists o'. split; [exact Ho' | exact (Hc' Hc)].
Qed.

Lemma element_done_kept x s s' e : kept x s s' → element_done s e → element_done s' e.
Proof.
  intros K (el & He & Hc & Hm & Ho & Hv). pose proof K as [_ E].
  destruct (E e el He) as (el' & He' & Ht & Hc' & Hm' & Ho').
  exists el'. split; [exact He'|]. repeat split; auto.
  rewrite Ht. eapply visited_kept; eassumption.
Qed.

Lemma type_done_kept x s s' t :
  kept x s s' → x ≠ Some t → type_done s t → type_done s' t.
Proof.
  intros K Hx (o & attrs & m & ces & Ho & Hcx & Hc & Ha & Hm & Hces & Hav & Hed & Hsc & Hd).
  pose proof K as [T _].
  destruct (T t o Ho) as (o' & Ho' & Hk & Hc' & Hf).
  destruct (Hf Hx Hc) as (A & M & D & C).
  exists o', attrs, m, ces.
  split; [exact Ho'|]. split; [congruence|]. split; [exact (Hc' Hc)|].
  split; [congruence|]. split; [congruence|]. split; [congruence|].
  split; [intros a Hin; eapply visited_kept; eauto|].
  split; [intros e Hin; eapply element_done_kept; eauto|].
  split.
  - intros c Hsc'. unfold has_simple_content in Hsc'. rewrite Hk in Hsc'.
    eapply visited_kept; [exact K|]. apply Hsc. exact Hsc'.
  - intros Hmd. rewrite D. apply Hd, Hmd.
Qed.

Lemma anno_ok_weaken (P P' : gset tid) s : P ⊆ P' → anno_ok P s → anno_ok P' s.
Proof.
  intros Hsub (H1 & H2 & H3 & H4). split; [exact H1|]. split; [exact H2|].
  split; [|exact H4].
  intros t o Ho Hk Hc Hn. apply (H3 t o Ho Hk Hc). set_solver.
Qed.

(** the notions read the two heaps only *)
Lemma anno_ok_heap P s s' :
  type_objs s' = type_objs s → elem_objs s' = elem_objs s → anno_ok P s → anno_ok P s'.
Proof.
  intros Ht He (H1 & H2 & H3 & H4).
  assert (Hv : ∀ t, visited s t → visited s' t).
  { intros t (o & Ho & Hc). exists o. rewrite Ht. split; assumption. }
  assert (Hed : ∀ e, element_done s e → element_done s' e).
  { intros e (el & Hel & Hc & Hm & Ho & Hvt). exists el. rewrite He. repeat split; auto. }
  split; [|split; [|split]].
  - intros t o c. rewrite Ht. apply H1.
  - intros e el. rewrite He. intros Hel Hc. apply Hed. eapply H2; eassumption.
  - intros t o. rewrite Ht. intros Ho Hk Hc Hn.
    destruct (H3 t o Ho Hk Hc Hn)
      as (o1 & attrs & m & ces & Ho1 & Hcx1 & Hc1 & Ha & Hm & Hces & Hav & Hch & Hsc & Hd).
    exists o1, attrs, m, ces. rewrite Ht. repeat split; auto.
  - intros t o. rewrite Ht. apply H4.
Qed.

Lemma kept_heap s s' :
  type_objs s' = type_objs s → elem_objs s' = elem_objs s → kept None s s'.
Proof.
  intros Ht He. split.
  - intros t o Ho. exists o. rewrite Ht. repeat split; auto.
  - intros e el Hel. exists el. rewrite He. repeat split; auto.
Qed.

Lemma kept_update_type t f s u s' :
  (∀ o, ty_kind (f o) = ty_kind o) →
  (∀ o, is_Some (ty_cpp_type o) → is_Some (ty_cpp_type (f o))) →
  update_type t f s = Ret (u, s') → kept (Some t) s s'.
Proof.
  intros Hk Hc H. apply update_type_Ret_inv in H. subst s'. split; [|intros e el He; exists el; repeat split; auto].
  intros t' o' Ho'. simpl.
  destruct (type_objs s !! t) as [o|] eqn:Ho.
  - destruct (decide (t = t')) as [<-|Hne].
    + rewrite lookup_insert_eq. rewrite Ho in Ho'. inversion Ho'; subst o'.
      exists (f o). split; [reflexivity|]. split; [apply Hk|]. split; [apply Hc|].
      intros Hx. contradiction Hx. reflexivity.
    + rewrite lookup_insert_ne by exact Hne. exists o'. repeat split; auto.
  - exists o'. repeat split; auto.
Qed.

(** an assignment that leaves the lists, the model and the automaton *)
Lemma kept_update_type_fields t f s u s' :
  (∀ o, ty_kind (f o) = ty_kind o) →
  (∀ o, is_Some (ty_cpp_type o) → is_Some (ty_cpp_type (f o))) →
  (∀ o, ty_attribute_list (f o) = ty_attribute_list o ∧ ty_model (f o) = ty_model o ∧
        ty_dfa (f o) = ty_dfa o ∧ ty_child_elements (f o) = ty_child_elements o) →
  update_type t f s = Ret (u, s') → kept None s s'.
Proof.
  intros Hk Hc Hf H. apply update_type_Ret_inv in H. subst s'. split; [|intros e el He; exists el; repeat split; auto].
  intros t' o' Ho'. simpl.
  destruct (type_objs s !! t) as [o|] eqn:Ho.
  - destruct (decide (t = t')) as [<-|Hne].
    + rewrite lookup_insert_eq. rewrite Ho in Ho'. inversion Ho'; subst o'.
      exists (f o). split; [reflexivity|]. split; [apply Hk|]. split; [apply Hc|].
      intros _ _. apply Hf.
    + rewrite lookup_insert_ne by exact Hne. exists o'. repeat split; auto.
  - exists o'. repeat split; auto.
Qed.

Lemma kept_update_elem e f s u s' :
  (∀ o, el_type (f o) = el_type o ∧
        (is_Some (el_cpp_type o) → is_Some (el_cpp_type (f o))) ∧
        (is_Some (el_many o) → is_Some (el_many (f o))) ∧
        (is_Some (el_optional o) → is_Some (el_optional (f o)))) →
  update_elem e f s = Ret (u, s') → kept None s s'.
Proof.
  intros Hf H. apply update_elem_Ret_inv in H. subst s'.
  split; [intros t o Ho; exists o; repeat split; auto|].
  intros e' el' He'. simpl.
  destruct (elem_objs s !! e) as [el|] eqn:He.
  - destruct (decide (e = e')) as [<-|Hne].
    + rewrite lookup_insert_eq. rewrite He in He'. inversion He'; subst el'.
      exists (f el). split; [reflexivity|]. apply Hf.
    + rewrite lookup_insert_ne by exact Hne. exists el'. repeat split; auto.
  - exists el'. repeat split; auto.
Qed.

(** an assignment to a type under way, or to one that is not a complex
    type *)
Lemma anno_ok_update_type (P : gset tid) t f s u s' :
  (∀ o, ty_kind (f o) = ty_kind o) →
  (∀ o, is_Some (ty_cpp_type o) → is_Some (ty_cpp_type (f o))) →
  (∀ o c, type_objs s !! t = Some o → ty_cpp_type (f o) = Some c → c ≠ "") →
  (∀ o, type_objs s !! t = Some o →
        (is_Some (ty_child_elements o) → is_Some (ty_cpp_type o)) →
        is_Some (ty_child_elements (f o)) → is_Some (ty_cpp_type (f o))) →
  (t ∈ P ∨ ∀ o, type_objs s !! t = Some o → is_complex (ty_kind o) = false) →
  anno_ok P s → update_type t f s = Ret (u, s') → anno_ok P s'.
Proof.
  intros Hk Hc Hne Hce Hown (H1 & H2 & H3 & H4) H.
  pose proof (kept_update_type t f s u s' Hk Hc H) as K.
  apply update_type_Ret_inv in H. subst s'.
  split; [|split; [|split]].
  - intros t' o' c. simpl. destruct (type_objs s !! t) as [o|] eqn:Ho; [|apply H1].
    destruct (decide (t = t')) as [<-|Hn].
    + rewrite lookup_insert_eq. intros E; inversion E; subst o'. apply (Hne o c eq_refl).
    + rewrite lookup_insert_ne by exact Hn. apply H1.
  - intros e el He Hcel. eapply element_done_kept; [exact K|]. eapply H2; eassumption.
  - intros t' o' Ho' Hcx Hv Hn.
    destruct (decide (t = t')) as [<-|Hneq].
    + exfalso. destruct Hown as [HP|Hs]; [contradiction|].
      simpl in Ho'. destruct (type_objs s !! t) as [o|] eqn:Ho.
      * rewrite lookup_insert_eq in Ho'. inversion Ho'; subst o'.
        rewrite Hk, (Hs o eq_refl) in Hcx. discriminate Hcx.
      * rewrite Ho in Ho'. discriminate Ho'.
    + eapply type_done_kept; [exact K | intros E; inversion E; contradiction|].
      simpl in Ho'. destruct (type_objs s !! t) as [o|] eqn:Ho.
      * rewrite lookup_insert_ne in Ho' by exact Hneq. eapply H3; eassumption.
      * eapply H3; eassumption.
  - intros t' o'. simpl. destruct (type_objs s !! t) as [o|] eqn:Ho; [|apply H4].
    destruct (decide (t = t')) as [<-|Hn].
    + rewrite lookup_insert_eq. intros E; inversion E; subst o'.
      apply (Hce o eq_refl). apply (H4 t o Ho).
    + rewrite lookup_insert_ne by exact Hn. apply H4.
Qed.

(** naming a type *)
Lemma anno_ok_set_name (P : gset tid) t n s u s' :
  anno_ok P s → update_type t (ty_set_name n) s = Ret (u, s') →
  anno_ok P s' ∧ kept None s s'.
Proof.
  intros (H1 & H2 & H3 & H4) H.
  assert (K : kept None s s').
  { eapply kept_update_type_fields; [| | |exact H]; intros; simpl; auto. }
  split; [|exact K].
  apply update_type_Ret_inv in H. subst s'.
  split; [|split; [|split]].
  - intros t' o' c. simpl. destruct (type_objs s !! t) as [o|] eqn:Ho; [|apply H1].
    destruct (decide (t = t')) as [<-|Hn].
    + rewrite lookup_insert_eq. intros E; inversion E; subst o'. simpl. apply (H1 t o c Ho).
    + rewrite lookup_insert_ne by exact Hn. apply H1.
  - intros e el He Hce. eapply element_done_kept; [exact K|]. eapply H2; eassumption.
  - intros t' o' Ho' Hcx Hv Hn.
    eapply type_done_kept; [exact K | discriminate|].
    simpl in Ho'. destruct (type_objs s !! t) as [o|] eqn:Ho; [|eapply H3; eassumption].
    destruct (decide (t = t')) as [<-|Hneq].
    + rewrite lookup_insert_eq in Ho'. inversion Ho'; subst o'. simpl in *.
      eapply H3; eassumption.
    + rewrite lookup_insert_ne in Ho' by exact Hneq. eapply H3; eassumption.
  - intros t' o'. simpl. destruct (type_objs s !! t) as [o|] eqn:Ho; [|apply H4].
    destruct (decide (t = t')) as [<-|Hn].
    + rewrite lookup_insert_eq. intros E; inversion E; subst o'. simpl. apply (H4 t o Ho).
    + rewrite lookup_insert_ne by exact Hn. apply H4.
Qed.

Lemma builtin_cpp_types_nonempty :
  forallb (fun p => negb (String.eqb (snd p) "")) atomic_builtins = true.
Proof. vm_compute. reflexivity. Qed.

Lemma assoc_elem {A} k (d : list (string * A)) v : assoc k d = Some v → (k, v) ∈ d.
Proof.
  induction d as [|[k' v'] d IH]; [discriminate|]. unfold assoc; fold (@assoc A).
  destruct (String.eqb k k') eqn:E.
  - intros H. inversion H; subst. apply String.eqb_eq in E. subst. left.
  - intros H. right. apply IH, H.
Qed.

Lemma builtin_cpp_type_nonempty n c : assoc n atomic_builtins = Some c → c ≠ "".
Proof.
  intros H. apply assoc_elem in H. apply list_elem_of_In in H.
  pose proof (proj1 (forallb_forall _ _) builtin_cpp_types_nonempty _ H) as Hn.
  simpl in Hn. apply negb_true_iff, String.eqb_neq in Hn. exact Hn.
Qed.

Lemma to_cpp_type_nonempty x : to_cpp_type x ≠ "".
Proof.
  unfold to_cpp_type. destruct (assoc x atomic_builtins) as [c|] eqn:E.
  - eapply builtin_cpp_type_nonempty, E.
  - discriminate.
Qed.
Lemma kept_modify f s u s' :
  (type_objs (f s) = type_objs s ∧ elem_objs (f s) = elem_objs s) →
  modify f s = Ret (u, s') → kept None s s'.
Proof.
  intros [Ht He] H. unfold modify in H. inversion H; subst. apply kept_heap; assumption.
Qed.

Lemma anno_ok_modify P f s u s' :
  (type_objs (f s) = type_objs s ∧ elem_objs (f s) = elem_objs s) →
  anno_ok P s → modify f s = Ret (u, s') → anno_ok P s'.
Proof.
  intros [Ht He] Hok H. unfold modify in H. inversion H; subst.
  eapply anno_ok_heap; eassumption.
Qed.

(** a type that is not complex gets its [cpp_type] *)
Lemma simple_cpp_type_ok P t c s u s' o :
  type_objs s !! t = Some o → is_complex (ty_kind o) = false → c ≠ "" →
  anno_ok P s → update_type t (ty_set_cpp_type c) s = Ret (u, s') →
  anno_ok P s' ∧ kept None s s' ∧ visited s' t.
Proof.
  intros Ho Hk Hc Hok H. split; [|split].
  - eapply (anno_ok_update_type P t (ty_set_cpp_type c) s u s');
      [reflexivity | intros ox _; simpl; eauto | | intros ox _ _ _; simpl; eauto
      | | exact Hok | exact H].
    + intros ox cx _ Hcx. simpl in Hcx. congruence.
    + right. intros o' Ho'. rewrite Ho in Ho'. inversion Ho'; subst. exact Hk.
  - eapply kept_update_type_fields; [| | |exact H]; intros; simpl; eauto.
  - exists (ty_set_cpp_type c o). split; [eapply update_type_lookup; eassumption|].
    simpl. eauto.
Qed.

Lemma for_each_ok {A} (P : gset tid) (Q : A -> State -> Prop) (l : list A)
    (body : A -> M unit) :
  (∀ x s s', kept None s s' → Q x s → Q x s') →
  (∀ x s u s', x ∈ l → anno_ok P s → body x s = Ret (u, s') →
               anno_ok P s' ∧ kept None s s' ∧ Q x s') →
  ∀ s u s', anno_ok P s → for_each l body s = Ret (u, s') →
    anno_ok P s' ∧ kept None s s' ∧ ∀ x, x ∈ l → Q x s'.
Proof.
  intros Hmono. induction l as [|x l IH]; intros Hb s u s' Hok H; simpl in H.
  - apply ret_Ret_inv in H as [_ <-]. split; [exact Hok|]. split; [apply kept_refl|].
    intros x Hx. inversion Hx.
  - apply bind_Ret_inv in H as (u1 & s1 & H1 & H).
    destruct (Hb x s u1 s1 (list_elem_of_here _ _) Hok H1) as (Hok1 & K1 & Q1).
    destruct (IH (fun y sa ua sb Hy => Hb y sa ua sb (list_elem_of_further _ _ _ Hy))
                 s1 u s' Hok1 H) as (Hok' & K' & Q').
    split; [exact Hok'|]. split; [eapply kept_trans; eassumption|].
    intros y Hy. apply elem_of_cons in Hy as [->|Hy]; [|apply Q', Hy].
    eapply Hmono; eassumption.
Qed.

Lemma str_cons_app_nonempty (c : ascii) (x y : string) : String c x +:+ y ≠ "".
Proof. rewrite str_app_cons. discriminate. Qed.

Lemma anno_type_restriction_ok P t s u s' :
  anno_ok P s → anno_type_restriction t s = Ret (u, s') →
  anno_ok P s' ∧ kept None s s' ∧ visited s' t.
Proof.
  unfold anno_type_restriction. intros Hok H.
  apply bind_Ret_inv in H as (o & s1 & Ho & H). apply type_obj_Ret_inv in Ho as [Ho ->].
  destruct (ty_kind o) eqn:Hkind; try raised H.
  destruct (negb (length validators =? 1)%nat); [raised H|].
  apply bind_Ret_inv in H as (u1 & s1 & H1 & H).
  assert (S1 : anno_ok P s1 ∧ kept None s s1).
  { destruct (String.eqb (ty_name o) "").
    - eapply anno_ok_set_name; eassumption.
    - apply ret_Ret_inv in H1 as [_ <-]. split; [exact Hok | apply kept_refl]. }
  destruct S1 as [Hok1 K1].
  apply bind_Ret_inv in H as (o' & s2 & Ho' & H). apply type_obj_Ret_inv in Ho' as [Ho' ->].
  apply bind_Ret_inv in H as (u2 & s2 & H2 & H).
  assert (Hk' : is_complex (ty_kind o') = false).
  { destruct K1 as [T _]. destruct (T t o Ho) as (o1 & Ho1 & Hk1 & _).
    rewrite Ho' in Ho1. inversion Ho1; subst o1. rewrite Hk1, Hkind. reflexivity. }
  destruct (simple_cpp_type_ok P t _ s1 u2 s2 o' Ho' Hk'
              (str_cons_app_nonempty _ _ _) Hok1 H2) as (Hok2 & K2 & V2).
  assert (K3 : kept None s2 s') by (eapply kept_modify; [|exact H]; split; reflexivity).
  split; [eapply anno_ok_modify; [|exact Hok2|exact H]; split; reflexivity|].
  split; [eapply kept_trans; [exact K1|]; eapply kept_trans; eassumption|].
  eapply visited_kept; eassumption.
Qed.

Lemma anno_type_simple_type_ok fuel :
  ∀ P t s u s', anno_ok P s → anno_type_simple_type fuel t s = Ret (u, s') →
    anno_ok P s' ∧ kept None s s' ∧ visited s' t.
Proof.
  induction fuel as [|fuel IH]; intros P t s u s' Hok H; [discriminate|].
  simpl in H.
  apply bind_Ret_inv in H as (o & s1 & Ho & H). apply type_obj_Ret_inv in Ho as [Ho ->].
  destruct (ty_kind o) eqn:Hkind; try raised H.
  - destruct (assoc (ty_name o) atomic_builtins) as [c|] eqn:Hc; [|raised H].
    eapply simple_cpp_type_ok; try eassumption; [rewrite Hkind; reflexivity|].
    eapply builtin_cpp_type_nonempty, Hc.
  - eapply anno_type_restriction_ok; eassumption.
  - eapply simple_cpp_type_ok; try eassumption; [rewrite Hkind; reflexivity | discriminate].
  - unfold anno_type_union_with in H.
    apply bind_Ret_inv in H as (o' & s1 & Ho' & H). apply type_obj_Ret_inv in Ho' as [Ho' ->].
    rewrite Ho in Ho'. inversion Ho'; subst o'. clear Ho'.
    apply bind_Ret_inv in H as (u1 & s1 & H1 & H).
    assert (Hsimple : is_complex (ty_kind o) = false) by (rewrite Hkind; reflexivity).
    destruct (simple_cpp_type_ok P t _ s u1 s1 o Ho Hsimple
                (str_cons_app_nonempty _ _ _) Hok H1) as (Hok1 & K1 & V1).
    rewrite Hkind in H.
    apply bind_Ret_inv in H as (u2 & s2 & H2 & H).
    assert (Hloop : anno_ok P s2 ∧ kept None s1 s2 ∧ ∀ x : tid, x ∈ member_types → True).
    { eapply (for_each_ok P (fun _ _ => True)); [auto| |exact Hok1|exact H2].
      intros m sa ua sb _ Hoka Ha.
      apply bind_Ret_inv in Ha as (u3 & s3 & H3 & Hm).
      destruct (IH P m sa u3 s3 Hoka H3) as (Hok3 & K3 & _).
      split; [eapply anno_ok_modify; [|exact Hok3|exact Hm]; split; reflexivity|].
      split; [|exact I].
      eapply kept_trans; [exact K3|]. eapply kept_modify; [|exact Hm]; split; reflexivity. }
    destruct Hloop as (Hok2 & K2 & _).
    assert (K3 : kept None s2 s') by (eapply kept_modify; [|exact H]; split; reflexivity).
    split; [eapply anno_ok_modify; [|exact Hok2|exact H]; split; reflexivity|].
    split; [eapply kept_trans; [exact K1|]; eapply kept_trans; eassumption|].
    eapply visited_kept; [|exact V1]. eapply kept_trans; eassumption.
Qed.
Lemma update_elem_lookup e f s u s' el :
  update_elem e f s = Ret (u, s') → elem_objs s !! e = Some el →
  elem_objs s' !! e = Some (f el) ∧ type_objs s' = type_objs s.
Proof.
  intros H Hel. apply update_elem_Ret_inv in H. subst s'. simpl.
  rewrite Hel. split; [apply lookup_insert_eq | reflexivity].
Qed.

(** an assignment to an element that is done afterwards *)
Lemma anno_ok_update_elem P e f s u s' :
  (∀ o, el_type (f o) = el_type o ∧
        (is_Some (el_cpp_type o) → is_Some (el_cpp_type (f o))) ∧
        (is_Some (el_many o) → is_Some (el_many (f o))) ∧
        (is_Some (el_optional o) → is_Some (el_optional (f o)))) →
  (∀ el, elem_objs s !! e = Some el → is_Some (el_cpp_type (f el)) →
         is_Some (el_many (f el)) ∧ is_Some (el_optional (f el)) ∧ visited s (el_type el)) →
  anno_ok P s → update_elem e f s = Ret (u, s') → anno_ok P s' ∧ kept None s s'.
Proof.
  intros Hf Hdone (H1 & H2 & H3 & H4) H.
  pose proof (kept_update_elem e f s u s' Hf H) as K. split; [|exact K].
  pose proof (update_elem_Ret_inv _ _ _ _ _ H) as Hs'.
  assert (Ht : type_objs s' = type_objs s) by (subst s'; reflexivity).
  split; [|split; [|split; [|intros t o; rewrite Ht; apply H4]]].
  - intros t o c. rewrite Ht. apply H1.
  - intros e' el' He' Hc'.
    destruct (elem_objs s !! e) as [el|] eqn:He.
    + destruct (decide (e = e')) as [<-|Hne].
      * destruct (update_elem_lookup _ _ _ _ _ _ H He) as [Hl _].
        rewrite Hl in He'. inversion He'; subst el'.
        destruct (Hdone el eq_refl Hc') as (Hm & Ho & Hv).
        exists (f el). split; [exact Hl|]. split; [exact Hc'|]. split; [exact Hm|].
        split; [exact Ho|]. rewrite (proj1 (Hf el)).
        eapply visited_kept; eassumption.
      * eapply element_done_kept; [exact K|].
        subst s'. simpl in He'. rewrite He in He'.
        rewrite lookup_insert_ne in He' by exact Hne. eapply H2; eassumption.
    + eapply element_done_kept; [exact K|].
      subst s'. simpl in He'. rewrite He in He'. eapply H2; eassumption.
  - intros t o Ho Hcx Hv Hn. eapply type_done_kept; [exact K | discriminate|].
    rewrite Ht in Ho. eapply H3; eassumption.
Qed.

Lemma anno_type_element_with_ok anno_ct fuel :
  (∀ P T s u s', anno_ok P s → anno_ct T s = Ret (u, s') →
     anno_ok P s' ∧ kept None s s' ∧ visited s' T) →
  ∀ P e many optional s u s',
    anno_ok P s → anno_type_element_with anno_ct fuel e many optional s = Ret (u, s') →
    anno_ok P s' ∧ kept None s s' ∧ element_done s' e.
Proof.
  intros Hct P e many optional s u s' Hok H. unfold anno_type_element_with in H.
  apply bind_Ret_inv in H as (el & s1 & Hel & H). apply elem_obj_Ret_inv in Hel as [Hel ->].
  destruct (el_cpp_type el) as [c0|] eqn:Hc0.
  { apply ret_Ret_inv in H as [_ <-]. split; [exact Hok|]. split; [apply kept_refl|].
    destruct Hok as (_ & H2 & _). apply (H2 e el Hel). rewrite Hc0. eauto. }
  apply bind_Ret_inv in H as (ty & s1 & Hty & H). apply type_obj_Ret_inv in Hty as [Hty ->].
  apply bind_Ret_inv in H as (u1 & s1 & H1 & H).
  assert (S1 : anno_ok P s1 ∧ kept None s s1).
  { destruct (String.eqb (ty_name ty) "").
    - apply bind_Ret_inv in H1 as (u2 & s2 & H2 & H1).
      destruct (anno_ok_set_name P _ _ _ _ _ Hok H2) as [Hok2 K2].
      split; [eapply anno_ok_modify; [|exact Hok2|exact H1]; split; reflexivity|].
      eapply kept_trans; [exact K2|]. eapply kept_modify; [|exact H1]. split; reflexivity.
    - apply ret_Ret_inv in H1 as [_ <-]. split; [exact Hok | apply kept_refl]. }
  destruct S1 as [Hok1 K1]. clear H1.
  apply bind_Ret_inv in H as (go_on & s2 & Hgo & H).
  assert (S2 : anno_ok P s2 ∧ kept None s1 s2 ∧ visited s2 (el_type el) ∧ go_on = true).
  { destruct (is_complex (ty_kind ty)).
    - apply bind_Ret_inv in Hgo as (u2 & s3 & H2 & Hgo).
      apply bind_Ret_inv in Hgo as (ty' & s4 & Hty' & Hgo).
      apply type_obj_Ret_inv in Hty' as [Hty' ->].
      apply ret_Ret_inv in Hgo as [<- <-].
      destruct (Hct P _ _ _ _ Hok1 H2) as (Hok2 & K2 & V2).
      split; [exact Hok2|]. split; [exact K2|]. split; [exact V2|].
      destruct V2 as (o2 & Ho2 & [c Hc]). rewrite Hty' in Ho2. inversion Ho2; subst o2.
      rewrite Hc. simpl. apply negb_true_iff, String.eqb_neq.
      destruct Hok2 as (Hne & _). eapply Hne; eassumption.
    - apply bind_Ret_inv in Hgo as (u2 & s3 & H2 & Hgo).
      apply ret_Ret_inv in Hgo as [<- <-].
      destruct (anno_type_simple_type_ok fuel P _ _ _ _ Hok1 H2) as (Hok2 & K2 & V2).
      split; [exact Hok2|]. split; [exact K2|]. split; [exact V2 | reflexivity]. }
  destruct S2 as (Hok2 & K2 & V2 & ->). clear Hgo.
  assert (K02 : kept None s s2) by (eapply kept_trans; eassumption).
  destruct (proj2 K02 e el Hel) as (el2 & Hel2 & Hty2 & _).
  apply bind_Ret_inv in H as (u3 & s3 & H3 & H).
  assert (S3 : anno_ok P s3 ∧ kept None s2 s3).
  { eapply anno_ok_update_elem; [| |exact Hok2|exact H3].
    - intros o. simpl. repeat split; eauto.
    - intros el' Hel' _. rewrite Hel2 in Hel'. inversion Hel'; subst el'. simpl.
      split; [eauto|]. split; [eauto|]. rewrite Hty2. exact V2. }
  destruct S3 as [Hok3 K3].
  destruct (update_elem_lookup _ _ _ _ _ _ H3 Hel2) as [Hel3 Ht3].
  apply bind_Ret_inv in H as (u4 & s4 & H4 & H).
  assert (S4 : type_objs s4 = type_objs s3 ∧ elem_objs s4 = elem_objs s3).
  { destruct (many || occurs_many (el_occurs el)).
    - unfold modify in H4. inversion H4; subst. split; reflexivity.
    - apply ret_Ret_inv in H4 as [_ <-]. split; reflexivity. }
  destruct S4 as [Ht4 He4].
  assert (Hok4 : anno_ok P s4) by (eapply anno_ok_heap; eassumption).
  assert (K4 : kept None s3 s4) by (apply kept_heap; assumption).
  apply bind_Ret_inv in H as (ty'' & s5 & Hty'' & H). apply type_obj_Ret_inv in Hty'' as [_ ->].
  apply bind_Ret_inv in H as (c & s5 & Hc & H). apply attr_of_Ret_inv in Hc as [_ ->].
  assert (Hel4 : elem_objs s4 !! e = Some (el_set_many_optional
                   (many || occurs_many (el_occurs el))
                   (optional || occurs_optional (el_occurs el)) el2))
    by (rewrite He4; exact Hel3).
  assert (V4 : visited s4 (el_type el)).
  { eapply visited_kept; [exact K4|]. eapply visited_kept; [exact K3 | exact V2]. }
  assert (S5 : anno_ok P s' ∧ kept None s4 s').
  { eapply anno_ok_update_elem; [| |exact Hok4|exact H].
    - intros o. simpl. repeat split; eauto.
    - intros el' Hel' _. rewrite Hel4 in Hel'. inversion Hel'; subst el'. simpl.
      split; [eauto|]. split; [eauto|]. rewrite Hty2. exact V4. }
  destruct S5 as [Hok5 K5].
  split; [exact Hok5|].
  split; [eapply kept_trans; [exact K02|]; eapply kept_trans; [exact K3|];
          eapply kept_trans; eassumption|].
  destruct (update_elem_lookup _ _ _ _ _ _ H Hel4) as [Hel5 Ht5].
  eexists. split; [exact Hel5|]. simpl. split; [eauto|]. split; [eauto|]. split; [eauto|].
  rewrite Hty2. eapply visited_kept; eassumption.
Qed.

Lemma group_loop_ok P on_group on_element (l : list XsdParticle) :
  (∀ g, PGroup g ∈ l → ∀ s out s', anno_ok P s → on_group g s = Ret (out, s') →
        anno_ok P s' ∧ kept None s s' ∧ ∀ e, e ∈ group_elements g → element_done s' e) →
  (∀ x s u s', anno_ok P s → on_element x s = Ret (u, s') →
               anno_ok P s' ∧ kept None s s' ∧ element_done s' x) →
  ∀ s out s', anno_ok P s → group_loop on_group on_element l s = Ret (out, s') →
    anno_ok P s' ∧ kept None s s' ∧
    ∀ e, e ∈ flat_map (particle_elements group_elements) l → element_done s' e.
Proof.
  intros Hgs Hel. revert Hgs. induction l as [|p r IH]; intros Hgs s out s' Hok H; simpl in H.
  - apply ret_Ret_inv in H as [_ <-]. split; [exact Hok|]. split; [apply kept_refl|].
    intros e He. inversion He.
  - apply bind_Ret_inv in H as (out1 & s1 & H1 & H).
    apply bind_Ret_inv in H as (out2 & s2 & H2 & H).
    apply ret_Ret_inv in H as [_ <-].
    assert (S1 : anno_ok P s1 ∧ kept None s s1 ∧
                 ∀ e, e ∈ particle_elements group_elements p → element_done s1 e).
    { destruct p as [x|g|].
      - apply bind_Ret_inv in H1 as (u1 & s3 & Hx & H1).
        apply ret_Ret_inv in H1 as [_ <-].
        destruct (Hel x s u1 s3 Hok Hx) as (Hok1 & K1 & D1).
        split; [exact Hok1|]. split; [exact K1|].
        intros e He. apply list_elem_of_singleton in He as ->. exact D1.
      - exact (Hgs g (list_elem_of_here _ _) s out1 s1 Hok H1).
      - raised H1. }
    destruct S1 as (Hok1 & K1 & D1).
    destruct (IH (fun g Hin => Hgs g (list_elem_of_further _ _ _ Hin)) s1 out2 s2 Hok1 H2)
      as (Hok2 & K2 & D2).
    split; [exact Hok2|]. split; [eapply kept_trans; eassumption|].
    intros e He. simpl in He. apply elem_of_app in He as [He|He].
    + eapply element_done_kept; [exact K2|]. apply D1, He.
    + apply D2, He.
Qed.

Lemma anno_type_group_with_ok P anno_el :
  (∀ x many optional s u s', anno_ok P s → anno_el x many optional s = Ret (u, s') →
     anno_ok P s' ∧ kept None s s' ∧ element_done s' x) →
  ∀ g many optional s out s',
    anno_ok P s → anno_type_group_with anno_el g many optional s = Ret (out, s') →
    anno_ok P s' ∧ kept None s s' ∧ ∀ e, e ∈ group_elements g → element_done s' e.
Proof.
  intros Hel g. induction g as [occ model members IH] using XsdGroup_nested_ind.
  intros many optional s out s' Hok H. simpl in H.
  apply (group_loop_ok P _ _ members) in H; [exact H| | |exact Hok].
  - intros g Hin sa outa sb Hoka Ha. exact (IH g Hin _ _ sa outa sb Hoka Ha).
  - intros x sa ua sb Hoka Ha. exact (Hel x _ _ sa ua sb Hoka Ha).
Qed.
(** an assignment the call that visits [t] makes to [t] *)
Lemma own_update (P : gset tid) t f s u s' o :
  type_objs s !! t = Some o → is_Some (ty_cpp_type o) → t ∈ P →
  (∀ o, ty_kind (f o) = ty_kind o) →
  (∀ o, ty_cpp_type (f o) = ty_cpp_type o) →
  anno_ok P s → update_type t f s = Ret (u, s') →
  anno_ok P s' ∧ kept (Some t) s s' ∧ type_objs s' !! t = Some (f o).
Proof.
  intros Ho Hv HP Hk Hc Hok H.
  split; [|split].
  - eapply anno_ok_update_type; [exact Hk| | | | |exact Hok|exact H].
    + intros o1. rewrite Hc. auto.
    + intros o1 c Ho1. rewrite Hc. destruct Hok as (Hne & _). eapply Hne; eassumption.
    + intros o1 Ho1 _ _. rewrite Hc. rewrite Ho in Ho1. inversion Ho1; subst o1. exact Hv.
    + left. exact HP.
  - eapply kept_update_type; [exact Hk| |exact H]. intros o1. rewrite Hc. auto.
  - eapply update_type_lookup; eassumption.
Qed.

Section Complete.

Variable dfa_from_group : State -> XsdGroup -> outcome DFA.

Lemma model_choice_ok (P : gset tid) T g s u s' o :
  type_objs s !! T = Some o → is_Some (ty_cpp_type o) → T ∈ P → anno_ok P s →
  (if String.eqb (g_model g) "all" then
     update_type T (ty_set_model (Some ModelAll))
   else if str_in (g_model g) ["choice"; "sequence"] then
     update_type T (ty_set_model (Some ModelDfa));;
     d ← call_dfa_from_group dfa_from_group g;
     update_type T (ty_set_dfa d)
   else raise (NotImplementedError "Model group is not supported.")) s = Ret (u, s') →
  anno_ok P s' ∧ kept (Some T) s s' ∧
  ∃ o' m, type_objs s' !! T = Some o' ∧ ty_model o' = Some (Some m) ∧
          (m = ModelDfa → is_Some (ty_dfa o')) ∧
          ty_cpp_type o' = ty_cpp_type o ∧
          ty_attribute_list o' = ty_attribute_list o.
Proof.
  intros Ho Hv HP Hok H. destruct (String.eqb (g_model g) "all").
  - pose proof H as H_own.
      eapply own_update in H_own as (Hok' & K & Ho'); [|exact Ho|exact Hv|exact HP|reflexivity|reflexivity|exact Hok].
    split; [exact Hok'|]. split; [exact K|].
    eexists _, ModelAll. split; [exact Ho'|]. simpl. repeat split; try reflexivity.
    discriminate.
  - destruct (str_in (g_model g) ["choice"; "sequence"]); [|raised H].
    apply bind_Ret_inv in H as (u1 & s1 & H1 & H).
    apply bind_Ret_inv in H as (d & s2 & Hd & H).
    apply call_dfa_from_group_Ret_inv in Hd as ->.
    pose proof H1 as H1_own.
      eapply own_update in H1_own as (Hok1 & K1 & Ho1); [|exact Ho|exact Hv|exact HP|reflexivity|reflexivity|exact Hok].
    pose proof H as H_own.
      eapply own_update in H_own as (Hok2 & K2 & Ho2); [|exact Ho1|simpl; exact Hv|exact HP|reflexivity|reflexivity|exact Hok1].
    split; [exact Hok2|]. split; [eapply kept_trans; eassumption|].
    eexists _, ModelDfa. split; [exact Ho2|]. simpl. repeat split; eauto.
Qed.

(** the end of the call that visited [T] *)
Lemma complex_type_finished (P : gset tid) T s s' o oF attrs m ces :
  type_objs s !! T = Some o → ty_cpp_type o = None →
  anno_ok ({[T]} ∪ P) s' → kept (Some T) s s' →
  type_objs s' !! T = Some oF → is_complex (ty_kind oF) = true →
  is_Some (ty_cpp_type oF) →
  ty_attribute_list oF = Some attrs → ty_model oF = Some m →
  ty_child_elements oF = Some ces →
  (∀ a, a ∈ attrs → visited s' (a_type a)) →
  (∀ e, e ∈ ces → element_done s' e) →
  (∀ c, has_simple_content oF = Some c → visited s' c) →
  (m = Some ModelDfa → is_Some (ty_dfa oF)) →
  anno_ok P s' ∧ kept None s s' ∧ visited s' T.
Proof.
  intros Ho Hcpp (H1 & H2 & H3 & H4) K HoF HcxF Hc Ha Hm Hces Hav Hch Hsc Hd.
  split; [|split].
  - split; [exact H1|]. split; [exact H2|]. split; [|exact H4].
    intros t' o' Ho' Hcx Hv Hn. destruct (decide (t' = T)) as [->|Hne].
    + exists oF, attrs, m, ces. repeat split; assumption.
    + apply (H3 t' o' Ho' Hcx Hv). set_solver.
  - eapply kept_own_unvisited; [exact K|].
    intros o' Ho'. rewrite Ho in Ho'. inversion Ho'; subst. exact Hcpp.
  - exists oF. split; assumption.
Qed.

Lemma anno_type_complex_type_ok fuel :
  ∀ P T s u s', anno_ok P s →
    anno_type_complex_type dfa_from_group fuel T s = Ret (u, s') →
    anno_ok P s' ∧ kept None s s' ∧ visited s' T.
Proof.
  induction fuel as [|fuel IH]; intros P T s u s' Hok H; [discriminate|].
  simpl in H.
  apply bind_Ret_inv in H as (o & s1 & Ho & H). apply type_obj_Ret_inv in Ho as [Ho ->].
  destruct (ty_cpp_type o) as [c0|] eqn:Hcpp.
  { apply ret_Ret_inv in H as [_ <-]. split; [exact Hok|]. split; [apply kept_refl|].
    exists o. split; [exact Ho|]. rewrite Hcpp. eauto. }
  (* from here on [T] is under way *)
  remember ({[T]} ∪ P) as P' eqn:EP.
  assert (HP' : T ∈ P') by (subst P'; set_solver).
  assert (Hok0 : anno_ok P' s) by (eapply anno_ok_weaken; [|exact Hok]; subst P'; set_solver).
  apply bind_Ret_inv in H as (u1 & s1 & H1 & H).
  assert (Hok1 : anno_ok P' s1).
  { eapply (anno_ok_update_type P' T (ty_set_cpp_type (to_cpp_type (ty_name o))) s u1 s1);
      [reflexivity | intros ox _; simpl; eauto | | intros ox _ _ _; simpl; eauto
      | left; exact HP' | exact Hok0 | exact H1].
    intros ox cx _ Hcx Ex. simpl in Hcx. inversion Hcx as [Hx]. rewrite Ex in Hx.
    exact (to_cpp_type_nonempty _ Hx). }
  assert (K1 : kept (Some T) s s1)
    by (eapply kept_update_type; [| |exact H1]; intros; simpl; eauto).
  pose proof (update_type_lookup _ _ _ _ _ _ H1 Ho) as Ho1.
  destruct (ty_kind o) as [attributes content| | | | |] eqn:Hkind; try raised H.
  apply bind_Ret_inv in H as (u2 & s2 & H2 & H).
  pose proof H2 as H2_own.
      eapply own_update in H2_own as (Hok2 & K2 & Ho2); [|exact Ho1|simpl; eauto|exact HP'|reflexivity|reflexivity|exact Hok1].
  apply bind_Ret_inv in H as (u3 & s3 & H3 & H).
  assert (S3 : anno_ok P' s3 ∧ kept None s2 s3 ∧
               ∀ a, a ∈ dedup_stable attributes [] → visited s3 (a_type a)).
  { eapply (for_each_ok P' (fun a sx => visited sx (a_type a)));
      [|  |exact Hok2|exact H3].
    - intros a sa sb K V. eapply visited_kept; eassumption.
    - intros a sa ua sb _ Hoka Ha. cbv beta in Ha.
      destruct (String.eqb (a_use a) "prohibited"); [raised Ha|].
      eapply anno_type_simple_type_ok; eassumption. }
  destruct S3 as (Hok3 & K3 & V3).
  destruct (proj1 K3 T _ Ho2) as (o3 & Ho3 & Hk3 & Hc3 & Hf3).
  destruct Hf3 as (A3 & _ & _ & _); [discriminate | simpl; eauto|].
  simpl in A3, Hk3. specialize (Hc3 ltac:(simpl; eauto)).
  apply bind_Ret_inv in H as (u4 & s4 & H4 & H).
  pose proof H4 as H4_own.
      eapply own_update in H4_own as (Hok4 & K4 & Ho4); [|exact Ho3|exact Hc3|exact HP'|reflexivity|reflexivity|exact Hok3].
  apply bind_Ret_inv in H as (u5 & s5 & H5 & H).
  pose proof H5 as H5_own.
      eapply own_update in H5_own as (Hok5 & K5 & Ho5); [|exact Ho4|simpl; exact Hc3|exact HP'|reflexivity|reflexivity|exact Hok4].
  assert (K03 : kept (Some T) s s3).
  { eapply kept_trans; [exact K1|]. eapply kept_trans; [exact K2|].
    apply kept_weaken. exact K3. }
  assert (K35 : kept (Some T) s3 s5) by (eapply kept_trans; eassumption).
  assert (K05 : kept (Some T) s s5) by (eapply kept_trans; eassumption).
  destruct content as [g|c].
  - destruct g as [occ model members].
    destruct (0 <? length (g_members (Group occ model members)))%nat eqn:Hlen.
    + apply bind_Ret_inv in H as (u6 & s6 & H6 & H).
      destruct (model_choice_ok P' T _ s5 u6 s6 _ Ho5 ltac:(simpl; exact Hc3) HP' Hok5 H6)
        as (Hok6 & K6 & o6 & m & Ho6 & Hm6 & Hd6 & Hc6 & Ha6).
      simpl in Hc6, Ha6.
      assert (Hk6' : ty_kind o6 = ty_kind o3).
      { destruct (proj1 K6 T _ Ho5) as (ox & Hox & Hkx & _).
        rewrite Ho6 in Hox. inversion Hox; subst ox. exact Hkx. }
      apply bind_Ret_inv in H as (ces & s7 & H7 & H).
      pose proof H7 as H7'.
      apply anno_type_group_with_grows in H7' as (_ & -> & _).
      2:{ intros x many optional sa ua sb Ha.
          eapply anno_type_element_with_grows; [|exact Ha].
          intros T' sc uc sd Hc'.
          apply (anno_type_complex_type_post dfa_from_group fuel T' sc uc sd Hc'). }
      assert (S7 : anno_ok P' s7 ∧ kept None s6 s7 ∧
                   ∀ e, e ∈ group_elements (Group occ model members) → element_done s7 e).
      { eapply (anno_type_group_with_ok P'); [|exact Hok6|exact H7].
        intros x many optional sa ua sb Hoka Ha.
        eapply (anno_type_element_with_ok _ fuel); [|exact Hoka|exact Ha].
        intros P0 T' sc uc sd Hokc Hc'. exact (IH P0 T' sc uc sd Hokc Hc'). }
      destruct S7 as (Hok7 & K7 & D7).
      destruct (proj1 K7 T _ Ho6) as (o7 & Ho7 & Hk7 & Hc7 & Hf7).
      assert (Hv6 : is_Some (ty_cpp_type o6)) by (rewrite Hc6; exact Hc3).
      destruct (Hf7 ltac:(discriminate) Hv6) as (A7 & M7 & D7' & _).
      pose proof H as H_own.
      eapply own_update in H_own as (Hok8 & K8 & Ho8); [|exact Ho7|exact (Hc7 Hv6)|exact HP'|reflexivity|reflexivity|exact Hok7].
      assert (K58 : kept (Some T) s5 s').
      { eapply kept_trans; [exact K6|]. eapply kept_trans; [apply kept_weaken; exact K7|].
        exact K8. }
      eapply (complex_type_finished P T s s' o _ (dedup_stable attributes []) (Some m)
                (group_elements (Group occ model members)));
        [exact Ho | exact Hcpp | subst P'; exact Hok8 | eapply kept_trans; eassumption | exact Ho8
        | simpl; rewrite Hk7, Hk6', Hk3, Hkind; reflexivity
        | simpl; exact (Hc7 Hv6) | simpl; congruence | simpl; congruence | reflexivity
        | | | | ].
      * intros a Ha. eapply visited_kept; [|apply V3, Ha]. eapply kept_trans; eassumption.
      * intros e He. eapply element_done_kept; [exact K8|]. apply D7, He.
      * intros c Hsc. unfold has_simple_content in Hsc. simpl in Hsc.
        rewrite Hk7 in Hsc.
        destruct (proj1 K6 T _ Ho5) as (o6' & Ho6' & Hk6 & _).
        rewrite Ho6 in Ho6'. inversion Ho6'; subst o6'.
        rewrite Hk6 in Hsc. simpl in Hsc. rewrite Hk3, Hkind in Hsc. discriminate Hsc.
      * intros Hmd. simpl. rewrite D7'. apply Hd6. congruence.
    + apply ret_Ret_inv in H as [_ <-].
      eapply (complex_type_finished P T s s5 o _ (dedup_stable attributes []) None []);
        [exact Ho | exact Hcpp | subst P'; exact Hok5 | exact K05 | exact Ho5
        | simpl; rewrite Hk3, Hkind; reflexivity
        | simpl; exact Hc3 | simpl; congruence | reflexivity | reflexivity | | | | ].
      * intros a Ha. eapply visited_kept; [exact K35|]. apply V3, Ha.
      * intros e He. inversion He.
      * intros c Hsc. unfold has_simple_content in Hsc. simpl in Hsc.
        rewrite Hk3, Hkind in Hsc. discriminate Hsc.
      * discriminate.
  - destruct (anno_type_simple_type_ok fuel P' c s5 u s' Hok5 H) as (Hok6 & K6 & V6).
    destruct (proj1 K6 T _ Ho5) as (o6 & Ho6 & Hk6 & Hc6 & Hf6).
    destruct (Hf6 ltac:(discriminate) ltac:(simpl; exact Hc3)) as (A6 & M6 & D6 & C6).
    eapply (complex_type_finished P T s s' o o6 (dedup_stable attributes []) None []);
      [exact Ho | exact Hcpp | subst P'; exact Hok6
      | eapply kept_trans; [exact K05 | apply kept_weaken; exact K6] | exact Ho6
      | rewrite Hk6; simpl; rewrite Hk3, Hkind; reflexivity
      | apply Hc6; simpl; exact Hc3 | rewrite A6; simpl; congruence
      | rewrite M6; reflexivity | rewrite C6; reflexivity | | | | ].
    * intros a Ha. eapply visited_kept; [exact K6|].
      eapply visited_kept; [exact K35|]. apply V3, Ha.
    * intros e He. inversion He.
    * intros c' Hsc. unfold has_simple_content in Hsc.
      rewrite Hk6 in Hsc. simpl in Hsc. rewrite Hk3, Hkind in Hsc.
      inversion Hsc; subst c'. exact V6.
    * discriminate.
Qed.

Lemma anno_type_element_ok fuel P e many optional s u s' :
  anno_ok P s → anno_type_element dfa_from_group fuel e many optional s = Ret (u, s') →
  anno_ok P s' ∧ kept None s s' ∧ element_done s' e.
Proof.
  intros Hok H. eapply (anno_type_element_with_ok _ fuel); [|exact Hok|exact H].
  intros P0 T sa ua sb Hoka Ha. exact (anno_type_complex_type_ok fuel P0 T sa ua sb Hoka Ha).
Qed.

End Complete.

Lemma anno_ok_untouched s : untouched s → anno_ok ∅ s.
Proof.
  intros [Ht He]. split; [|split; [|split]].
  - intros t o c Ho Hc. destruct (Ht t o Ho) as [E _]. congruence.
  - intros e el Hel [c Hc]. rewrite (He e el Hel) in Hc. discriminate Hc.
  - intros t o Ho _ [c Hc]. destruct (Ht t o Ho) as [E _]. congruence.
  - intros t o Ho [c Hc]. destruct (Ht t o Ho) as [_ E]. congruence.
Qed.

Lemma annotate_ok dfa_from_group fuel s u s' :
  anno_ok ∅ s → annotate dfa_from_group fuel s = Ret (u, s') →
  anno_ok ∅ s' ∧ kept None s s' ∧
  (∀ t, t ∈ types s → visited s' t) ∧ (∀ e, e ∈ elements s → element_done s' e).
Proof.
  unfold annotate. intros Hok H.
  apply bind_Ret_inv in H as (s0 & s1 & Hg & H). apply get_Ret_inv in Hg as [-> ->].
  apply bind_Ret_inv in H as (u1 & s1 & H1 & H).
  destruct (for_each_ok ∅ (fun t sx => visited sx t) (types s)
              (anno_type_complex_type dfa_from_group fuel)) with (3 := Hok) (4 := H1)
    as (Hok1 & K1 & V1).
  { intros t sa sb K V. eapply visited_kept; eassumption. }
  { intros t sa ua sb _ Hoka Ha.
    exact (anno_type_complex_type_ok dfa_from_group fuel ∅ t sa ua sb Hoka Ha). }
  destruct (for_each_ok ∅ (fun e sx => element_done sx e) (elements s)
              (fun e => anno_type_element dfa_from_group fuel e false false))
    with (3 := Hok1) (4 := H) as (Hok2 & K2 & D2).
  { intros e sa sb K D. eapply element_done_kept; eassumption. }
  { intros e sa ua sb _ Hoka Ha.
    exact (anno_type_element_ok dfa_from_group fuel ∅ e false false sa ua sb Hoka Ha). }
  split; [exact Hok2|]. split; [eapply kept_trans; eassumption|].
  split; [|exact D2].
  intros t Ht. eapply visited_kept; [exact K2|]. apply V1, Ht.
Qed.

(** X19: when the two annotation loops return on a graph the script has
    not touched yet, nothing is left half annotated.  Every type of
    [types] carries its [cpp_type] and every root element is done.
    Every complex type that carries a [cpp_type], however it was
    reached, carries [attribute_list], [model] and [child_elements]
    too (and a [dfa] when its model is the dfa one); its attribute
    types, the type of its simple content and the types of its child
    elements carry a [cpp_type], and its child elements carry
    [cpp_type], [many] and [optional].  No [cpp_type] is the empty
    string.  So the early return on a type that is being visited,
    which cuts a recursive schema, never leaves a reference to an
    object that stays unfinished. *)
Theorem annotation_is_complete dfa_from_group (fuel : nat) (s s' : State) (u : unit) :
  untouched s →
  annotate dfa_from_group fuel s = Ret (u, s') →
  (∀ t, t ∈ types s → visited s' t) ∧
  (∀ e, e ∈ elements s → element_done s' e) ∧
  (∀ t o, type_objs s' !! t = Some o → is_complex (ty_kind o) = true →
          is_Some (ty_cpp_type o) → type_done s' t) ∧
  (∀ e el, elem_objs s' !! e = Some el → is_Some (el_cpp_type el) → element_done s' e) ∧
  (∀ t o, type_objs s' !! t = Some o → ty_cpp_type o ≠ Some "").
Proof.
  intros Hu H.
  destruct (annotate_ok dfa_from_group fuel s u s' (anno_ok_untouched s Hu) H)
    as ((H1 & H2 & H3 & H4) & _ & V & D).
  split; [exact V|]. split; [exact D|]. split.
  - intros t o Ho Hcx Hc. apply (H3 t o Ho Hcx Hc). set_solver.
  - split; [exact H2|]. intros t o Ho Hc. exact (H1 t o "" Ho Hc eq_refl).
Qed.

Lemma untouched_root_tree_schema : untouched Fixtures.root_tree_schema.
Proof.
  split.
  - intros t o Ho. apply elem_of_map_to_list in Ho.
    match type of Ho with
    | _ ∈ map_to_list ?m => remember (map_to_list m) as l eqn:El; vm_compute in El; subst l
    end.
    apply elem_of_cons in Ho as [Ho|Ho]; [inversion Ho; subst; split; reflexivity|].
    apply list_elem_of_singleton in Ho. inversion Ho; subst. split; reflexivity.
  - intros e el He. apply elem_of_map_to_list in He.
    match type of He with
    | _ ∈ map_to_list ?m => remember (map_to_list m) as l eqn:El; vm_compute in El; subst l
    end.
    apply elem_of_cons in He as [He|He]; [inversion He; subst; reflexivity|].
    apply list_elem_of_singleton in He. inversion He; subst. reflexivity.
Qed.

Lemma annotation_is_complete_witness :
  type_done (Fixtures.annotated_unsorted Fixtures.root_tree_schema) 0 ∧
  element_done (Fixtures.annotated_unsorted Fixtures.root_tree_schema) 1.
Proof.
  destruct (annotation_is_complete Fixtures.unit_dfa 10 Fixtures.root_tree_schema
              (Fixtures.annotated_unsorted Fixtures.root_tree_schema) tt
              untouched_root_tree_schema)
    as (V & D & T & _).
  - vm_compute. reflexivity.
  - split.
    + destruct (V 0) as (o & Ho & Hc); [vm_compute; left|].
      destruct (is_complex (ty_kind o)) eqn:Hcx.
      * exact (T 0 o Ho Hcx Hc).
      * exfalso. vm_compute in Ho. inversion Ho; subst o. discriminate Hcx.
    + apply D. vm_compute. left.
Defined.

(** ** The data model of an annotated graph is always emitted *)

Lemma warns_kept s s' : warns s s' → kept None s s'.
Proof. intros W. destruct (warns_graph _ _ W) as [Ht He]. apply kept_heap; assumption. Qed.

Lemma returns_ret {A} (a : A) s : returns (ret a) s.
Proof. exists a, s. split; [reflexivity | apply warns_refl]. Qed.

Lemma returns_bind {A B} (m : M A) (k : A -> M B) s :
  returns m s →
  (∀ a s1, m s = Ret (a, s1) → warns s s1 → returns (k a) s1) →
  returns (m ≫= k) s.
Proof.
  intros (a & s1 & Hm & W1) Hk.
  destruct (Hk a s1 Hm W1) as (b & s2 & Hb & W2).
  exists b, s2. split; [|eapply warns_trans; eassumption].
  rewrite (bind_Ret _ _ _ _ _ Hm). exact Hb.
Qed.

(** a step that reads *)
Lemma returns_read {A B} (m : M A) (k : A -> M B) s a :
  m s = Ret (a, s) → returns (k a) s → returns (m ≫= k) s.
Proof.
  intros Hm (b & s2 & Hb & W). exists b, s2. split; [|exact W].
  rewrite (bind_Ret _ _ _ _ _ Hm). exact Hb.
Qed.

Lemma returns_checked x s : returns (checked x) s.
Proof.
  destruct (checked x s) as [[a s']| |] eqn:E.
  - exists a, s'. split; [exact E|]. eapply steps_checked; exact E.
  - unfold checked in E. destruct (str_in x cpp_keywords); discriminate E.
  - unfold checked in E. destruct (str_in x cpp_keywords); discriminate E.
Qed.

Lemma returns_concat_m {A} (Inv : State -> Prop) (f : A -> M string) (l : list A) :
  (∀ s s', warns s s' → Inv s → Inv s') →
  (∀ x s, x ∈ l → Inv s → returns (f x) s) →
  ∀ s, Inv s → returns (concat_m f l) s.
Proof.
  intros Hmono. induction l as [|x l IH]; intros Hf s Hs; simpl.
  - apply returns_ret.
  - apply returns_bind; [apply Hf; [left | exact Hs]|].
    intros y s1 _ W1. apply returns_bind.
    + apply IH; [|exact (Hmono _ _ W1 Hs)].
      intros z sz Hz. apply Hf. right. exact Hz.
    + intros ys s2 _ _. apply returns_ret.
Qed.

Lemma returns_map_m {A B} (Inv : State -> Prop) (f : A -> M B) (l : list A) :
  (∀ s s', warns s s' → Inv s → Inv s') →
  (∀ x s, x ∈ l → Inv s → returns (f x) s) →
  ∀ s, Inv s → returns (map_m f l) s.
Proof.
  intros Hmono. induction l as [|x l IH]; intros Hf s Hs; simpl.
  - apply returns_ret.
  - apply returns_bind; [apply Hf; [left | exact Hs]|].
    intros y s1 _ W1. apply returns_bind.
    + apply IH; [|exact (Hmono _ _ W1 Hs)].
      intros z sz Hz. apply Hf. right. exact Hz.
    + intros ys s2 _ _. apply returns_ret.
Qed.

Lemma cpp_type_of_visited t s : visited s t → ∃ c, cpp_type_of t s = Ret (c, s).
Proof.
  intros (o & Ho & c & Hc). exists c. unfold cpp_type_of.
  rewrite (bind_Ret _ _ _ _ _ (type_obj_Ret _ _ _ Ho)), Hc. reflexivity.
Qed.

Lemma typedefn_from_complex_type_returns t s :
  type_done s t → returns (typedefn_from_complex_type t) s.
Proof.
  intros (o & attrs & m & ces & Ho & Hcx & [c Hc] & Ha & Hm & Hces & Hav & Hed & Hsc & Hd).
  unfold typedefn_from_complex_type.
  apply (returns_read _ _ _ o (type_obj_Ret _ _ _ Ho)).
  rewrite Ha, Hces, Hc.
  apply (returns_read _ _ _ attrs eq_refl).
  apply returns_bind.
  { apply (returns_concat_m (fun sx => ∀ a, a ∈ attrs → visited sx (a_type a)));
      [| |exact Hav].
    - intros sa sb W V a Hin. eapply visited_kept; [apply warns_kept; exact W|]. apply V, Hin.
    - intros a sa Hin V. destruct (cpp_type_of_visited _ _ (V a Hin)) as [ca Hca].
      apply (returns_read _ _ _ ca Hca).
      apply returns_bind; [apply returns_checked|]. intros n sb _ _. apply returns_ret. }
  intros out1 s1 _ W1.
  apply (returns_read _ _ _ ces eq_refl).
  apply returns_bind.
  { apply (returns_concat_m (fun sx => ∀ e, e ∈ ces → element_done sx e)).
    - intros sa sb W D e Hin. eapply element_done_kept; [apply warns_kept; exact W|].
      apply D, Hin.
    - intros e sa Hin D.
      destruct (D e Hin) as (el & Hel & [ce Hce] & [many Hmany] & [opt Hopt] & _).
      apply (returns_read _ _ _ el (elem_obj_Ret _ _ _ Hel)).
      unfold el_many_of, el_optional_of, el_cpp_type_of. rewrite Hmany, Hce, Hopt.
      apply (returns_read _ _ _ many eq_refl).
      destruct many.
      + apply (returns_read _ _ _ ce eq_refl). apply returns_ret.
      + apply (returns_read _ _ _ opt eq_refl).
        apply (returns_read _ _ _ ce eq_refl).
        apply returns_bind; [apply returns_checked|]. intros n sb _ _. apply returns_ret.
    - intros e Hin. eapply element_done_kept; [apply warns_kept; exact W1|]. apply Hed, Hin. }
  intros out2 s2 _ W2.
  apply returns_bind.
  { destruct (has_simple_content o) as [sc|]; [|apply returns_ret].
    assert (V : visited s2 sc).
    { eapply visited_kept; [apply warns_kept; exact W2|].
      eapply visited_kept; [apply warns_kept; exact W1|]. apply Hsc. reflexivity. }
    destruct (cpp_type_of_visited _ _ V) as [csc Hcsc].
    apply (returns_read _ _ _ csc Hcsc). apply returns_ret. }
  intros out3 s3 _ W3.
  apply (returns_read _ _ _ c eq_refl). apply returns_ret.
Qed.

Lemma tokens_from_complex_type_returns t s :
  type_done s t → returns (tokens_from_complex_type t) s.
Proof.
  intros (o & attrs & m & ces & Ho & Hcx & [c Hc] & Ha & Hm & Hces & Hav & Hed & Hsc & Hd).
  unfold tokens_from_complex_type.
  apply (returns_read _ _ _ o (type_obj_Ret _ _ _ Ho)).
  rewrite Ha, Hces, Hc.
  apply (returns_read _ _ _ ces eq_refl).
  apply returns_bind.
  { destruct ces as [|e0 ces']; [apply returns_ret|].
    apply returns_bind.
    - apply (returns_map_m (fun sx => ∀ e, e ∈ e0 :: ces' → element_done sx e));
        [| |exact Hed].
      + intros sa sb W D e Hin. eapply element_done_kept; [apply warns_kept; exact W|].
        apply D, Hin.
      + intros e sa Hin D. destruct (D e Hin) as (el & Hel & _).
        apply (returns_read _ _ _ el (elem_obj_Ret _ _ _ Hel)). apply returns_ret.
    - intros names s1 _ _. apply (returns_read _ _ _ c eq_refl). apply returns_ret. }
  intros out1 s1 _ _.
  unfold ty_attributes.
  destruct (ty_kind o) as [attributes content| | | | |]; try discriminate Hcx.
  apply (returns_read _ _ _ attributes eq_refl).
  apply returns_bind; [|intros out2 s2 _ _; apply returns_ret].
  destruct attributes as [|a0 rest]; [apply returns_ret|].
  apply (returns_read _ _ _ attrs eq_refl).
  apply (returns_read _ _ _ c eq_refl). apply returns_ret.
Qed.

Lemma type_done_warns s s' t : warns s s' → type_done s t → type_done s' t.
Proof. intros W. apply (type_done_kept None); [apply warns_kept; exact W | discriminate]. Qed.

Lemma struct_definitions_returns s :
  (∀ t, t ∈ types s → type_done s t) → returns struct_definitions s.
Proof.
  intros Hd. unfold struct_definitions. apply (returns_read _ _ _ s eq_refl).
  apply (returns_concat_m (fun sx => ∀ t, t ∈ types s → type_done sx t)); [| |exact Hd].
  - intros sa sb W D t Hin. eapply type_done_warns; [exact W|]. apply D, Hin.
  - intros t sa Hin D. apply typedefn_from_complex_type_returns, D, Hin.
Qed.

Lemma complex_type_tokens_returns s :
  (∀ t, t ∈ types s → type_done s t) → returns complex_type_tokens s.
Proof.
  intros Hd. unfold complex_type_tokens. apply (returns_read _ _ _ s eq_refl).
  apply (returns_concat_m (fun sx => ∀ t, t ∈ types s → type_done sx t)); [| |exact Hd].
  - intros sa sb W D t Hin. eapply type_done_warns; [exact W|]. apply D, Hin.
  - intros t sa Hin D. apply tokens_from_complex_type_returns, D, Hin.
Qed.

Lemma element_definitions_returns s :
  (∀ e, e ∈ elements s → element_done s e) → returns element_definitions s.
Proof.
  intros Hd. unfold element_definitions. apply (returns_read _ _ _ s eq_refl).
  apply (returns_concat_m (fun sx => ∀ e, e ∈ elements s → element_done sx e)); [| |exact Hd].
  - intros sa sb W D e Hin. eapply element_done_kept; [apply warns_kept; exact W|].
    apply D, Hin.
  - intros e sa Hin D. destruct (D e Hin) as (el & Hel & [c Hc] & _).
    apply (returns_read _ _ _ el (elem_obj_Ret _ _ _ Hel)).
    unfold el_cpp_type_of. rewrite Hc.
    apply (returns_read _ _ _ c eq_refl). apply returns_ret.
Qed.

Lemma fn_declarations_return s :
  (∀ t, t ∈ types s → visited s t) →
  returns count_fn_declarations s ∧ returns load_fn_declarations s.
Proof.
  intros Hv. split.
  - unfold count_fn_declarations. apply (returns_read _ _ _ s eq_refl).
    apply (returns_concat_m (fun sx => ∀ t, t ∈ types s → visited sx t)); [| |exact Hv].
    + intros sa sb W V t Hin. eapply visited_kept; [apply warns_kept; exact W|]. apply V, Hin.
    + intros t sa Hin V. destruct (V t Hin) as (o & Ho & _).
      unfold name_of. apply returns_bind; [|intros n sb _ _; apply returns_ret].
      apply (returns_read _ _ _ o (type_obj_Ret _ _ _ Ho)). apply returns_ret.
  - unfold load_fn_declarations. apply (returns_read _ _ _ s eq_refl).
    apply (returns_concat_m (fun sx => ∀ t, t ∈ types s → visited sx t)); [| |exact Hv].
    + intros sa sb W V t Hin. eapply visited_kept; [apply warns_kept; exact W|]. apply V, Hin.
    + intros t sa Hin V. destruct (V t Hin) as (o & Ho & c & Hc).
      apply (returns_read _ _ _ o (type_obj_Ret _ _ _ Ho)). rewrite Hc.
      apply (returns_read _ _ _ c eq_refl). apply returns_ret.
Qed.

(** after the loops and the sort, every type of [types], named or
    anonymous, is done *)
Lemma sorted_types_done dfa_from_group fuel fuel' s s1 s2 :
  untouched s →
  annotate dfa_from_group fuel s = Ret (tt, s1) →
  sort_types fuel' s1 = Ret (tt, s2) →
  (∀ t, t ∈ types s2 → type_done s2 t) ∧ (∀ e, e ∈ elements s2 → element_done s2 e).
Proof.
  intros Hu Hanno Hsort.
  pose proof (annotate_grows dfa_from_group fuel s s1 Hanno) as G.
  destruct (annotate_ok dfa_from_group fuel s tt s1 (anno_ok_untouched s Hu) Hanno)
    as ((H1 & H2 & H3 & H4) & _ & V & D).
  destruct (sort_types_frame _ _ _ Hsort) as (Ht2 & He2 & Hr2 & Hkeys).
  assert (K : kept None s1 s2) by (apply kept_heap; assumption).
  split.
  - intros t Hin. destruct (Hkeys t Hin) as [k Hk].
    unfold sort_key in Hk.
    destruct (key_ctype fuel' s1 t ∅) as [[k' V']| |] eqn:Hkey; try discriminate Hk.
    destruct (key_ctype_walked s1 fuel' t ∅ k' V' Hkey) as (HtV & _ & Hw).
    destruct (Hw t HtV) as [Hemp|(ys & Hys & _)]; [set_solver|].
    apply child_types_Ret_inv in Hys as (o1 & ces & Ho1 & Hces & _).
    assert (Hc : is_Some (ty_cpp_type o1)) by (apply (H4 t o1 Ho1); rewrite Hces; eauto).
    eapply type_done_kept; [exact K | discriminate|].
    apply (H3 t o1 Ho1); [|exact Hc|set_solver].
    destruct (is_complex (ty_kind o1)) eqn:Hcx; [reflexivity|]. exfalso.
    pose proof G as (Hkd & _). specialize (Hkd t). rewrite Ho1 in Hkd.
    destruct (type_objs s !! t) as [o|] eqn:Ho; [|discriminate Hkd].
    simpl in Hkd. inversion Hkd as [Hkd'].
    assert (Hc0 : is_complex (ty_kind o) = false) by (rewrite <- Hkd'; exact Hcx).
    destruct G as (_ & _ & _ & _ & _ & _ & _ & _ & _ & _ & _ & Hsi).
    destruct (Hsi t o Ho Hc0) as (o1' & Ho1' & _ & Hce).
    rewrite Ho1 in Ho1'. inversion Ho1'; subst o1'.
    destruct Hu as [Hu _]. destruct (Hu t o Ho) as [_ Hnone]. congruence.
  - intros e Hin. eapply element_done_kept; [exact K|]. apply D.
    rewrite Hr2 in Hin. destruct G as (_ & _ & _ & _ & Hel & _). rewrite <- Hel. exact Hin.
Qed.

(** X20: once the annotation loops and the height sort have returned on
    a parsed schema, the data model is emitted whatever the schema:
    [struct_definitions], [complex_type_tokens], [element_definitions]
    and the declarations of the count and load functions return, having
    printed keyword warnings at most.  They read [cpp_type],
    [attribute_list], [child_elements], [many] and [optional] off types
    and elements, named or anonymous, and none of these reads finds the
    attribute missing. *)
Theorem data_model_is_emitted dfa_from_group (fuel fuel' : nat) (s s1 s2 : State) :
  untouched s →
  annotate dfa_from_group fuel s = Ret (tt, s1) →
  sort_types fuel' s1 = Ret (tt, s2) →
  returns struct_definitions s2 ∧
  returns complex_type_tokens s2 ∧
  returns element_definitions s2 ∧
  returns count_fn_declarations s2 ∧
  returns load_fn_declarations s2.
Proof.
  intros Hu Hanno Hsort.
  destruct (sorted_types_done dfa_from_group fuel fuel' s s1 s2 Hu Hanno Hsort) as [HT HE].
  split; [apply struct_definitions_returns; exact HT|].
  split; [apply complex_type_tokens_returns; exact HT|].
  split; [apply element_definitions_returns; exact HE|].
  apply fn_declarations_return.
  intros t Hin. destruct (HT t Hin) as (o & attrs & m & ces & Ho & _ & Hc & _).
  exists o. split; assumption.
Qed.

Lemma data_model_is_emitted_witness :
  returns struct_definitions (Fixtures.annotated Fixtures.root_tree_schema) ∧
  returns complex_type_tokens (Fixtures.annotated Fixtures.root_tree_schema) ∧
  returns element_definitions (Fixtures.annotated Fixtures.root_tree_schema) ∧
  returns count_fn_declarations (Fixtures.annotated Fixtures.root_tree_schema) ∧
  returns load_fn_declarations (Fixtures.annotated Fixtures.root_tree_schema).
Proof.
  apply (data_model_is_emitted Fixtures.unit_dfa 10 10 Fixtures.root_tree_schema
           (Fixtures.annotated_unsorted Fixtures.root_tree_schema)).
  - exact untouched_root_tree_schema.
  - vm_compute. reflexivity.
  - vm_compute. reflexivity.
Defined.

(** ** Which simple types the loader accepts *)

Lemma builtin_tables_agree :
  forallb (fun p => match assoc (fst p) atomic_builtin_load_formats with
                    | Some _ => true
                    | None => false
                    end) atomic_builtins = true.
Proof. vm_compute. reflexivity. Qed.

Lemma builtin_has_load_format n c input s :
  assoc n atomic_builtins = Some c → ∃ f, load_format n input s = Ret (f, s).
Proof.
  intros H. apply assoc_elem in H. apply list_elem_of_In in H.
  pose proof (proj1 (forallb_forall _ _) builtin_tables_agree _ H) as Hn. simpl in Hn.
  unfold load_format.
  destruct (assoc n atomic_builtin_load_formats) as [[pre post]|]; [|discriminate Hn].
  eexists. reflexivity.
Qed.

Lemma builtins_known_heap s s' :
  type_objs s' = type_objs s → builtins_known s → builtins_known s'.
Proof. intros E B t o c. rewrite E. apply B. Qed.

Lemma builtins_known_update_type t f s u s' :
  (∀ o, ty_kind (f o) = ty_kind o) →
  (∀ o c, type_objs s !! t = Some o → ty_kind o = XsdAtomicBuiltin →
          ty_cpp_type (f o) = Some c → assoc (ty_name (f o)) atomic_builtins = Some c) →
  builtins_known s → update_type t f s = Ret (u, s') → builtins_known s'.
Proof.
  intros Hk Hf B H. apply update_type_Ret_inv in H. subst s'.
  intros t' o' c. simpl. destruct (type_objs s !! t) as [o|] eqn:Ho; [|apply B].
  destruct (decide (t = t')) as [<-|Hn].
  - rewrite lookup_insert_eq. intros E Hkind Hc. inversion E; subst o'.
    apply (Hf o c eq_refl); [rewrite <- Hk; exact Hkind | exact Hc].
  - rewrite lookup_insert_ne by exact Hn. apply B.
Qed.

(** an assignment to a type that is no built-in *)
Lemma builtins_known_update_other t f s u s' o :
  type_objs s !! t = Some o → ty_kind o ≠ XsdAtomicBuiltin →
  (∀ o, ty_kind (f o) = ty_kind o) →
  builtins_known s → update_type t f s = Ret (u, s') → builtins_known s'.
Proof.
  intros Ho Hn Hk. apply builtins_known_update_type; [exact Hk|].
  intros o1 c Ho1 Hb. rewrite Ho in Ho1. inversion Ho1; subst o1. contradiction.
Qed.

Lemma visited_after_cpp_type t c s u s' o :
  type_objs s !! t = Some o → update_type t (ty_set_cpp_type c) s = Ret (u, s') →
  visited s' t.
Proof.
  intros Ho H. exists (ty_set_cpp_type c o).
  split; [eapply update_type_lookup; eassumption | simpl; eauto].
Qed.

Lemma visited_heap s s' t : type_objs s' = type_objs s → visited s t → visited s' t.
Proof. intros E (o & Ho & Hc). exists o. rewrite E. split; assumption. Qed.

Lemma grows_visited s s' t : grows s s' → visited s t → visited s' t.
Proof. intros (_ & _ & Hv & _). apply Hv. Qed.

Lemma anno_type_simple_type_known fuel :
  ∀ t s u s', builtins_known s → anno_type_simple_type fuel t s = Ret (u, s') →
    builtins_known s' ∧ visited s' t ∧
    ∀ o ms, type_objs s !! t = Some o → ty_kind o = XsdUnion ms →
            ∀ m, m ∈ ms → visited s' m.
Proof.
  induction fuel as [|fuel IH]; intros t s u s' B H; [discriminate|].
  simpl in H.
  apply bind_Ret_inv in H as (o & s1 & Ho & H). apply type_obj_Ret_inv in Ho as [Ho ->].
  destruct (ty_kind o) as [attributes content| |validators parent_name| |member_types|] eqn:Hk;
    try raised H.
  - (* a built-in *)
    destruct (assoc (ty_name o) atomic_builtins) as [c|] eqn:Hc; [|raised H].
    split; [|split].
    + eapply builtins_known_update_type with (f := ty_set_cpp_type c); [reflexivity| |exact B|exact H].
      intros ox cx Hox _ Hcx. rewrite Ho in Hox. inversion Hox; subst ox.
      simpl in Hcx. inversion Hcx; subst cx. simpl. exact Hc.
    + eapply visited_after_cpp_type; eassumption.
    + intros ox ms Hox Hkx. rewrite Ho in Hox. inversion Hox; subst ox. congruence.
  - (* a restriction *)
    unfold anno_type_restriction in H.
    apply bind_Ret_inv in H as (o0 & s1 & Ho0 & H). apply type_obj_Ret_inv in Ho0 as [Ho0 ->].
    rewrite Ho in Ho0. inversion Ho0; subst o0. rewrite Hk in H.
    destruct (negb (length validators =? 1)%nat); [raised H|].
    apply bind_Ret_inv in H as (u1 & s1 & H1 & H).
    assert (S1 : builtins_known s1 ∧ ∃ o1, type_objs s1 !! t = Some o1 ∧ ty_kind o1 = ty_kind o).
    { destruct (String.eqb (ty_name o) "").
      - split.
        + eapply builtins_known_update_other with (f := ty_set_name _); [exact Ho| |reflexivity|exact B|exact H1].
          rewrite Hk. discriminate.
        + eexists. split; [eapply update_type_lookup; eassumption | reflexivity].
      - apply ret_Ret_inv in H1 as [_ <-]. split; [exact B|]. exists o. split; [exact Ho | reflexivity]. }
    destruct S1 as (B1 & o1 & Ho1 & Hk1).
    apply bind_Ret_inv in H as (o' & s2 & Ho' & H). apply type_obj_Ret_inv in Ho' as [Ho' ->].
    rewrite Ho1 in Ho'. inversion Ho'; subst o'.
    apply bind_Ret_inv in H as (u2 & s2 & H2 & H).
    unfold modify in H. inversion H; subst s'. clear H.
    split; [|split].
    + apply (builtins_known_heap s2); [reflexivity|].
      eapply builtins_known_update_other with (f := ty_set_cpp_type _); [exact Ho1| |reflexivity|exact B1|exact H2].
      rewrite Hk1, Hk. discriminate.
    + apply (visited_heap s2); [reflexivity|]. eapply visited_after_cpp_type; eassumption.
    + intros ox ms Hox Hkx. rewrite Ho in Hox. inversion Hox; subst ox. congruence.
  - (* a list *)
    split; [|split].
    + eapply builtins_known_update_other with (f := ty_set_cpp_type _); [exact Ho| |reflexivity|exact B|exact H].
      rewrite Hk. discriminate.
    + eapply visited_after_cpp_type; eassumption.
    + intros ox ms Hox Hkx. rewrite Ho in Hox. inversion Hox; subst ox. congruence.
  - (* a union *)
    unfold anno_type_union_with in H.
    apply bind_Ret_inv in H as (o0 & s1 & Ho0 & H). apply type_obj_Ret_inv in Ho0 as [Ho0 ->].
    rewrite Ho in Ho0. inversion Ho0; subst o0.
    apply bind_Ret_inv in H as (u1 & s1 & H1 & H).
    assert (B1 : builtins_known s1).
    { eapply builtins_known_update_other with (f := ty_set_cpp_type _); [exact Ho| |reflexivity|exact B|exact H1].
      rewrite Hk. discriminate. }
    pose proof (visited_after_cpp_type _ _ _ _ _ _ Ho H1) as V1.
    rewrite Hk in H.
    apply bind_Ret_inv in H as (u2 & s2 & H2 & H).
    unfold modify in H. inversion H; subst s'. clear H.
    assert (S2 : ∀ l sa ua sb, builtins_known sa →
              for_each l (fun m => anno_type_simple_type fuel m;;
                                   modify (set_simple_types (fun s => {[m]} ∪ s))) sa
                = Ret (ua, sb) →
              builtins_known sb ∧ grows sa sb ∧ ∀ m, m ∈ l → visited sb m).
    { clear -IH. induction l as [|m l IHl]; intros sa ua sb Ba Hl; simpl in Hl.
      - apply ret_Ret_inv in Hl as [_ <-]. split; [exact Ba|]. split; [apply grows_refl|].
        intros m Hm. inversion Hm.
      - apply bind_Ret_inv in Hl as (u1 & s1 & Hm & Hl).
        apply bind_Ret_inv in Hm as (u2 & s2 & Hm & Hmod).
        destruct (IH m sa u2 s2 Ba Hm) as (B2 & V2 & _).
        pose proof (anno_type_simple_type_grows fuel m sa u2 s2 Hm) as G2.
        unfold modify in Hmod. inversion Hmod; subst s1. clear Hmod.
        assert (G1 : grows s2 (set_simple_types (fun s => {[m]} ∪ s) s2)) by grows_set.
        assert (B3 : builtins_known (set_simple_types (fun s => {[m]} ∪ s) s2))
          by (apply (builtins_known_heap s2); [reflexivity | exact B2]).
        destruct (IHl _ ua sb B3 Hl) as (Bb & Gb & Vb).
        split; [exact Bb|]. split; [eapply grows_trans; [exact G2|]; eapply grows_trans; eassumption|].
        intros m' Hm'. apply elem_of_cons in Hm' as [->|Hm']; [|apply Vb, Hm'].
        eapply grows_visited; [exact Gb|]. apply (visited_heap s2); [reflexivity | exact V2]. }
    destruct (S2 member_types s1 u2 s2 B1 H2) as (B2 & G2 & V2).
    split; [|split].
    + apply (builtins_known_heap s2); [reflexivity | exact B2].
    + apply (visited_heap s2); [reflexivity|]. eapply grows_visited; eassumption.
    + intros ox ms Hox Hkx m Hm. rewrite Ho in Hox. inversion Hox; subst ox.
      rewrite Hk in Hkx. inversion Hkx; subst ms.
      apply (visited_heap s2); [reflexivity|]. apply V2, Hm.
Qed.

Lemma gen_load_union_member_returns c i m s om :
  builtins_known s → type_objs s !! m = Some om → is_Some (ty_cpp_type om) →
  loadable_member (ty_kind om) = true →
  ∃ out, _gen_load_union_member c i m s = Ret (out, s).
Proof.
  intros B Hom [cpp Hcpp] Hl. unfold _gen_load_union_member.
  rewrite (bind_Ret _ _ _ _ _ (type_obj_Ret _ _ _ Hom)), Hcpp.
  rewrite (bind_Ret _ _ s cpp s eq_refl).
  destruct (ty_kind om) eqn:Hk; try discriminate Hl.
  - destruct (builtin_has_load_format (ty_name om) cpp i s (B m om cpp Hom Hk Hcpp)) as [f Hf].
    rewrite (bind_Ret _ _ _ _ _ Hf). eexists. reflexivity.
  - eexists. reflexivity.
Qed.

Lemma gen_load_union_member_loadable c i m s out s' :
  _gen_load_union_member c i m s = Ret (out, s') →
  ∃ om, type_objs s !! m = Some om ∧ loadable_member (ty_kind om) = true.
Proof.
  unfold _gen_load_union_member. intros H.
  apply bind_Ret_inv in H as (mo & s1 & Ho & H). apply type_obj_Ret_inv in Ho as [Ho ->].
  apply bind_Ret_inv in H as (mcpp & s1 & Hc & H). apply attr_of_Ret_inv in Hc as [Hc ->].
  exists mo. split; [exact Ho|].
  destruct (ty_kind mo); try discriminate H; reflexivity.
Qed.

Lemma concat_m_Ret_all {A} (f : A -> M string) (l : list A) s :
  (∀ x, x ∈ l → ∃ out, f x s = Ret (out, s)) → ∃ out, concat_m f l s = Ret (out, s).
Proof.
  induction l as [|x l IH]; intros Hf; simpl.
  - eexists. reflexivity.
  - destruct (Hf x (list_elem_of_here _ _)) as [o1 H1].
    destruct IH as [o2 H2]; [intros y Hy; apply Hf; right; exact Hy|].
    rewrite (bind_Ret _ _ _ _ _ H1), (bind_Ret _ _ _ _ _ H2). eexists. reflexivity.
Qed.

(** X21: which simple types can be loaded.  After the simple-type
    annotator has returned on a type, [_gen_load_simple] returns for it
    exactly when the type is not a union with a member that is a list
    or a union again.  A built-in the annotator has accepted always has
    a load template (the two tables have the same names); enumerations
    and lists are loaded whatever they hold; for a union, each member
    must be a built-in or an enumeration, the two kinds
    [_gen_load_union] knows, although the annotator accepts every
    simple type as a member. *)
Theorem simple_type_loadable_iff (fuel : nat) (t : tid) (s s' : State) (o : XsdType)
    (container input : string) :
  builtins_known s →
  anno_type_simple_type fuel t s = Ret (tt, s') →
  type_objs s' !! t = Some o →
  ((∃ out, _gen_load_simple t container input s' = Ret (out, s')) ↔
   (∀ ms m om, ty_kind o = XsdUnion ms → m ∈ ms → type_objs s' !! m = Some om →
               loadable_member (ty_kind om) = true)).
Proof.
  intros B H Ho.
  destruct (anno_type_simple_type_known fuel t s tt s' B H) as (B' & (o1 & Ho1 & [cpp Hcpp]) & Vm).
  rewrite Ho in Ho1. inversion Ho1; subst o1. clear Ho1.
  pose proof (anno_type_simple_type_grows fuel t s tt s' H) as G.
  (* the object the annotator started from *)
  assert (Hstart : ∃ o0, type_objs s !! t = Some o0 ∧ ty_kind o0 = ty_kind o ∧
                         (∀ a c, ty_kind o0 ≠ XsdComplexType a c) ∧
                         ty_kind o0 ≠ XsdOtherSimple).
  { destruct fuel as [|fuel']; [discriminate H|]. simpl in H.
    apply bind_Ret_inv in H as (o0 & s1 & Ho0 & H). apply type_obj_Ret_inv in Ho0 as [Ho0 ->].
    exists o0. split; [exact Ho0|]. split.
    - destruct (grows_lookup_type _ _ _ _ G Ho0) as (ox & Hox & Hkx).
      rewrite Ho in Hox. inversion Hox; subst ox. symmetry. exact Hkx.
    - destruct (ty_kind o0); try raised H; (split; [intros ? ?|]; discriminate). }
  destruct Hstart as (o0 & Ho0 & Hk0 & Hsimple & Hother).
  unfold _gen_load_simple. rewrite (bind_Ret _ _ _ _ _ (type_obj_Ret _ _ _ Ho)).
  destruct (ty_kind o) as [attributes content| |validators parent_name| |member_types|] eqn:Hk.
  - exfalso. exact (Hsimple _ _ Hk0).
  - split; [discriminate|]. intros _.
    destruct (builtin_has_load_format (ty_name o) cpp input s' (B' t o cpp Ho Hk Hcpp))
      as [f Hf].
    rewrite (bind_Ret _ _ _ _ _ Hf), Hcpp. eexists. reflexivity.
  - split; [discriminate|]. intros _. eexists. reflexivity.
  - split; [discriminate|]. intros _. eexists. reflexivity.
  - unfold _gen_load_union. rewrite (bind_Ret _ _ _ _ _ (type_obj_Ret _ _ _ Ho)), Hk.
    rewrite (bind_Ret _ _ s' member_types s' eq_refl).
    split.
    + intros [out Hout] ms m om Hms Hm Hom. inversion Hms; subst ms.
      apply bind_Ret_inv in Hout as (body & s1 & Hbody & _).
      apply concat_m_read_only_inv in Hbody as (-> & outs & HF & _).
      2:{ intros x. unfold _gen_load_union_member. read_only_tac. }
      apply list_elem_of_lookup in Hm as [n Hn].
      destruct (Forall2_lookup_l _ _ _ _ _ HF Hn) as (ox & _ & Hx).
      apply gen_load_union_member_loadable in Hx as (om' & Hom' & Hl).
      rewrite Hom in Hom'. inversion Hom'; subst om'. exact Hl.
    + intros Hall.
      destruct (concat_m_Ret_all (_gen_load_union_member container input) member_types s')
        as [body Hbody].
      { intros m Hm.
        destruct (Vm o0 member_types Ho0 ltac:(congruence) m Hm) as (om & Hom & Hc).
        eapply gen_load_union_member_returns; [exact B'|exact Hom|exact Hc|].
        exact (Hall member_types m om eq_refl Hm Hom). }
      rewrite (bind_Ret _ _ _ _ _ Hbody). eexists. reflexivity.
  - exfalso. exact (Hother Hk0).
Qed.

Lemma builtins_known_shared_union_schema : builtins_known Fixtures.shared_union_schema.
Proof.
  intros t o c Ho _ Hc. apply elem_of_map_to_list in Ho.
  match type of Ho with
  | _ ∈ map_to_list ?m => remember (map_to_list m) as l eqn:El; vm_compute in El; subst l
  end.
  repeat (apply elem_of_cons in Ho as [Ho|Ho]; [inversion Ho; subst; discriminate Hc|]).
  inversion Ho.
Qed.

Lemma simple_type_loadable_iff_witness :
  match anno_type_simple_type 5 3 Fixtures.shared_union_schema with
  | Ret (_, s') => ∃ out, _gen_load_simple 3 "out->u" "attr.value()" s' = Ret (out, s')
  | _ => False
  end.
Proof.
  destruct (anno_type_simple_type 5 3 Fixtures.shared_union_schema) as [[[] s']| |] eqn:E;
    [|vm_compute in E; discriminate..].
  assert (Ho : ∃ o, type_objs s' !! 3 = Some o ∧ ty_kind o = XsdUnion [1; 2]).
  { vm_compute in E. inversion E; subst s'. eexists. split; vm_compute; reflexivity. }
  destruct Ho as (o & Ho & Hk).
  apply (proj2 (simple_type_loadable_iff 5 3 Fixtures.shared_union_schema s' o _ _
                  builtins_known_shared_union_schema E Ho)).
  intros ms m om Hms Hm Hom. rewrite Hk in Hms. inversion Hms; subst ms.
  vm_compute in E. inversion E; subst s'.
  apply elem_of_cons in Hm as [->|Hm]; [|apply list_elem_of_singleton in Hm as ->];
    vm_compute in Hom; inversion Hom; subst om; reflexivity.
Defined.
